(** * PowerAI scenario perturbation engine: [core/action.py]

    A shallow embedding of the table-editing operations of [core/action.py]
    and the properties of its specification.

    Conventions of the embedding.
    - Numbers are exact rationals ([Q]); [==] is equality of rationals.
    - A pandas [DataFrame] with known columns is a list of records in row
      order; the pandas index is the [idx] field.  A [Series] is a list of
      (label, value) pairs in row order.
    - Every operation mutates its table in place; here it takes the table
      and returns the table after the call next to its Python result.
    - Draws of [numpy.random] and [random] are read from an oracle argument,
      so a statement quantified over the oracle covers every outcome. *)

From Stdlib Require Import QArith Qminmax Lqa Lia ZArith List Bool String DecimalString.
From stdpp Require Import gmap strings fin_maps.
Import ListNotations.

Local Open Scope Q_scope.

(** ** Numbers *)

Definition EPS : Q := 1 # 100000000.

Definition Qltb (x y : Q) : bool := negb (Qle_bool y x).

(** [np.clip(x, lo, hi)] is [minimum(maximum(x, lo), hi)]. *)
Definition clip (x lo hi : Q) : Q := Qmin (Qmax x lo) hi.

(** [np.sum] of a column. *)
Definition np_sum (l : list Q) : Q := fold_right Qplus 0 l.

(** Python truthiness of a float-or-None argument: [if sigma:]. *)
Definition truthy (sigma : option Q) : bool :=
  match sigma with
  | Some s => negb (Qeq_bool s 0)
  | None => false
  end.

(** ** Tables of generators and loads *)

Definition ident := string.

Record equip := mk_equip {
  idx : ident;
  mark : Z;
  p0 : Q;
  q0 : Q;
  pmin : Q;
  pmax : Q;
  qmin : Q;
  qmax : Q;
  v0 : Q
}.

Definition table := list equip.
Definition series := list (ident * Q).

Definition set_mark (m : Z) (r : equip) : equip :=
  mk_equip (idx r) m (p0 r) (q0 r) (pmin r) (pmax r) (qmin r) (qmax r) (v0 r).
Definition set_p0 (v : Q) (r : equip) : equip :=
  mk_equip (idx r) (mark r) v (q0 r) (pmin r) (pmax r) (qmin r) (qmax r) (v0 r).
Definition set_q0 (v : Q) (r : equip) : equip :=
  mk_equip (idx r) (mark r) (p0 r) v (pmin r) (pmax r) (qmin r) (qmax r) (v0 r).
Definition set_v0 (v : Q) (r : equip) : equip :=
  mk_equip (idx r) (mark r) (p0 r) (q0 r) (pmin r) (pmax r) (qmin r) (qmax r) v.

(** [t.index]. *)
Definition index (t : table) : list ident := List.map idx t.

(** [i in t.index]. *)
Definition in_index (i : ident) (t : table) : bool :=
  List.existsb (String.eqb i) (index t).

(** [t[col]]: a column as a series. *)
Definition column (f : equip -> Q) (t : table) : series :=
  List.map (fun r => (idx r, f r)) t.

Definition values (s : series) : list Q := List.map snd s.

(** [s[i]] for a label. *)
Fixpoint series_get (s : series) (i : ident) : option Q :=
  match s with
  | [] => None
  | (k, v) :: s' => if String.eqb k i then Some v else series_get s' i
  end.

(** [t.loc[labels]]: the rows of the given labels, in the order of the
    labels. *)
Definition loc_rows (labels : list ident) (t : table) : table :=
  List.flat_map (fun i => List.filter (fun r => String.eqb (idx r) i) t) labels.

(** [t.loc[s.index, col] = s]: the rows labelled in [s] take their value
    from [s], aligned on the label; the other rows are left alone. *)
Definition loc_assign (upd : Q -> equip -> equip) (s : series) (t : table) : table :=
  List.map (fun r => match series_get s (idx r) with
                     | Some v => upd v r
                     | None => r
                     end) t.

(** [t['p0'] = np.clip(t['p0'], t['pmin'], t['pmax'])], on the whole table. *)
Definition clip_p0 (t : table) : table :=
  List.map (fun r => set_p0 (clip (p0 r) (pmin r) (pmax r)) r) t.
Definition clip_q0 (t : table) : table :=
  List.map (fun r => set_q0 (clip (q0 r) (qmin r) (qmax r)) r) t.

(** [if indices: indices = [i for i in indices if i in sub.index];
    sub = sub.loc[indices]].  An empty list is falsy, like [None]. *)
Definition restrict (indices : option (list ident)) (sub : table) : table :=
  match indices with
  | Some (i :: rest) =>
      loc_rows (List.filter (fun k => in_index k sub) (i :: rest)) sub
  | _ => sub
  end.

(** [s *= np.random.normal(loc=1.0, scale=sigma, size=(len(s),))]: the
    k-th entry is multiplied by the k-th sample. *)
Fixpoint scale_from (noise : nat -> Q) (k : nat) (s : series) : series :=
  match s with
  | [] => []
  | (i, v) :: s' => (i, v * noise k) :: scale_from noise (S k) s'
  end.
Definition scale (noise : nat -> Q) (s : series) : series := scale_from noise 0 s.

(** ** Generator dispatch redistribution *)

(** What [distribute_generators_p] hands back: a float on most paths, a
    [Series] where the code adds a column to a float. *)
Inductive result :=
| Scalar (x : Q)
| Series (s : series).

(** The participants for [delta > 0] and for [delta <= 0]. *)
Definition in_service (t : table) : table :=
  List.filter (fun r => Z.eqb (mark r) 1) t.

Definition candidates_up (generators : table) (indices : option (list ident)) : table :=
  List.filter (fun r => Qltb (p0 r) (pmax r)) (restrict indices (in_service generators)).

Definition candidates_down (generators : table) (indices : option (list ident)) : table :=
  List.filter (fun r => Qltb (pmin r) (p0 r)) (restrict indices (in_service generators)).

Definition distribute_generators_p (generators : table) (delta : Q)
    (indices : option (list ident)) (sigma : option Q) (clip_flag : bool)
    (noise : nat -> Q) : table * result :=
  let share (sub : table) (margin : series) (margin_sum : Q) :=
    let margin := if truthy sigma then scale noise margin else margin in
    let margin_sum := if truthy sigma then np_sum (values margin) else margin_sum in
    let new_p0 :=
      List.map (fun '(r, (i, m)) => (i, p0 r + m / margin_sum * delta))
               (List.combine sub margin) in
    let generators := loc_assign set_p0 new_p0 generators in
    let generators := if clip_flag then clip_p0 generators else generators in
    (generators, Scalar 0) in
  if Qltb 0 delta then
    let sub := candidates_up generators indices in
    let margin := column (fun r => pmax r - p0 r) sub in
    let margin_sum := np_sum (values margin) in
    if Qle_bool margin_sum delta then
      (loc_assign set_p0 (column pmax sub) generators, Scalar (delta - margin_sum))
    else share sub margin margin_sum
  else
    let sub := candidates_down generators indices in
    let margin := column (fun r => p0 r - pmin r) sub in
    let margin_sum := np_sum (values margin) in
    if Qle_bool margin_sum (- delta) then
      (loc_assign set_p0 (column pmin sub) generators,
       Series (List.map (fun '(i, m) => (i, delta + m)) margin))
    else share sub margin margin_sum.

(** ** Load redistribution *)

(** [loads[(loads['mark'] == 1) & (loads['p0'] > 0.)]], then the
    restriction to [indices]. *)
Definition participants (loads : table) (indices : option (list ident)) : table :=
  restrict indices
    (List.filter (fun r => Z.eqb (mark r) 1 && Qltb 0 (p0 r)) loads).

(** [ratio = sub['p0']] binds [ratio] to the column object of [sub], and
    [ratio *= samples] multiplies that object in place: the column [p0] of
    [sub] is the multiplied one from then on ([loads] itself is untouched,
    [sub] being a copy of the selected rows).  The k-th row takes the k-th
    sample. *)
Fixpoint scale_p0_from (noise : nat -> Q) (k : nat) (sub : table) : table :=
  match sub with
  | [] => []
  | r :: sub' => set_p0 (p0 r * noise k) r :: scale_p0_from noise (S k) sub'
  end.
Definition scale_p0 (noise : nat -> Q) (sub : table) : table :=
  scale_p0_from noise 0 sub.

(** Lines 110-113: the table after
    [loads.loc[sub.index, 'p0'] = sub['p0'] + ratio / np.sum(ratio) * delta],
    before any clipping. *)
Definition share_loads_p (loads : table) (delta : Q)
    (indices : option (list ident)) (p_sigma : option Q)
    (noise_p : nat -> Q) : table :=
  let sub := participants loads indices in
  let sub := if truthy p_sigma then scale_p0 noise_p sub else sub in
  let ratio := column p0 sub in
  let total := np_sum (values ratio) in
  let new_p0 :=
    List.map (fun '(r, (i, w)) => (i, p0 r + w / total * delta))
             (List.combine sub ratio) in
  loc_assign set_p0 new_p0 loads.

Definition distribute_loads_p (loads : table) (delta : Q)
    (indices : option (list ident)) (p_sigma : option Q) (keep_factor : bool)
    (factor_sigma : option Q) (clip_flag : bool)
    (noise_factor noise_p : nat -> Q) : table :=
  let sub := participants loads indices in
  let factor :=
    let f := List.map (fun r => (idx r, q0 r / p0 r)) sub in
    if truthy factor_sigma then scale noise_factor f else f in
  let loads := share_loads_p loads delta indices p_sigma noise_p in
  let loads := if clip_flag then clip_p0 loads else loads in
  if keep_factor then
    let new_q0 :=
      List.map (fun '(r, (i, f)) => (i, p0 r * f))
               (List.combine (loc_rows (index sub) loads) factor) in
    let loads := loc_assign set_q0 new_q0 loads in
    if clip_flag then clip_q0 loads else loads
  else loads.

(** ** Reactive power and bulk set points *)

Inductive error :=
| DataIncomplete      (* ValueError('Data incomplete! ...') *)
| NotPlenty           (* ValueError('Not plenty of aclines to be off.') *)
| KeyError            (* pandas: a label is not in the index *)
| LengthMismatch      (* pandas: an array does not have one value per row *)
| NotModelled.        (* no exception: the call returns, with rows of NaN that a
                         table of rationals cannot hold *)

(** [random_load_q0]: the samples of [np.random.normal] and of
    [np.random.rand] come from the oracle, one per row. *)
Fixpoint random_q0_from (sigma : option Q) (noise : nat -> Q) (k : nat)
    (loads : table) : table :=
  match loads with
  | [] => []
  | r :: loads' =>
      set_q0 (match sigma with
              | Some _ => q0 r * noise k
              | None => qmin r + noise k * (qmax r - qmin r)
              end) r
      :: random_q0_from sigma noise (S k) loads'
  end.

Definition random_load_q0 (loads : table) (sigma : option Q) (clip_flag : bool)
    (noise : nat -> Q) : table :=
  let loads := random_q0_from sigma noise 0 loads in
  if clip_flag then clip_q0 loads else loads.

(** [df[col] = value] on a table with no rows and a value that is not
    empty: pandas takes the index from the value and creates one row per
    entry, with [NaN] in every other column, and does not raise. *)
Definition creates_rows (data : table) (value : list Q) : bool :=
  match data, value with
  | [], _ :: _ => true
  | _, _ => false
  end.

(** [set_gl_p0]: [data['p0'] = value] needs one value per row of a table
    that has rows.  On a table with no rows a value that is not empty
    creates rows whose other columns are [NaN]; a table of rationals has no
    value for them, and the result is marked [NotModelled]. *)
Definition set_gl_p0 (data : table) (value : list Q) (keep_factor : bool)
    (clip_flag : bool) : table * option error :=
  let factor := List.map (fun r => q0 r / (p0 r + EPS)) data in
  if creates_rows data value then
    (data, Some NotModelled)
  else if negb (Nat.eqb (List.length value) (List.length data)) then
    (data, Some LengthMismatch)
  else
    let data := List.map (fun '(r, v) => set_p0 v r) (List.combine data value) in
    let data :=
      if keep_factor
      then List.map (fun '(r, f) => set_q0 (p0 r * f) r) (List.combine data factor)
      else data in
    let data := if clip_flag then clip_q0 (clip_p0 data) else data in
    (data, None).

(** ** Topology: generators *)

Definition mem (i : ident) (l : list ident) : bool := List.existsb (String.eqb i) l.

(** [t.loc[labels, col] = f(row)] for a list of labels. *)
Definition loc_update (labels : list ident) (f : equip -> equip) (t : table) : table :=
  List.map (fun r => if mem (idx r) labels then f r else r) t.

Inductive v0_arg :=
| V0None
| V0Float (v : Q)
| V0List (vs : list Q).

(** [generators.loc[indices, col]] with a list of labels raises [KeyError]
    when a label is missing, before anything is written.  A list of [v0]
    with one value per named row is set row by row.  A list of another
    length is handled as the pandas of the time of the code (up to 1.1)
    handles it: nothing happens when no row is named, a list of one value is
    set like a float, and any other list raises. *)
Definition full_open_generators (generators : table) (indices : list ident)
    (v : v0_arg) : table * option error :=
  if negb (List.forallb (fun i => in_index i generators) indices) then
    (generators, Some KeyError)
  else
    let generators := loc_update indices (set_mark 1) generators in
    let generators := loc_update indices (fun r => set_p0 (pmax r) r) generators in
    match v with
    | V0None => (generators, None)
    | V0Float x => (loc_update indices (set_v0 x) generators, None)
    | V0List vs =>
        if Nat.eqb (List.length vs) (List.length (loc_rows indices generators))
        then (List.fold_left
                (fun g '(i, x) => loc_update [i] (set_v0 x) g)
                (List.combine indices vs) generators, None)
        else if Nat.eqb (List.length (loc_rows indices generators)) 0
        then (generators, None)
        else match vs with
             | [x] => (loc_update indices (set_v0 x) generators, None)
             | _ => (generators, Some LengthMismatch)
             end
    end.


(** ** Topology: branches *)

Definition bus := nat.

Record branch := mk_branch {
  bidx : ident;
  bmark : Z;
  ibus : bus;
  jbus : bus
}.

(** [power.data], as far as the topology operations read it. *)
Record power_data := mk_power {
  acline : list branch;
  transformer : list branch
}.

Definition set_bmark (m : Z) (b : branch) : branch :=
  mk_branch (bidx b) m (ibus b) (jbus b).

(** [data['acline']['mark'] = 1; data['transformer']['mark'] = 1]. *)
Definition close_all_branches (data : power_data) : power_data :=
  mk_power (List.map (set_bmark 1) (acline data))
           (List.map (set_bmark 1) (transformer data)).

(** An edge of the multigraph, [(ibus, jbus, key)], as the source builds it
    for a line: [(aclines.loc[idx, 'ibus'], aclines.loc[idx, 'jbus'], idx)]. *)
Definition edge := (bus * bus * ident)%type.

Definition edge_of (b : branch) : edge := (ibus b, jbus b, bidx b).

(** The same undirected keyed edge, whichever way round it is written. *)
Definition edge_eqb (e1 e2 : edge) : bool :=
  let '(u1, v1, k1) := e1 in
  let '(u2, v2, k2) := e2 in
  String.eqb k1 k2 &&
  ((Nat.eqb u1 u2 && Nat.eqb v1 v2) || (Nat.eqb u1 v2 && Nat.eqb v1 u2)).

(** Modelled from the spec: the topology graph collaborator ([core/topo.py],
    class [PowerGraph]) is not part of the sources.  Section 6 gives its
    interface: it is built from a dataset with
    [(graphKind='multigraph', nodeKind='bus', onlyInService=true)], that is
    one edge per in-service branch (lines and transformers) between the
    branch's terminal buses. *)
Definition PowerGraph (data : power_data) : list edge :=
  List.map edge_of
    (List.filter (fun b => Z.eqb (bmark b) 1) (acline data ++ transformer data)).

(** [graph.G.remove_edge(u, v, key)]. *)
Definition remove_edge (e : edge) (g : list edge) : list edge :=
  List.filter (fun e' => negb (edge_eqb e' e)) g.

Definition has_bus (b : bus) (seen : list bus) : bool := List.existsb (Nat.eqb b) seen.

(** Modelled from the spec: a step of the search behind [isConnected].  The
    first edge with one end among the buses already reached and the other
    end outside: the new bus, and the edges that are left. *)
Fixpoint pick (g : list edge) (seen : list bus) : option (bus * list edge) :=
  match g with
  | [] => None
  | (u, v, k) :: g' =>
      if has_bus u seen && negb (has_bus v seen) then Some (v, g')
      else if has_bus v seen && negb (has_bus u seen) then Some (u, g')
      else match pick g' seen with
           | Some (w, rest) => Some (w, (u, v, k) :: rest)
           | None => None
           end
  end.

(** Modelled from the spec: the search behind [isConnected].  The buses
    reached from [seen]: every turn takes one edge and one new bus, so as
    many turns as there are edges are enough. *)
Fixpoint grow (fuel : nat) (g : list edge) (seen : list bus) : list bus :=
  match fuel with
  | O => seen
  | S fuel' =>
      match pick g seen with
      | Some (w, g') => grow fuel' g' (w :: seen)
      | None => seen
      end
  end.

(** Modelled from the spec: [isConnected(nodeA, nodeB, excludedEdges) -> bool]
    of the topology graph collaborator, which tells whether the two nodes are
    joined by a path of edges of the graph other than the excluded ones. *)
Definition is_connected (g : list edge) (a b : bus) (excluded : list edge) : bool :=
  let g := List.fold_right remove_edge g excluded in
  has_bus b (grow (List.length g) g [a]).

(** The same notion as a relation: a path of edges from [a] to [b]. *)
Inductive connected (g : list edge) : bus -> bus -> Prop :=
| connected_refl a : connected g a a
| connected_step a b c k :
    (In (a, b, k) g \/ In (b, a, k) g) -> connected g b c -> connected g a c.

(** [aclines.loc[idx, col]] for a label of the table. *)
Definition loc_branch (aclines : list branch) (i : ident) : branch :=
  match List.find (fun b => String.eqb (bidx b) i) aclines with
  | Some b => b
  | None => mk_branch i 0%Z 0%nat 0%nat
  end.

(** [aclines.loc[idx, 'mark'] = 0]. *)
Definition open_branch (i : ident) (aclines : list branch) : list branch :=
  List.map (fun b => if String.eqb (bidx b) i then set_bmark 0 b else b) aclines.

(** [indices.drop(idx)]. *)
Definition drop (i : ident) (indices : list ident) : list ident :=
  List.filter (fun j => negb (String.eqb j i)) indices.

(** The [while num > 0] loop of [random_open_acline].  [rnd k] is the draw
    of [random.sample] at the k-th turn of the loop, reduced to a position of
    the pool; [fuel] bounds the number of turns, every turn taking one
    candidate out of the pool. *)
Fixpoint open_loop (fuel : nat) (rnd : nat -> nat) (k : nat) (keep_link : bool)
    (aclines : list branch) (graph : list edge) (indices : list ident)
    (num : Z) (ret : list ident) : option (list branch * (error + list ident)) :=
  if negb (0 <? num)%Z then Some (aclines, inr ret) else
  match fuel with
  | O => None
  | S fuel' =>
      if (Z.of_nat (List.length indices) <? num)%Z then Some (aclines, inl NotPlenty)
      else
        let i := List.nth (rnd k mod List.length indices)%nat indices EmptyString in
        let indices := drop i indices in
        if keep_link then
          let e := edge_of (loc_branch aclines i) in
          if is_connected graph (ibus (loc_branch aclines i))
                          (jbus (loc_branch aclines i)) [e]
          then open_loop fuel' rnd (S k) keep_link aclines graph indices num ret
          else open_loop fuel' rnd (S k) keep_link (open_branch i aclines)
                         (remove_edge e graph) indices (num - 1)%Z (ret ++ [i])
        else open_loop fuel' rnd (S k) keep_link (open_branch i aclines)
                       graph indices (num - 1)%Z (ret ++ [i])
  end.

(** The candidate pool: in-service lines that are not self-loops. *)
Definition pool (aclines : list branch) : list ident :=
  List.map bidx
    (List.filter (fun b => Z.eqb (bmark b) 1 && negb (Nat.eqb (ibus b) (jbus b))) aclines).

Definition random_open_acline (power : power_data) (num : Z) (keep_link : bool)
    (rnd : nat -> nat) : option (power_data * (error + list ident)) :=
  let aclines := acline power in
  let indices := pool aclines in
  let graph := PowerGraph power in
  match open_loop (S (List.length indices)) rnd 0 keep_link aclines graph indices num [] with
  | Some (aclines, out) => Some (mk_power aclines (transformer power), out)
  | None => None
  end.

(** ** Field editor *)

(** [set_values] is generic in the table and the column: here a
    [DataFrame] is its index and its columns by name, each column holding one
    cell per row.  [NaN] is what pandas puts where it has no value. *)
Inductive cell :=
| Num (x : Q)
| NaN.

Record frame := mk_frame {
  f_index : list ident;
  f_columns : gmap string (list cell)
}.

Definition cell_add (v : Q) (c : cell) : cell :=
  match c with
  | Num x => Num (x + v)
  | NaN => NaN
  end.

(** The three kinds of [values]: a [dict], an [np.array], a [pd.Series]. *)
Inductive new_values :=
| ByIdentifier (m : list (ident * Q))
| ByPosition (a : list Q)
| Keyed (s : series).

(** The cells of a column at the rows labelled [k] are rewritten by [g]. *)
Definition loc_modify (k : ident) (column : string) (g : cell -> cell)
    (f : frame) : frame :=
  mk_frame (f_index f)
    (alter (fun cs => zip_with (fun i c => if String.eqb i k then g c else c)
                               (f_index f) cs)
           column (f_columns f)).

(** [f.loc[k, column] = v] for a label that is not in the index: pandas
    appends a row labelled [k], with [v] in the column and [NaN] elsewhere. *)
Definition loc_enlarge (k : ident) (column : string) (v : Q) (f : frame) : frame :=
  mk_frame (f_index f ++ [k])
    (alter (fun cs => removelast cs ++ [Num v]) column
           ((fun cs => cs ++ [NaN]) <$> f_columns f)).

(** [for k in values: ...] over the dict, in its order. *)
Fixpoint set_by_identifier (column : string) (delta : bool)
    (m : list (ident * Q)) (f : frame) : frame * option error :=
  match m with
  | [] => (f, None)
  | (k, v) :: m' =>
      if mem k (f_index f) then
        set_by_identifier column delta m'
          (loc_modify k column (if delta then cell_add v else fun _ => Num v) f)
      else if delta then (f, Some KeyError)
      else set_by_identifier column delta m' (loc_enlarge k column v f)
  end.

(** The label of the k-th row of a [RangeIndex], written in decimal. *)
Definition range_label (k : nat) : ident := NilEmpty.string_of_uint (Nat.to_uint k).

(** [len(f.index) == 0]. *)
Definition no_rows (f : frame) : bool :=
  match f_index f with
  | [] => true
  | _ :: _ => false
  end.

Definition is_empty {A} (l : list A) : bool :=
  match l with
  | [] => true
  | _ :: _ => false
  end.

(** [f[column] = value] on a frame with no rows, for a value that is not
    empty: pandas takes the index of the frame from the value (its labels
    for a series, a [RangeIndex] for an array), fills the other columns with
    [NaN], and sets the column. *)
Definition adopt_index (labels : list ident) (column : string) (cs : list cell)
    (f : frame) : frame :=
  mk_frame (f_index f ++ labels)
    (alter (fun _ => cs) column
           ((fun old => old ++ replicate (List.length labels) NaN) <$> f_columns f)).

(** [data[etype][column] = values] and [data[etype][column] += values] for
    an array (one value per row, in row order) and for a series (aligned on
    the labels, [NaN] for a row the series does not name).  With [=], a
    frame with no rows takes its rows from a value that is not empty; [+=]
    works in place on the column and creates no row. *)
Definition set_column (column : string) (delta : bool) (values : new_values)
    (f : frame) : frame * option error :=
  match values with
  | ByIdentifier m => set_by_identifier column delta m f
  | ByPosition a =>
      if negb delta && no_rows f && negb (is_empty a) then
        (adopt_index (List.map range_label (List.seq 0 (List.length a)))
                     column (Num <$> a) f, None)
      else if negb (Nat.eqb (List.length a) (List.length (f_index f))) then
        (f, Some LengthMismatch)
      else
        (mk_frame (f_index f)
           (alter (fun cs => if delta then zip_with cell_add a cs else Num <$> a)
                  column (f_columns f)), None)
  | Keyed s =>
      if negb delta && no_rows f && negb (is_empty s) then
        (adopt_index (List.map fst s) column
                     ((fun i => match series_get s i with
                                | Some v => Num v
                                | None => NaN
                                end) <$> List.map fst s) f, None)
      else
        (mk_frame (f_index f)
           (alter (fun cs => zip_with
                     (fun i c => match series_get s i with
                                 | Some v => if delta then cell_add v c else Num v
                                 | None => NaN
                                 end) (f_index f) cs)
                  column (f_columns f)), None)
  end.

Definition set_values (data : gmap string frame) (etype column : string)
    (values : new_values) (delta : bool) : gmap string frame * option error :=
  match data !! etype with
  | None => (data, Some DataIncomplete)
  | Some f =>
      match f_columns f !! column with
      | None => (data, Some DataIncomplete)
      | Some _ =>
          let '(f', err) := set_column column delta values f in
          (<[etype := f']> data, err)
      end
  end.

(** [f.loc[k, column]], the cell of the first row labelled [k]. *)
Fixpoint cell_at (labels : list ident) (cs : list cell) (k : ident) : option cell :=
  match labels, cs with
  | i :: labels', c :: cs' => if String.eqb i k then Some c else cell_at labels' cs' k
  | _, _ => None
  end.

Definition loc_cell (f : frame) (k : ident) (column : string) : option cell :=
  match f_columns f !! column with
  | Some cs => cell_at (f_index f) cs k
  | None => None
  end.

(** A frame is well formed when its labels are distinct and every column
    has one cell per row. *)
Definition frame_wf (f : frame) : Prop :=
  NoDup (f_index f) /\
  forall c cs, f_columns f !! c = Some cs -> List.length cs = List.length (f_index f).

Definition demo_frame : frame :=
  mk_frame ["a"; "b"] (<["p0" := [Num 1; Num 2]]> (<["mark" := [Num 1; Num 1]]> ∅)).
Definition demo_data : gmap string frame := <["load" := demo_frame]> ∅.

(** A table that has its columns and no rows. *)
Definition empty_frame : frame :=
  mk_frame [] (<["p0" := []]> (<["mark" := []]> ∅)).
Definition empty_data : gmap string frame := <["load" := empty_frame]> ∅.


(** ** Action files *)

(** A row of an action file: [etype, idx, dtype, value]. *)
Record action := mk_action {
  a_etype : string;
  a_idx : ident;
  a_dtype : string;
  a_value : Q
}.

(** The edits of one action file, lines 228-229 of [load_actions]:
    [for _, etype, idx, dtype, value in actions.itertuples():
         set_values(power.data, etype, dtype, {idx: value})].
    An error of [set_values] ends the call. *)
Fixpoint apply_actions (data : gmap string frame) (actions : list action)
    : gmap string frame * option error :=
  match actions with
  | [] => (data, None)
  | a :: rest =>
      match set_values data (a_etype a) (a_dtype a)
              (ByIdentifier [(a_idx a, a_value a)]) false with
      | (data, None) => apply_actions data rest
      | (data, Some e) => (data, Some e)
      end
  end.

(** [load_actions], as far as it edits [power.data]: the loop over the
    files, each given by the rows read from it.  The result lists, file by
    file, the data handed to [power.save_power] once the file's edits are
    done; an error ends the call.  Reading the files, saving, and the load
    flow behind the returned dict belong to collaborators outside
    [core/action.py]. *)
Fixpoint load_actions (data : gmap string frame) (files : list (list action))
    : list (gmap string frame) * option error :=
  match files with
  | [] => ([], None)
  | actions :: rest =>
      match apply_actions data actions with
      | (data, None) =>
          let '(saved, err) := load_actions data rest in (data :: saved, err)
      | (_, Some e) => ([], Some e)
      end
  end.

(** ** Reading a table *)

(** [t.loc[i]], the first row labelled [i]. *)
Definition row_of (t : table) (i : ident) : option equip :=
  List.find (fun r => String.eqb (idx r) i) t.

(** [t.loc[i, 'p0']]. *)
Definition p0_of (t : table) (i : ident) : option Q := p0 <$> row_of t i.

(** What [indices] may be: [None] or a list of distinct labels. *)
Definition indices_ok (indices : option (list ident)) : Prop :=
  match indices with
  | Some l => NoDup l
  | None => True
  end.

(** The increase of the [p0] of row [r] between the table it comes from
    and the table [after]. *)
Definition increase (after : table) (r : equip) : Q :=
  match p0_of after (idx r) with
  | Some v => v - p0 r
  | None => 0
  end.

(** Total upward and downward headroom of the participants. *)
Definition headroom_up (generators : table) (indices : option (list ident)) : Q :=
  np_sum (values (column (fun r => pmax r - p0 r) (candidates_up generators indices))).

Definition headroom_down (generators : table) (indices : option (list ident)) : Q :=
  np_sum (values (column (fun r => p0 r - pmin r) (candidates_down generators indices))).

(** The proportional share of C2, for a call with [sigma=None]: the call
    returns [0.], every candidate's [p0] grows by its headroom over the total
    headroom times [delta], and the increases add up to [delta]. *)
Definition shares_by_headroom (generators : table) (delta : Q)
    (indices : option (list ident)) (clip_flag : bool) (noise : nat -> Q) : Prop :=
  let sub := candidates_up generators indices in
  let total := headroom_up generators indices in
  let out := distribute_generators_p generators delta indices None clip_flag noise in
  snd out = Scalar 0 /\
  (forall r, In r sub ->
     exists v, p0_of (fst out) (idx r) = Some v /\
               v - p0 r == (pmax r - p0 r) / total * delta) /\
  np_sum (List.map (increase (fst out)) sub) == delta.

(** The allocation weight of the k-th participant as C5 reads it: its
    [p0] before the call, times its sample when [p_sigma] is given. *)
Definition weight_of (p_sigma : option Q) (noise_p : nat -> Q) (k : nat)
    (r : equip) : Q :=
  if truthy p_sigma then p0 r * noise_p k else p0 r.

(** C5: every participant ends the share with its [p0] before the call plus
    [weight / totalWeight * delta]. *)
Definition adds_share_to_base (loads : table) (delta : Q)
    (indices : option (list ident)) (p_sigma : option Q) (noise_p : nat -> Q) : Prop :=
  let sub := participants loads indices in
  let total := np_sum (imap (weight_of p_sigma noise_p) sub) in
  forall k r, List.nth_error sub k = Some r ->
    exists v, p0_of (share_loads_p loads delta indices p_sigma noise_p) (idx r) = Some v /\
              v == p0 r + weight_of p_sigma noise_p k r / total * delta.

(** The share of a participant when no sample is drawn. *)
Definition plain_share (loads : table) (delta : Q) (indices : option (list ident))
    (r : equip) : equip :=
  set_p0 (p0 r + p0 r / np_sum (values (column p0 (participants loads indices))) * delta) r.

(** C7: every participant keeps its ratio [q0 / p0]. *)
Definition keeps_power_factor (loads : table) (delta : Q)
    (indices : option (list ident)) (clip_flag : bool)
    (noise_factor noise_p : nat -> Q) : Prop :=
  let after := distribute_loads_p loads delta indices None true None clip_flag
                 noise_factor noise_p in
  forall r, In r (participants loads indices) ->
    exists r', row_of after (idx r) = Some r' /\ q0 r' / p0 r' == q0 r / p0 r.

(** Every value of the table lies within its limits. *)
Definition within_limits (t : table) : Prop :=
  forall r, In r t ->
    (pmin r <= p0 r /\ p0 r <= pmax r) /\ (qmin r <= q0 r /\ q0 r <= qmax r).

(** C8: after [set_gl_p0] with the table's own [p0] column, every row has
    the [q0] it had. *)
Definition keeps_q0 (data : table) : Prop :=
  Forall2 (fun r r' => q0 r' == q0 r) data
          (fst (set_gl_p0 data (List.map p0 data) true false)).


(** C6: when the call raises, the line table is as it was. *)
Definition raise_leaves_table (power : power_data) (num : Z) (keep_link : bool)
    (rnd : nat -> nat) : Prop :=
  forall power' e,
    random_open_acline power num keep_link rnd = Some (power', inl e) ->
    acline power' = acline power.

(** C1: after a normal return, the terminal buses of every line in the
    returned list are joined in the graph of the branches still in service. *)
Definition keeps_link (power : power_data) (num : Z) (rnd : nat -> nat) : Prop :=
  forall power' opened,
    random_open_acline power num true rnd = Some (power', inr opened) ->
    forall i, In i opened ->
      connected (PowerGraph power')
                (ibus (loc_branch (acline power) i))
                (jbus (loc_branch (acline power) i)).

(** What [set_values] checks first: the table or the column is missing. *)
Definition incomplete (data : gmap string frame) (etype column : string) : Prop :=
  match data !! etype with
  | None => True
  | Some f => f_columns f !! column = None
  end.

(** What a successful [set_values] has written in the column: the given
    values, or with [delta] the former values plus the given ones. *)
Definition written (column : string) (delta : bool) (values : new_values)
    (f f' : frame) : Prop :=
  match values with
  | ByIdentifier m =>
      NoDup (List.map fst m) ->
      forall k v, In (k, v) m ->
        is_Some (loc_cell f' k column) /\
        loc_cell f' k column
        = if delta then cell_add v <$> loc_cell f k column else Some (Num v)
  | ByPosition a =>
      exists cs, f_columns f !! column = Some cs /\
        f_columns f' !! column
        = Some (if delta then zip_with cell_add a cs else Num <$> a)
  | Keyed s =>
      forall k, In k (f_index f) ->
        loc_cell f' k column
        = match series_get s k with
          | Some v => if delta then cell_add v <$> loc_cell f k column else Some (Num v)
          | None => Some NaN
          end
  end.

(** ** Comparing rows *)

(** Two rows that differ at most in [p0], and at most in [q0]. *)
Definition only_p0_differs (r r' : equip) : Prop := set_p0 (p0 r) r' = r.
Definition only_q0_differs (r r' : equip) : Prop := set_q0 (q0 r) r' = r.

(** Two rows that differ at most in [p0] and [q0]. *)
Definition only_power_differs (r r' : equip) : Prop :=
  set_q0 (q0 r) (set_p0 (p0 r) r') = r.

(** The limits of a row are in order. *)
Definition p_limits_ordered (r : equip) : Prop := pmin r <= pmax r.
Definition q_limits_ordered (r : equip) : Prop := qmin r <= qmax r.

(** The headroom of the participants exceeds what is asked of them, so
    that [distribute_generators_p] takes the proportional path. *)
Definition enough_headroom (generators : table) (delta : Q)
    (indices : option (list ident)) : Prop :=
  (0 < delta /\ delta < headroom_up generators indices) \/
  (delta <= 0 /\ - delta < headroom_down generators indices).

(** A generator after [full_open_generators] has named it: in service, at
    [pmax], with the given [v0] if one is given, and otherwise as it was. *)
Definition switched_on (v : v0_arg) (r r' : equip) : Prop :=
  r' = set_v0 (v0 r') (set_p0 (pmax r) (set_mark 1 r)) /\
  match v with
  | V0None => v0 r' = v0 r
  | V0Float x => v0 r' = x
  | V0List _ => True
  end.

(** ** Lines out of service *)

(** The line table once [aclines.loc[i, 'mark'] = 0] has been done for
    every [i] of a list. *)
Definition marks_off (opened : list ident) (aclines : list branch) : list branch :=
  List.map (fun b => if mem (bidx b) opened then set_bmark 0 b else b) aclines.

(** ** Sample data *)

Definition gen (i : ident) (p pmn pmx : Q) : equip :=
  mk_equip i 1 p 0 pmn pmx (-(100)) 100 1.

Definition load (i : ident) (p q : Q) : equip :=
  mk_equip i 1 p q 0 100 (-(100)) 100 1.

Definition two_generators : table := [gen "g1" 80 0 100; gen "g2" 30 0 50].

Definition two_low_generators : table := [gen "g1" 30 10 100; gen "g2" 20 10 100].

Definition one_load : table := [load "d1" 10 5].

Definition line (i : ident) (a b : bus) : branch := mk_branch i 1 a b.

(** One line between two buses. *)
Definition one_line : power_data := mk_power [line "L1" 1%nat 2%nat] [].

(** A line from bus 1 to a triangle of lines on the buses 2, 3 and 4. *)
Definition spur_and_triangle : power_data :=
  mk_power [line "L1" 1%nat 2%nat; line "L2" 2%nat 3%nat; line "L3" 3%nat 4%nat;
            line "L4" 4%nat 2%nat] [].

(** An in-service generator running below its [pmin]. *)
Definition low_generator : table := [gen "g1" 10 50 100].

(** Three lines in a ring on the buses 1, 2 and 3. *)
Definition ring : power_data :=
  mk_power [line "L1" 1%nat 2%nat; line "L2" 2%nat 3%nat; line "L3" 3%nat 1%nat] [].

(** * Properties *)

(** ** Rows and labels *)

Lemma eqb_eq_iff (a b : string) : String.eqb a b = true <-> a = b.
Proof. apply String.eqb_eq. Qed.

Lemma same_label_same_row (t : table) (r1 r2 : equip) :
  NoDup (index t) -> In r1 t -> In r2 t -> idx r1 = idx r2 -> r1 = r2.
Proof.
  unfold index. induction t as [|x t IH]; simpl; intros Hnd H1 H2 Heq.
  - contradiction.
  - inversion Hnd as [|? ? Hx Ht]; subst.
    destruct H1 as [->|H1], H2 as [->|H2].
    + reflexivity.
    + exfalso. apply Hx. rewrite list_elem_of_In, Heq. now apply in_map.
    + exfalso. apply Hx. rewrite list_elem_of_In, <- Heq. now apply in_map.
    + now apply IH.
Qed.

Lemma row_of_in (t : table) (r : equip) :
  NoDup (index t) -> In r t -> row_of t (idx r) = Some r.
Proof.
  intros Hnd Hin. unfold row_of.
  destruct (List.find _ t) as [r'|] eqn:Hf.
  - apply List.find_some in Hf as [Hin' He]. apply eqb_eq_iff in He.
    f_equal. now apply (same_label_same_row t).
  - apply (List.find_none _ _ Hf) in Hin. now rewrite String.eqb_refl in Hin.
Qed.

(** A row-wise rewrite that keeps the labels is seen row by row. *)
Lemma row_of_map (F : equip -> equip) (t : table) (i : ident) :
  (forall r, idx (F r) = idx r) ->
  row_of (List.map F t) i = F <$> row_of t i.
Proof.
  intros HF. unfold row_of. induction t as [|x t IH]; simpl; [reflexivity|].
  rewrite HF. destruct (String.eqb (idx x) i); [reflexivity|exact IH].
Qed.

Lemma index_map (F : equip -> equip) (t : table) :
  (forall r, idx (F r) = idx r) -> index (List.map F t) = index t.
Proof.
  intros HF. unfold index. rewrite List.map_map. apply List.map_ext. exact HF.
Qed.

Lemma series_get_column (f : equip -> Q) (sub : table) (r : equip) :
  (forall r', In r' sub -> idx r' = idx r -> r' = r) ->
  In r sub -> series_get (column f sub) (idx r) = Some (f r).
Proof.
  induction sub as [|x sub IH]; simpl; intros Huniq Hin; [contradiction|].
  destruct (String.eqb (idx x) (idx r)) eqn:He.
  - apply eqb_eq_iff in He. now rewrite (Huniq x (or_introl eq_refl) He).
  - destruct Hin as [->|Hin]; [now rewrite String.eqb_refl in He|].
    apply IH; auto.
Qed.

Lemma combine_column {A} (f : equip -> A) (sub : table) :
  List.combine sub (List.map (fun r => (idx r, f r)) sub)
  = List.map (fun r => (r, (idx r, f r))) sub.
Proof. induction sub as [|x sub IH]; simpl; [reflexivity|now rewrite IH]. Qed.

Lemma in_loc_rows (labels : list ident) (t : table) (r : equip) :
  In r (loc_rows labels t) <-> In (idx r) labels /\ In r t.
Proof.
  unfold loc_rows. rewrite List.in_flat_map. split.
  - intros (i & Hi & Hr). apply List.filter_In in Hr as [Hr He].
    apply eqb_eq_iff in He. now subst.
  - intros [Hi Hr]. exists (idx r). split; [exact Hi|].
    apply List.filter_In. now rewrite String.eqb_refl.
Qed.

Lemma in_restrict (indices : option (list ident)) (sub : table) (r : equip) :
  In r (restrict indices sub) -> In r sub.
Proof.
  destruct indices as [[|i rest]|]; simpl; auto.
  intros H. now apply in_loc_rows in H.
Qed.

Lemma in_candidates_up (generators : table) indices (r : equip) :
  In r (candidates_up generators indices) ->
  In r generators /\ mark r = 1%Z /\ p0 r < pmax r.
Proof.
  unfold candidates_up, in_service. intros H.
  apply List.filter_In in H as [H Hlt]. apply in_restrict in H.
  apply List.filter_In in H as [H Hm]. apply Z.eqb_eq in Hm.
  repeat split; auto.
  unfold Qltb in Hlt. apply negb_true_iff in Hlt.
  destruct (Qlt_le_dec (p0 r) (pmax r)) as [|Hle]; [assumption|].
  apply Qle_bool_iff in Hle. congruence.
Qed.

Lemma in_candidates_down (generators : table) indices (r : equip) :
  In r (candidates_down generators indices) ->
  In r generators /\ mark r = 1%Z /\ pmin r < p0 r.
Proof.
  unfold candidates_down, in_service. intros H.
  apply List.filter_In in H as [H Hlt]. apply in_restrict in H.
  apply List.filter_In in H as [H Hm]. apply Z.eqb_eq in Hm.
  repeat split; auto.
  unfold Qltb in Hlt. apply negb_true_iff in Hlt.
  destruct (Qlt_le_dec (pmin r) (p0 r)) as [|Hle]; [assumption|].
  apply Qle_bool_iff in Hle. congruence.
Qed.

(** After [t.loc[sub.index, 'p0'] = sub[col]], a row of [sub] holds its own
    value of the column. *)
Lemma p0_of_loc_assign (f : equip -> Q) (sub t : table) (r : equip) :
  NoDup (index t) -> (forall x, In x sub -> In x t) -> In r sub ->
  row_of (loc_assign set_p0 (column f sub) t) (idx r) = Some (set_p0 (f r) r).
Proof.
  intros Hnd Hsub Hin. unfold loc_assign.
  rewrite row_of_map.
  - rewrite (row_of_in t r Hnd (Hsub r Hin)). simpl.
    rewrite (series_get_column f sub r); [reflexivity| |exact Hin].
    intros r' Hr' He. apply (same_label_same_row t); auto.
  - intros x. now destruct (series_get _ _).
Qed.

(** ** Comparisons *)

Lemma Qltb_true (x y : Q) : Qltb x y = true <-> x < y.
Proof.
  unfold Qltb. rewrite negb_true_iff. split.
  - intros H. destruct (Qlt_le_dec x y) as [|Hle]; [assumption|].
    apply Qle_bool_iff in Hle. congruence.
  - intros H. destruct (Qle_bool y x) eqn:E; [|reflexivity].
    apply Qle_bool_iff in E. lra.
Qed.

Lemma Qltb_false (x y : Q) : Qltb x y = false <-> y <= x.
Proof.
  unfold Qltb. rewrite negb_false_iff. apply Qle_bool_iff.
Qed.

Lemma Qle_bool_false (x y : Q) : Qle_bool x y = false <-> y < x.
Proof.
  split.
  - intros H. destruct (Qlt_le_dec y x) as [|Hle]; [assumption|].
    apply Qle_bool_iff in Hle. congruence.
  - intros H. destruct (Qle_bool x y) eqn:E; [|reflexivity].
    apply Qle_bool_iff in E. lra.
Qed.

(** ** Generators: saturation *)



(** C3.  With [delta < 0] and a total downward headroom of at most
    [-delta], every candidate's [p0] becomes its [pmin], but what the call
    returns is [delta + margin], the column of the per-generator values
    [delta + (p0 - pmin)], and not the float [delta + headroom]. *)
Theorem distribute_generators_p_down_returns_series
    (generators : table) (delta : Q) (indices : option (list ident))
    (sigma : option Q) (clip_flag : bool) (noise : nat -> Q) :
  NoDup (index generators) -> indices_ok indices ->
  delta < 0 -> headroom_down generators indices <= - delta ->
  snd (distribute_generators_p generators delta indices sigma clip_flag noise)
    = Series (column (fun r => delta + (p0 r - pmin r))
                     (candidates_down generators indices)) /\
  snd (distribute_generators_p generators delta indices sigma clip_flag noise)
    <> Scalar (delta + headroom_down generators indices) /\
  (forall r, In r (candidates_down generators indices) ->
     p0_of (fst (distribute_generators_p generators delta indices sigma clip_flag noise))
           (idx r) = Some (pmin r)).
Proof.
  intros Hnd _ Hneg Hle. unfold distribute_generators_p, headroom_down in *.
  assert (H0 : Qltb 0 delta = false) by (apply Qltb_false; lra).
  rewrite H0. apply Qle_bool_iff in Hle. rewrite Hle. simpl.
  split; [|split].
  - f_equal. unfold column. rewrite List.map_map. reflexivity.
  - discriminate.
  - intros r Hr. unfold p0_of. rewrite p0_of_loc_assign; auto.
    intros x Hx. now apply in_candidates_down in Hx.
Qed.

Lemma distribute_generators_p_down_returns_series_witness :
  NoDup (index two_low_generators) /\ -(50) < 0 /\
  headroom_down two_low_generators None <= - -(50) /\
  snd (distribute_generators_p two_low_generators (-(50)) None None true (fun _ => 1))
    = Series [("g1", -(30)); ("g2", -(40))].
Proof.
  assert (Hnd : NoDup (index two_low_generators)).
  { apply NoDup_ListNoDup. repeat constructor; simpl; intuition discriminate. }
  assert (Hneg : -(50) < 0) by reflexivity.
  assert (Hle : headroom_down two_low_generators None <= - -(50))
    by (vm_compute; discriminate).
  split; [exact Hnd|]. split; [exact Hneg|]. split; [exact Hle|].
  exact (proj1 (distribute_generators_p_down_returns_series two_low_generators
                  (-(50)) None None true (fun _ => 1) Hnd I Hneg Hle)).
Defined.

(** ** Generators: proportional share *)

Lemma clip_inside (x lo hi : Q) : lo <= x -> x <= hi -> clip x lo hi = x.
Proof.
  intros Hlo Hhi. unfold clip, Qmax, Qmin, GenericMinMax.gmax, GenericMinMax.gmin.
  destruct (x ?= lo) eqn:E1.
  - destruct (x ?= hi) eqn:E2; try reflexivity.
    apply Qgt_alt in E2. lra.
  - apply Qlt_alt in E1. lra.
  - destruct (x ?= hi) eqn:E2; try reflexivity.
    apply Qgt_alt in E2. lra.
Qed.

Lemma np_sum_ext {A} (f g : A -> Q) (l : list A) :
  (forall x, In x l -> f x == g x) ->
  np_sum (List.map f l) == np_sum (List.map g l).
Proof.
  induction l as [|x l IH]; simpl; intros H; [reflexivity|].
  rewrite (H x (or_introl eq_refl)), IH; [reflexivity|].
  intros y Hy. apply H. now right.
Qed.

Lemma np_sum_scaled {A} (h : A -> Q) (c d : Q) (l : list A) :
  np_sum (List.map (fun x => h x / c * d) l) == np_sum (List.map h l) / c * d.
Proof.
  induction l as [|x l IH]; simpl.
  - unfold Qdiv. ring.
  - rewrite IH. unfold Qdiv. ring.
Qed.

Lemma np_sum_nonneg {A} (h : A -> Q) (l : list A) :
  (forall x, In x l -> 0 <= h x) -> 0 <= np_sum (List.map h l).
Proof.
  induction l as [|x l IH]; simpl; intros H; [lra|].
  assert (0 <= h x) by (apply H; now left).
  assert (0 <= np_sum (List.map h l)) by (apply IH; intros y Hy; apply H; now right).
  lra.
Qed.

Lemma values_column (f : equip -> Q) (t : table) :
  values (column f t) = List.map f t.
Proof. unfold values, column. rewrite List.map_map. reflexivity. Qed.

(** A part of a positive whole, scaled by a fraction of the whole, stays
    within the part. *)
Lemma share_within (h total delta : Q) :
  0 <= h -> 0 < delta -> delta < total ->
  0 <= h / total * delta /\ h / total * delta <= h.
Proof.
  intros Hh Hd Ht.
  assert (Hq : h / total * delta == h * (delta / total)) by (field; lra).
  assert (H0 : 0 <= delta / total).
  { apply Qle_shift_div_l; lra. }
  assert (H1 : delta / total <= 1).
  { apply Qle_shift_div_r; lra. }
  rewrite Hq. split.
  - apply Qmult_le_0_compat; assumption.
  - rewrite <- (Qmult_1_r h) at 2.
    destruct (Qlt_le_dec 0 h) as [Hpos|Hz].
    + apply Qmult_le_l; assumption.
    + assert (Hh0 : h == 0) by lra. rewrite Hh0. lra.
Qed.

(** The row of a candidate after the proportional share, before clipping. *)
Lemma share_row (generators : table) (delta : Q) indices (noise : nat -> Q)
    (r : equip) :
  NoDup (index generators) -> 0 < delta -> delta < headroom_up generators indices ->
  In r (candidates_up generators indices) ->
  row_of (fst (distribute_generators_p generators delta indices None false noise)) (idx r)
  = Some (set_p0 (p0 r + (pmax r - p0 r) / headroom_up generators indices * delta) r).
Proof.
  intros Hnd Hpos Hlt Hr. unfold distribute_generators_p, headroom_up in *.
  apply Qltb_true in Hpos. rewrite Hpos.
  apply Qle_bool_false in Hlt. rewrite Hlt. simpl.
  unfold column at 2. rewrite combine_column, List.map_map. simpl.
  change (List.map (fun x => (idx x, ?f x)) ?l) with (column f l).
  apply (p0_of_loc_assign
           (fun x => p0 x + (pmax x - p0 x) /
              np_sum (values (column (fun r0 => pmax r0 - p0 r0)
                                     (candidates_up generators indices))) * delta)); auto.
  intros x Hx. now apply in_candidates_up in Hx.
Qed.

Lemma distribute_generators_p_clip (generators : table) (delta : Q) indices
    (noise : nat -> Q) :
  0 < delta -> delta < headroom_up generators indices ->
  distribute_generators_p generators delta indices None true noise
  = (clip_p0 (fst (distribute_generators_p generators delta indices None false noise)),
     Scalar 0).
Proof.
  intros Hpos Hlt. unfold distribute_generators_p, headroom_up in *.
  apply Qltb_true in Hpos. rewrite Hpos.
  apply Qle_bool_false in Hlt. rewrite Hlt. reflexivity.
Qed.

Lemma share_p0 (generators : table) (delta : Q) indices (clip_flag : bool)
    (noise : nat -> Q) (r : equip) :
  NoDup (index generators) -> 0 < delta -> delta < headroom_up generators indices ->
  (clip_flag = false \/
   forall x, In x (candidates_up generators indices) -> pmin x <= p0 x) ->
  In r (candidates_up generators indices) ->
  exists v,
    p0_of (fst (distribute_generators_p generators delta indices None clip_flag noise))
          (idx r) = Some v /\
    v == p0 r + (pmax r - p0 r) / headroom_up generators indices * delta.
Proof.
  intros Hnd Hpos Hlt Hclip Hr.
  pose proof (share_row generators delta indices noise r Hnd Hpos Hlt Hr) as Hrow.
  destruct clip_flag.
  - destruct Hclip as [Hc|Hmin]; [discriminate|].
    rewrite distribute_generators_p_clip by assumption. simpl.
    unfold p0_of, clip_p0. rewrite row_of_map by reflexivity.
    rewrite Hrow. simpl. eexists. split; [reflexivity|].
    destruct (in_candidates_up _ _ _ Hr) as (_ & _ & Hroom).
    destruct (share_within (pmax r - p0 r) (headroom_up generators indices) delta)
      as [Hlo Hhi]; try lra.
    specialize (Hmin r Hr). rewrite clip_inside; [reflexivity|lra|lra].
  - unfold p0_of. rewrite Hrow. simpl. eexists. split; reflexivity.
Qed.

(** C2, as amended.  With [delta > 0], [sigma=None] and a total upward
    headroom above [delta], and when moreover [clip] is off or no candidate
    runs below its [pmin], the call returns [0.], every candidate's [p0]
    grows by [(pmax - p0) / headroom * delta], and the increases add up to
    [delta]. *)
Theorem distribute_generators_p_shares
    (generators : table) (delta : Q) (indices : option (list ident))
    (clip_flag : bool) (noise : nat -> Q) :
  NoDup (index generators) -> indices_ok indices ->
  0 < delta -> delta < headroom_up generators indices ->
  (clip_flag = false \/
   forall r, In r (candidates_up generators indices) -> pmin r <= p0 r) ->
  shares_by_headroom generators delta indices clip_flag noise.
Proof.
  intros Hnd _ Hpos Hlt Hclip. unfold shares_by_headroom.
  split; [|split].
  - destruct clip_flag.
    + now rewrite distribute_generators_p_clip.
    + unfold distribute_generators_p, headroom_up in *.
      apply Qltb_true in Hpos. apply Qle_bool_false in Hlt.
      now rewrite Hpos, Hlt.
  - intros r Hr.
    destruct (share_p0 generators delta indices clip_flag noise r) as (v & Hv & He);
      auto.
    exists v. split; [exact Hv|]. rewrite He. ring.
  - rewrite (np_sum_ext _
               (fun r => (pmax r - p0 r) / headroom_up generators indices * delta)).
    + rewrite np_sum_scaled. unfold headroom_up in *.
      rewrite values_column in *. field. lra.
    + intros r Hr. unfold increase.
      destruct (share_p0 generators delta indices clip_flag noise r) as (v & Hv & He);
        auto.
      rewrite Hv, He. ring.
Qed.

Lemma distribute_generators_p_shares_witness :
  shares_by_headroom two_generators 20 None true (fun _ => 1).
Proof.
  apply distribute_generators_p_shares.
  - apply NoDup_ListNoDup. repeat constructor; simpl; intuition discriminate.
  - exact I.
  - reflexivity.
  - vm_compute. reflexivity.
  - right. intros r [<-|[<-|[]]]; vm_compute; discriminate.
Defined.

(** C2, as stated, fails for an in-service generator below its [pmin] when
    [clip] is on: with [p0 = 10], [pmin = 50], [pmax = 100] and [delta = 9]
    the headroom is [90 > 9] and the share is [9], but clipping lifts [p0]
    from [19] to [50], an increase of [40]. *)
Lemma shares_by_headroom_fails_below_pmin :
  NoDup (index low_generator) /\ 0 < 9 /\ 9 < headroom_up low_generator None /\
  p0_of (fst (distribute_generators_p low_generator 9 None None true (fun _ => 1)))
        "g1" = Some 50 /\
  ~ shares_by_headroom low_generator 9 None true (fun _ => 1).
Proof.
  split; [apply NoDup_ListNoDup; repeat constructor; simpl; intuition discriminate|].
  split; [reflexivity|]. split; [vm_compute; reflexivity|].
  split; [vm_compute; reflexivity|].
  intros (_ & H & _).
  destruct (H (gen "g1" 10 50 100) (or_introl eq_refl)) as (v & Hv & He).
  vm_compute in Hv. injection Hv as <-. vm_compute in He. discriminate.
Qed.

(** ** Loads *)

Lemma row_of_loc_assign (upd : Q -> equip -> equip) (s : series) (t : table)
    (i : ident) :
  (forall v r, idx (upd v r) = idx r) ->
  row_of (loc_assign upd s t) i
  = (fun x => match series_get s i with Some v => upd v x | None => x end)
      <$> row_of t i.
Proof.
  intros Hupd. unfold row_of, loc_assign.
  induction t as [|x t IH]; simpl; [reflexivity|].
  assert (Hidx : idx (match series_get s (idx x) with
                      | Some v => upd v x | None => x end) = idx x)
    by (destruct (series_get s (idx x)); auto).
  rewrite Hidx. destruct (String.eqb (idx x) i) eqn:E.
  - apply eqb_eq_iff in E. subst i. reflexivity.
  - exact IH.
Qed.

Lemma index_loc_assign (upd : Q -> equip -> equip) (s : series) (t : table) :
  (forall v r, idx (upd v r) = idx r) -> index (loc_assign upd s t) = index t.
Proof.
  intros Hupd. unfold loc_assign. apply index_map.
  intros r. destruct (series_get s (idx r)); auto.
Qed.

Lemma NoDup_index_filter (p : equip -> bool) (t : table) :
  NoDup (index t) -> NoDup (index (List.filter p t)).
Proof.
  unfold index. induction t as [|x t IH]; simpl; intros Hnd; [constructor|].
  inversion Hnd as [|? ? Hx Ht]; subst.
  destruct (p x); simpl; auto.
  constructor; auto.
  intros Hin. apply Hx. apply list_elem_of_In. apply list_elem_of_In in Hin.
  apply List.in_map_iff in Hin as (y & Hy & Hin).
  apply List.filter_In in Hin as [Hin _].
  apply List.in_map_iff. eauto.
Qed.

Lemma NoDup_index_loc_rows (labels : list ident) (t : table) :
  NoDup labels -> NoDup (index t) -> NoDup (index (loc_rows labels t)).
Proof.
  intros Hl Ht. induction labels as [|i labels IH]; simpl; [constructor|].
  inversion Hl as [|? ? Hi Hl']; subst.
  unfold index. rewrite List.map_app. apply NoDup_app. split; [|split].
  - now apply (NoDup_index_filter _ t).
  - intros k Hk Hk'. apply list_elem_of_In in Hk. apply list_elem_of_In in Hk'.
    apply List.in_map_iff in Hk as (x & <- & Hx).
    apply List.filter_In in Hx as [_ He]. apply eqb_eq_iff in He.
    apply List.in_map_iff in Hk' as (y & Hy & Hin).
    apply in_loc_rows in Hin as [Hin _]. apply Hi.
    apply list_elem_of_In. congruence.
  - now apply IH.
Qed.

Lemma NoDup_filter_labels (p : ident -> bool) (l : list ident) :
  NoDup l -> NoDup (List.filter p l).
Proof.
  induction l as [|x l IH]; simpl; intros Hnd; [constructor|].
  inversion Hnd as [|? ? Hx Hl]; subst.
  destruct (p x); auto. constructor; auto.
  intros Hin. apply Hx. apply list_elem_of_In. apply list_elem_of_In in Hin.
  now apply List.filter_In in Hin.
Qed.

Lemma NoDup_index_restrict (indices : option (list ident)) (t : table) :
  indices_ok indices -> NoDup (index t) -> NoDup (index (restrict indices t)).
Proof.
  intros Hok Ht. destruct indices as [[|i rest]|]; cbn [restrict]; auto.
  apply NoDup_index_loc_rows; auto.
  now apply (NoDup_filter_labels _ (i :: rest)).
Qed.

Lemma in_participants (loads : table) indices (r : equip) :
  In r (participants loads indices) ->
  In r loads /\ mark r = 1%Z /\ 0 < p0 r.
Proof.
  unfold participants. intros H. apply in_restrict in H.
  apply List.filter_In in H as [H Hc]. apply andb_true_iff in Hc as [Hm Hp].
  apply Z.eqb_eq in Hm. apply Qltb_true in Hp. auto.
Qed.

Lemma NoDup_index_participants (loads : table) indices :
  NoDup (index loads) -> indices_ok indices ->
  NoDup (index (participants loads indices)).
Proof.
  intros Hnd Hok. unfold participants.
  apply NoDup_index_restrict; auto. now apply NoDup_index_filter.
Qed.

Lemma scale_p0_from_nth (noise : nat -> Q) (sub : table) :
  forall k0 k r, List.nth_error sub k = Some r ->
    List.nth_error (scale_p0_from noise k0 sub) k
    = Some (set_p0 (p0 r * noise (k0 + k)%nat) r).
Proof.
  induction sub as [|x sub IH]; intros k0 [|k] r H; simpl in *; try discriminate.
  - injection H as ->. now rewrite Nat.add_0_r.
  - rewrite (IH (S k0) k r H). now rewrite Nat.add_succ_r.
Qed.

Lemma index_scale_p0_from (noise : nat -> Q) (sub : table) :
  forall k0, index (scale_p0_from noise k0 sub) = index sub.
Proof.
  induction sub as [|x sub IH]; intros k0; simpl; [reflexivity|].
  f_equal. apply IH.
Qed.

Lemma weights_scale_p0_from (noise : nat -> Q) (sub : table) :
  forall k0, List.map p0 (scale_p0_from noise k0 sub)
             = imap (fun k r => p0 r * noise (k0 + k)%nat) sub.
Proof.
  induction sub as [|x sub IH]; intros k0; simpl; [reflexivity|].
  rewrite Nat.add_0_r. f_equal. rewrite (IH (S k0)).
  apply imap_ext. intros k y _. simpl.
  now rewrite Nat.add_succ_r.
Qed.

Lemma series_get_column_NoDup (f : equip -> Q) (sub : table) (r : equip) :
  NoDup (index sub) -> In r sub -> series_get (column f sub) (idx r) = Some (f r).
Proof.
  intros Hnd Hin. apply series_get_column; [|exact Hin].
  intros r' Hr' He. now apply (same_label_same_row sub).
Qed.

(** C5.  When [p_sigma] is given, the in-place product [ratio *= samples]
    also rewrites [sub['p0']], so the share is added to the perturbed [p0]:
    the k-th participant ends with [p0 * sample + weight / total * delta]
    and not with [p0 + weight / total * delta]. *)
Theorem share_loads_p_scales_base
    (loads : table) (delta : Q) (indices : option (list ident))
    (p_sigma : option Q) (noise_p : nat -> Q) (k : nat) (r : equip) :
  NoDup (index loads) -> indices_ok indices -> truthy p_sigma = true ->
  List.nth_error (participants loads indices) k = Some r ->
  p0_of (share_loads_p loads delta indices p_sigma noise_p) (idx r)
  = Some (p0 r * noise_p k
          + weight_of p_sigma noise_p k r
            / np_sum (imap (weight_of p_sigma noise_p) (participants loads indices))
            * delta).
Proof.
  intros Hnd Hok Hs Hk. unfold share_loads_p, weight_of, p0_of. rewrite Hs.
  unfold column at 2. rewrite combine_column, List.map_map. simpl.
  change (List.map (fun x => (idx x, ?f x)) ?l) with (column f l).
  rewrite row_of_loc_assign by reflexivity.
  assert (Hin : In r loads).
  { apply List.nth_error_In in Hk. now apply in_participants in Hk. }
  rewrite (row_of_in loads r Hnd Hin). simpl.
  pose proof (scale_p0_from_nth noise_p _ 0 k r Hk) as Hk'. simpl in Hk'.
  apply List.nth_error_In in Hk'.
  set (r' := set_p0 (p0 r * noise_p k) r) in *.
  change (idx r) with (idx r').
  assert (Hnd' : NoDup (index (scale_p0_from noise_p 0 (participants loads indices)))).
  { rewrite index_scale_p0_from. now apply NoDup_index_participants. }
  pose proof (series_get_column_NoDup
                (fun x => p0 x + p0 x /
                   np_sum (values (column p0 (scale_p0 noise_p
                                                (participants loads indices)))) * delta)
                _ r' Hnd' Hk') as Hget.
  unfold column at 1 in Hget. cbv beta in Hget. unfold scale_p0 at 2.
  rewrite Hget. simpl. unfold scale_p0.
  rewrite values_column, weights_scale_p0_from. reflexivity.
Qed.

Lemma share_loads_p_scales_base_witness :
  truthy (Some (1 # 2)) = true /\
  p0_of (share_loads_p one_load 6 None (Some (1 # 2)) (fun _ => 3 # 2)) "d1"
  = Some (10 * (3 # 2) + 10 * (3 # 2) / (10 * (3 # 2) + 0) * 6).
Proof.
  split; [reflexivity|].
  apply (share_loads_p_scales_base one_load 6 None (Some (1 # 2)) (fun _ => 3 # 2)
           0 (load "d1" 10 5)).
  - apply NoDup_ListNoDup. repeat constructor; simpl; intuition discriminate.
  - exact I.
  - reflexivity.
  - reflexivity.
Defined.

(** At that input the load ends at [21], where C5 has [10 + 6 = 16]. *)
Lemma adds_share_to_base_fails :
  p0_of (share_loads_p one_load 6 None (Some (1 # 2)) (fun _ => 3 # 2)) "d1"
    = Some (2520 # 120) /\
  ~ adds_share_to_base one_load 6 None (Some (1 # 2)) (fun _ => 3 # 2).
Proof.
  split; [vm_compute; reflexivity|].
  intros H. destruct (H 0%nat (load "d1" 10 5) eq_refl) as (v & Hv & He).
  vm_compute in Hv. injection Hv as <-. vm_compute in He. discriminate.
Qed.

(** *** Power factor *)

Lemma filter_label_absent (t : table) (i : ident) :
  ~ In i (index t) -> List.filter (fun r => String.eqb (idx r) i) t = [].
Proof.
  unfold index. induction t as [|y t IH]; simpl; intros H; [reflexivity|].
  destruct (String.eqb (idx y) i) eqn:E.
  - apply eqb_eq_iff in E. exfalso. apply H. now left.
  - apply IH. intros Hin. apply H. now right.
Qed.

Lemma filter_label (t : table) (i : ident) (x : equip) :
  NoDup (index t) -> row_of t i = Some x ->
  List.filter (fun r => String.eqb (idx r) i) t = [x].
Proof.
  unfold row_of. induction t as [|y t IH]; simpl; intros Hnd H; [discriminate|].
  apply NoDup_cons in Hnd as [Hy Ht].
  destruct (String.eqb (idx y) i) eqn:E.
  - injection H as ->. f_equal. apply eqb_eq_iff in E. subst i.
    apply filter_label_absent. intros Hin. apply Hy. now apply list_elem_of_In.
  - now apply IH.
Qed.

Lemma loc_rows_index (G : equip -> equip) (l t : table) :
  NoDup (index t) ->
  (forall r, In r l -> row_of t (idx r) = Some (G r)) ->
  loc_rows (index l) t = List.map G l.
Proof.
  intros Hnd. induction l as [|x l IH]; simpl; intros H; [reflexivity|].
  rewrite (filter_label t (idx x) (G x) Hnd (H x (or_introl eq_refl))).
  simpl. f_equal. apply IH. intros r Hr. apply H. now right.
Qed.

Lemma combine_map_map {A B C} (f : A -> B) (g : A -> C) (l : list A) :
  List.combine (List.map f l) (List.map g l) = List.map (fun x => (f x, g x)) l.
Proof. induction l as [|x l IH]; simpl; [reflexivity|now rewrite IH]. Qed.

Lemma share_loads_p_plain (loads : table) (delta : Q) indices (noise_p : nat -> Q) :
  share_loads_p loads delta indices None noise_p
  = loc_assign set_p0
      (column (fun r => p0 (plain_share loads delta indices r))
              (participants loads indices)) loads.
Proof.
  unfold share_loads_p. simpl. unfold column at 2.
  rewrite combine_column, List.map_map. reflexivity.
Qed.

Lemma share_loads_p_plain_row (loads : table) (delta : Q) indices
    (noise_p : nat -> Q) (r : equip) :
  NoDup (index loads) -> In r (participants loads indices) ->
  row_of (share_loads_p loads delta indices None noise_p) (idx r)
  = Some (plain_share loads delta indices r).
Proof.
  intros Hnd Hr. rewrite share_loads_p_plain.
  rewrite (p0_of_loc_assign _ (participants loads indices) loads r); auto.
  intros x Hx. now apply in_participants in Hx.
Qed.

(** Without clipping, [q0] is recomputed from the new [p0] and the ratio
    captured before the call. *)
Lemma distribute_loads_p_unclipped_row (loads : table) (delta : Q) indices
    (noise_factor noise_p : nat -> Q) (r : equip) :
  NoDup (index loads) -> In r (participants loads indices) ->
  row_of (distribute_loads_p loads delta indices None true None false
            noise_factor noise_p) (idx r)
  = Some (set_q0 (p0 (plain_share loads delta indices r) * (q0 r / p0 r))
                 (plain_share loads delta indices r)).
Proof.
  intros Hnd Hr. unfold distribute_loads_p. simpl.
  set (T1 := share_loads_p loads delta indices None noise_p).
  assert (HT1 : NoDup (index T1)).
  { unfold T1. rewrite share_loads_p_plain, index_loc_assign; auto. }
  rewrite (loc_rows_index (plain_share loads delta indices) _ T1 HT1).
  2:{ intros x Hx. now apply share_loads_p_plain_row. }
  rewrite combine_map_map, List.map_map. simpl.
  rewrite row_of_loc_assign by reflexivity.
  unfold T1. rewrite share_loads_p_plain_row by assumption. simpl.
  pose proof (series_get_column
                (fun x => p0 (plain_share loads delta indices x) * (q0 x / p0 x))
                (participants loads indices) r) as Hget.
  unfold column in Hget. simpl in Hget. rewrite Hget; [reflexivity| |exact Hr].
  intros r' Hr' He. apply (same_label_same_row loads); auto.
  - now apply in_participants in Hr'.
  - now apply in_participants in Hr.
Qed.

Lemma clip_p0_within (t : table) :
  (forall r, In r t -> pmin r <= p0 r /\ p0 r <= pmax r) -> clip_p0 t = t.
Proof.
  intros H. unfold clip_p0. rewrite <- (List.map_id t) at 2.
  apply List.map_ext_in. intros r Hr. destruct (H r Hr) as [Hlo Hhi].
  rewrite clip_inside by assumption. now destruct r.
Qed.

Lemma clip_q0_within (t : table) :
  (forall r, In r t -> qmin r <= q0 r /\ q0 r <= qmax r) -> clip_q0 t = t.
Proof.
  intros H. unfold clip_q0. rewrite <- (List.map_id t) at 2.
  apply List.map_ext_in. intros r Hr. destruct (H r Hr) as [Hlo Hhi].
  rewrite clip_inside by assumption. now destruct r.
Qed.

(** When every value after the mutation lies within its limits, clipping
    changes nothing. *)
Lemma distribute_loads_p_clip_no_effect (loads : table) (delta : Q) indices
    p_sigma factor_sigma (noise_factor noise_p : nat -> Q) :
  within_limits (distribute_loads_p loads delta indices p_sigma true factor_sigma
                   false noise_factor noise_p) ->
  distribute_loads_p loads delta indices p_sigma true factor_sigma true
    noise_factor noise_p
  = distribute_loads_p loads delta indices p_sigma true factor_sigma false
      noise_factor noise_p.
Proof.
  unfold distribute_loads_p. cbv beta iota zeta.
  set (T1 := share_loads_p loads delta indices p_sigma noise_p).
  set (factor := if truthy factor_sigma then _ else _).
  intros Hlim.
  assert (HT1 : clip_p0 T1 = T1).
  { apply clip_p0_within. intros x Hx.
    unfold loc_assign in Hlim.
    match type of Hlim with
    | within_limits (List.map ?F T1) =>
        destruct (Hlim (F x) (List.in_map F T1 x Hx)) as [Hp _]
    end.
    now destruct (series_get _ (idx x)). }
  rewrite HT1. apply clip_q0_within. intros x Hx. now apply Hlim.
Qed.

(** C7, as amended.  With [keep_factor=true], no [factor_sigma], no
    [p_sigma], and no clipping taking effect, every participant ends with
    [q0] equal to its new [p0] times the ratio [q0 / p0] it had before the
    call; its ratio after the call is the ratio before the call whenever
    its new [p0] is not zero. *)
Theorem distribute_loads_p_keeps_factor
    (loads : table) (delta : Q) (indices : option (list ident))
    (clip_flag : bool) (noise_factor noise_p : nat -> Q) (r : equip) :
  NoDup (index loads) -> indices_ok indices ->
  (clip_flag = false \/
   within_limits (distribute_loads_p loads delta indices None true None false
                    noise_factor noise_p)) ->
  In r (participants loads indices) ->
  exists r',
    row_of (distribute_loads_p loads delta indices None true None clip_flag
              noise_factor noise_p) (idx r) = Some r' /\
    q0 r' == p0 r' * (q0 r / p0 r) /\
    (~ p0 r' == 0 -> q0 r' / p0 r' == q0 r / p0 r).
Proof.
  intros Hnd _ Hclip Hr.
  assert (Heq : distribute_loads_p loads delta indices None true None clip_flag
                  noise_factor noise_p
                = distribute_loads_p loads delta indices None true None false
                    noise_factor noise_p).
  { destruct clip_flag; [|reflexivity].
    destruct Hclip as [Hc|Hlim]; [discriminate|].
    now apply distribute_loads_p_clip_no_effect. }
  rewrite Heq, distribute_loads_p_unclipped_row by assumption.
  eexists. split; [reflexivity|]. simpl.
  set (p' := p0 r + _ * delta). split; [reflexivity|].
  intros Hnz. apply in_participants in Hr as (_ & _ & Hp).
  field. split; first [exact Hnz | lra].
Qed.

Lemma distribute_loads_p_keeps_factor_witness :
  exists r',
    row_of (distribute_loads_p one_load 6 None None true None true
              (fun _ => 1) (fun _ => 1)) "d1" = Some r' /\
    q0 r' == p0 r' * (5 / 10) /\
    (~ p0 r' == 0 -> q0 r' / p0 r' == 5 / 10).
Proof.
  apply (distribute_loads_p_keeps_factor one_load 6 None true (fun _ => 1)
           (fun _ => 1) (load "d1" 10 5)).
  - apply NoDup_ListNoDup. repeat constructor; simpl; intuition discriminate.
  - exact I.
  - right. intros r [<-|[]]. vm_compute. intuition discriminate.
  - left. reflexivity.
Defined.

(** C7, as stated, fails when the whole load is shed: for one load with
    [p0 = 10], [q0 = 5] and [delta = -10] the load ends with [p0 = 0] and
    [q0 = 0], which has no ratio [1/2]. *)
Lemma keeps_power_factor_fails_at_zero :
  In (load "d1" 10 5) (participants one_load None) /\
  (exists r', row_of (distribute_loads_p one_load (-(10)) None None true None false
                        (fun _ => 1) (fun _ => 1)) "d1" = Some r' /\
              p0 r' == 0 /\ q0 r' == 0) /\
  ~ keeps_power_factor one_load (-(10)) None false (fun _ => 1) (fun _ => 1).
Proof.
  split; [left; reflexivity|]. split.
  - eexists. split; [vm_compute; reflexivity|]. split; reflexivity.
  - intros H. destruct (H (load "d1" 10 5) (or_introl eq_refl)) as (r' & Hr' & He).
    vm_compute in Hr'. injection Hr' as <-. vm_compute in He. discriminate.
Qed.

(** ** Bulk set points *)

Lemma combine_map_r {A B} (g : A -> B) (l : list A) :
  List.combine l (List.map g l) = List.map (fun x => (x, g x)) l.
Proof. induction l as [|x l IH]; simpl; [reflexivity|now rewrite IH]. Qed.

Lemma creates_rows_same_length (data : table) (value : list Q) :
  List.length value = List.length data -> creates_rows data value = false.
Proof. destruct data, value; simpl; intros H; [reflexivity|discriminate|reflexivity..]. Qed.

Lemma set_gl_p0_same_p0 (data : table) :
  set_gl_p0 data (List.map p0 data) true false
  = (List.map (fun r => set_q0 (p0 r * (q0 r / (p0 r + EPS))) (set_p0 (p0 r) r)) data,
     None).
Proof.
  unfold set_gl_p0. rewrite creates_rows_same_length by apply List.length_map.
  rewrite List.length_map, Nat.eqb_refl. simpl.
  rewrite combine_map_r, List.map_map. simpl.
  rewrite combine_map_map, List.map_map. reflexivity.
Qed.

(** C8, as amended.  With [keep_factor=true], [clip=false] and [value] the
    table's own [p0] column, [set_gl_p0] returns normally, keeps every label
    and every [p0], and leaves every row's [q0] at its former value times
    [p0 / (p0 + EPS)]. *)
Theorem set_gl_p0_round_trip (data : table) :
  exists after,
    set_gl_p0 data (List.map p0 data) true false = (after, None) /\
    Forall2 (fun r r' => idx r' = idx r /\ p0 r' = p0 r /\
                         q0 r' == q0 r * (p0 r / (p0 r + EPS))) data after.
Proof.
  eexists. split; [apply set_gl_p0_same_p0|].
  induction data as [|r data IH]; simpl; constructor; [|exact IH].
  simpl. repeat split. unfold Qdiv. ring.
Qed.

(** C8, as stated, fails for a row with [p0 = 0]: its [q0 = 5] becomes
    [0 * (5 / EPS) = 0]. *)
Lemma keeps_q0_fails_at_zero :
  exists r', fst (set_gl_p0 [load "d1" 0 5] (List.map p0 [load "d1" 0 5]) true false)
             = [r'] /\ q0 r' == 0 /\
  ~ keeps_q0 [load "d1" 0 5].
Proof.
  eexists. split; [vm_compute; reflexivity|]. split; [reflexivity|].
  unfold keeps_q0. intros H. vm_compute in H.
  inversion H as [|? ? ? ? Hq _]; subst. discriminate.
Qed.

(** ** Rows are kept *)

Lemma mem_In (k : ident) (l : list ident) : mem k l = true <-> In k l.
Proof.
  unfold mem. rewrite List.existsb_exists. split.
  - intros (x & Hx & He). apply eqb_eq_iff in He. now subst.
  - intros H. exists k. split; [exact H|apply String.eqb_refl].
Qed.


Lemma no_rows_nil (f : frame) : no_rows f = true -> f_index f = [].
Proof. unfold no_rows. now destruct (f_index f). Qed.

(** Which calls take the first branch of the array and series cases: [=]
    on a frame with no rows. *)
Lemma adopts_index (delta : bool) (f : frame) (nonempty : bool) :
  negb delta && no_rows f && nonempty = true -> delta = false /\ f_index f = [].
Proof.
  intros H. apply andb_true_iff in H as [H _]. apply andb_true_iff in H as [Hd Hn].
  apply negb_true_iff in Hd. apply no_rows_nil in Hn. now split.
Qed.





Lemma index_loc_update (labels : list ident) (F : equip -> equip) (t : table) :
  (forall r, idx (F r) = idx r) -> index (loc_update labels F t) = index t.
Proof.
  intros HF. unfold loc_update. apply index_map.
  intros r. destruct (mem (idx r) labels); auto.
Qed.









Lemma index_full_open_generators (generators : table) (indices : list ident)
    (v : v0_arg) :
  index (fst (full_open_generators generators indices v)) = index generators.
Proof.
  unfold full_open_generators.
  destruct (negb _); [reflexivity|].
  set (g := loc_update indices (fun r => set_p0 (pmax r) r)
              (loc_update indices (set_mark 1) generators)).
  assert (Hg : index g = index generators).
  { unfold g. now rewrite !index_loc_update. }
  destruct v as [|x|vs]; simpl.
  - exact Hg.
  - now rewrite index_loc_update.
  - destruct (Nat.eqb (List.length vs) _); simpl.
    + rewrite <- Hg. generalize g.
      induction (List.combine indices vs) as [|[i x] l IH]; intros g0; simpl;
        [reflexivity|].
      rewrite IH. now apply index_loc_update.
    + destruct (Nat.eqb _ 0); simpl; [exact Hg|].
      destruct vs as [|x [|y vs]]; simpl; try exact Hg.
      now rewrite index_loc_update.
Qed.

(** *** Lines *)

Lemma labels_open_branch (i : ident) (aclines : list branch) :
  List.map bidx (open_branch i aclines) = List.map bidx aclines.
Proof.
  unfold open_branch. rewrite List.map_map. apply List.map_ext.
  intros b. now destruct (String.eqb (bidx b) i).
Qed.









(** On a table with no rows the assignment of a whole column takes the
    rows from the values, a [RangeIndex] for an array and the labels of a
    series, and the other columns hold [NaN] there; with [delta=true]
    nothing is created. *)
Lemma set_values_on_no_rows :
  f_index <$> fst (set_values empty_data "load" "p0" (ByPosition [5; 7]) false) !! "load"
  = Some ["0"; "1"] /\
  (fun f => f_columns f !! "mark")
    <$> fst (set_values empty_data "load" "p0" (ByPosition [5; 7]) false) !! "load"
  = Some (Some [NaN; NaN]) /\
  f_index <$> fst (set_values empty_data "load" "p0" (Keyed [("a", 5)]) false) !! "load"
  = Some ["a"] /\
  f_index <$> fst (set_values empty_data "load" "p0" (Keyed [("a", 5)]) true) !! "load"
  = Some [].
Proof. repeat split; vm_compute; reflexivity. Qed.

(** ** Field editor *)

Lemma cell_at_modify (k k' : ident) (g : cell -> cell) (labels : list ident) :
  forall cs,
    cell_at labels (zip_with (fun i c => if String.eqb i k then g c else c) labels cs) k'
    = (fun c => if String.eqb k' k then g c else c) <$> cell_at labels cs k'.
Proof.
  induction labels as [|i labels IH]; intros [|c cs]; simpl; try reflexivity.
  destruct (String.eqb i k') eqn:E.
  - apply eqb_eq_iff in E. now subst.
  - apply IH.
Qed.

Lemma cell_at_absent (k : ident) (labels : list ident) :
  forall cs, ~ In k labels -> cell_at labels cs k = None.
Proof.
  induction labels as [|i labels IH]; intros [|c cs] H; simpl; try reflexivity.
  destruct (String.eqb i k) eqn:E.
  - apply eqb_eq_iff in E. exfalso. apply H. now left.
  - apply IH. intros Hin. apply H. now right.
Qed.

Lemma cell_at_present (k : ident) (labels : list ident) :
  forall cs, In k labels -> List.length cs = List.length labels ->
    is_Some (cell_at labels cs k).
Proof.
  induction labels as [|i labels IH]; intros [|c cs] H Hlen; simpl in *;
    try contradiction; try discriminate.
  destruct (String.eqb i k) eqn:E; [eauto|].
  apply IH; [|lia]. destruct H as [->|H]; [|exact H].
  now rewrite String.eqb_refl in E.
Qed.

Lemma cell_at_app (k k' : ident) (c : cell) (labels : list ident) :
  forall cs, List.length cs = List.length labels ->
    cell_at (labels ++ [k]) (cs ++ [c]) k'
    = match cell_at labels cs k' with
      | Some x => Some x
      | None => if String.eqb k k' then Some c else None
      end.
Proof.
  induction labels as [|i labels IH]; intros [|x cs] Hlen; simpl in *;
    try discriminate.
  - reflexivity.
  - destruct (String.eqb i k'); [reflexivity|]. apply IH. lia.
Qed.

Lemma frame_wf_loc_modify (k : ident) (column : string) (g : cell -> cell)
    (f : frame) :
  frame_wf f -> frame_wf (loc_modify k column g f).
Proof.
  intros [Hnd Hlen]. split; [exact Hnd|]. simpl. intros c cs.
  rewrite lookup_alter. destruct (decide (column = c)) as [->|Hne].
  - destruct (f_columns f !! c) as [cs0|] eqn:Hc; simpl; [|discriminate].
    intros [= <-]. rewrite length_zip_with_l_eq; [reflexivity|].
    symmetry. now apply (Hlen c).
  - apply Hlen.
Qed.

Lemma frame_wf_loc_enlarge (k : ident) (column : string) (v : Q) (f : frame) :
  ~ In k (f_index f) -> frame_wf f -> frame_wf (loc_enlarge k column v f).
Proof.
  intros Hk [Hnd Hlen]. split; simpl.
  - apply NoDup_app. split; [exact Hnd|]. split; [|apply NoDup_singleton].
    intros x Hx Hx'. apply list_elem_of_In in Hx.
    apply list_elem_of_singleton in Hx'. congruence.
  - intros c cs. rewrite lookup_alter. destruct (decide (column = c)) as [->|Hne].
    + rewrite lookup_fmap.
      destruct (f_columns f !! c) as [cs0|] eqn:Hc; simpl; [|discriminate].
      intros [= <-]. rewrite List.removelast_last, !List.length_app. simpl.
      now rewrite (Hlen c cs0).
    + rewrite lookup_fmap.
      destruct (f_columns f !! c) as [cs0|] eqn:Hc; simpl; [|discriminate].
      intros [= <-]. rewrite !List.length_app. simpl. now rewrite (Hlen c cs0).
Qed.

Lemma loc_cell_loc_modify (k k' : ident) (column : string) (g : cell -> cell)
    (f : frame) :
  loc_cell (loc_modify k column g f) k' column
  = (fun c => if String.eqb k' k then g c else c) <$> loc_cell f k' column.
Proof.
  unfold loc_cell, loc_modify. simpl. rewrite lookup_alter_eq.
  destruct (f_columns f !! column) as [cs|]; simpl; [|reflexivity].
  apply cell_at_modify.
Qed.

Lemma loc_cell_loc_enlarge (k k' : ident) (column : string) (v : Q) (f : frame) :
  frame_wf f -> is_Some (f_columns f !! column) ->
  loc_cell (loc_enlarge k column v f) k' column
  = match loc_cell f k' column with
    | Some x => Some x
    | None => if String.eqb k k' then Some (Num v) else None
    end.
Proof.
  intros [_ Hlen] [cs Hcs]. unfold loc_cell, loc_enlarge. simpl.
  rewrite lookup_alter_eq, lookup_fmap, Hcs. simpl.
  rewrite List.removelast_last. apply cell_at_app. now apply (Hlen column).
Qed.

Lemma column_loc_modify (k : ident) (column : string) (g : cell -> cell) (f : frame) :
  is_Some (f_columns f !! column) ->
  is_Some (f_columns (loc_modify k column g f) !! column).
Proof.
  intros [cs Hcs]. simpl. rewrite lookup_alter_eq, Hcs. simpl. eauto.
Qed.

Lemma column_loc_enlarge (k : ident) (column : string) (v : Q) (f : frame) :
  is_Some (f_columns f !! column) ->
  is_Some (f_columns (loc_enlarge k column v f) !! column).
Proof.
  intros [cs Hcs]. simpl. rewrite lookup_alter_eq, lookup_fmap, Hcs. simpl. eauto.
Qed.

Lemma eqb_neq (a b : string) : a <> b -> String.eqb a b = false.
Proof. intros H. now apply String.eqb_neq. Qed.

(** After the loop over a mapping, every named row holds the given value
    (or its former value plus the given one), and the other rows are as
    they were. *)
Lemma set_by_identifier_cells (column : string) (delta : bool)
    (m : list (ident * Q)) :
  forall f f',
    frame_wf f -> is_Some (f_columns f !! column) -> NoDup (List.map fst m) ->
    set_by_identifier column delta m f = (f', None) ->
    (forall k v, In (k, v) m ->
       is_Some (loc_cell f' k column) /\
       loc_cell f' k column
       = if delta then cell_add v <$> loc_cell f k column else Some (Num v)) /\
    (forall k, ~ In k (List.map fst m) -> loc_cell f' k column = loc_cell f k column).
Proof.
  induction m as [|[k0 v0] m IH]; intros f f' Hwf Hcol Hnd H; simpl in *.
  - injection H as <-. split; [intros k v []|reflexivity].
  - apply NoDup_cons in Hnd as [Hk0 Hnd].
    assert (Hk0' : ~ In k0 (List.map fst m))
      by (intros Hin; apply Hk0; now apply list_elem_of_In).
    assert (Hother : forall k v, In (k, v) m -> k <> k0).
    { intros k v Hin ->. apply Hk0'. apply List.in_map_iff. now exists (k0, v). }
    destruct (mem k0 (f_index f)) eqn:Hmem.
    + set (g := if delta then cell_add v0 else fun _ => Num v0) in *.
      destruct (IH (loc_modify k0 column g f) f'
                  (frame_wf_loc_modify _ _ _ _ Hwf) (column_loc_modify _ _ _ _ Hcol)
                  Hnd H) as [Hin Hout].
      assert (Hsome : is_Some (loc_cell f k0 column)).
      { destruct Hcol as [cs Hcs]. unfold loc_cell. rewrite Hcs.
        apply cell_at_present; [now apply mem_In|]. now apply (proj2 Hwf column). }
      split.
      * intros k v [[= <- <-]|Hkv].
        -- rewrite (Hout k0 Hk0'), loc_cell_loc_modify, String.eqb_refl.
           destruct Hsome as [c Hc]. rewrite Hc. unfold g.
           destruct delta; simpl; eauto.
        -- destruct (Hin k v Hkv) as [Hs He]. split; [exact Hs|].
           rewrite He, loc_cell_loc_modify, (eqb_neq k k0 (Hother k v Hkv)).
           destruct delta; [|reflexivity].
           now destruct (loc_cell f k column).
      * intros k Hk. rewrite (Hout k); [|tauto].
        rewrite loc_cell_loc_modify, eqb_neq; [|intros ->; tauto].
        now destruct (loc_cell f k column).
    + destruct delta; [discriminate|].
      assert (Hnin : ~ In k0 (f_index f))
        by (intros Hin; apply mem_In in Hin; congruence).
      assert (Hnone : loc_cell f k0 column = None).
      { unfold loc_cell. destruct (f_columns f !! column); [|reflexivity].
        now apply cell_at_absent. }
      destruct (IH (loc_enlarge k0 column v0 f) f'
                  (frame_wf_loc_enlarge _ _ _ _ Hnin Hwf)
                  (column_loc_enlarge _ _ _ _ Hcol) Hnd H) as [Hin Hout].
      split.
      * intros k v [[= <- <-]|Hkv].
        -- rewrite (Hout k0 Hk0'), loc_cell_loc_enlarge, Hnone, String.eqb_refl
             by assumption. eauto.
        -- exact (Hin k v Hkv).
      * intros k Hk. rewrite (Hout k); [|tauto].
        rewrite loc_cell_loc_enlarge by assumption.
        destruct (loc_cell f k column); [reflexivity|].
        rewrite eqb_neq; [reflexivity|intros ->; tauto].
Qed.

Lemma set_by_identifier_error (column : string) (delta : bool)
    (m : list (ident * Q)) :
  forall f, snd (set_by_identifier column delta m f) <> Some DataIncomplete.
Proof.
  induction m as [|[k v] m IH]; intros f; simpl; [discriminate|].
  destruct (mem k (f_index f)); [apply IH|].
  destruct delta; [discriminate|apply IH].
Qed.

Lemma set_column_error (column : string) (delta : bool) (values : new_values)
    (f : frame) :
  snd (set_column column delta values f) <> Some DataIncomplete.
Proof.
  destruct values as [m|a|s]; simpl.
  - apply set_by_identifier_error.
  - destruct (negb delta && no_rows f && negb (is_empty a)); [discriminate|].
    destruct (Nat.eqb (List.length a) (List.length (f_index f))); discriminate.
  - destruct (negb delta && no_rows f && negb (is_empty s)); discriminate.
Qed.

Lemma cell_at_keyed (s : series) (delta : bool) (k : ident) (labels : list ident) :
  forall cs, In k labels -> List.length cs = List.length labels ->
    cell_at labels
      (zip_with (fun i c => match series_get s i with
                            | Some v => if delta then cell_add v c else Num v
                            | None => NaN
                            end) labels cs) k
    = match series_get s k with
      | Some v => if delta then cell_add v <$> cell_at labels cs k else Some (Num v)
      | None => Some NaN
      end.
Proof.
  induction labels as [|i labels IH]; intros [|c cs] Hin Hlen; simpl in *;
    try contradiction; try discriminate.
  destruct (String.eqb i k) eqn:E.
  - apply eqb_eq_iff in E. subst i.
    destruct (series_get s k); [|reflexivity]. now destruct delta.
  - apply IH; [|lia]. destruct Hin as [->|Hin]; [|exact Hin].
    now rewrite String.eqb_refl in E.
Qed.

Lemma set_column_written (column : string) (delta : bool) (values : new_values)
    (f f' : frame) :
  frame_wf f -> is_Some (f_columns f !! column) ->
  set_column column delta values f = (f', None) ->
  written column delta values f f'.
Proof.
  intros Hwf Hcol H. destruct values as [m|a|s]; simpl in *.
  - intros Hnd k v Hin.
    now apply (proj1 (set_by_identifier_cells column delta m f f' Hwf Hcol Hnd H)).
  - destruct Hcol as [cs Hcs]. exists cs. split; [exact Hcs|].
    destruct (negb delta && no_rows f && negb (is_empty a)) eqn:Hc.
    + apply adopts_index in Hc as [-> _]. injection H as <-.
      simpl. rewrite lookup_alter_eq, lookup_fmap, Hcs. reflexivity.
    + destruct (Nat.eqb (List.length a) (List.length (f_index f)));
        [|discriminate].
      injection H as <-. simpl. rewrite lookup_alter_eq, Hcs. reflexivity.
  - intros k Hk.
    destruct (negb delta && no_rows f && negb (is_empty s)) eqn:Hc.
    + apply adopts_index in Hc as [_ Hn]. rewrite Hn in Hk. contradiction.
    + injection H as <-. destruct Hcol as [cs Hcs].
      unfold loc_cell. simpl. rewrite lookup_alter_eq, Hcs. simpl.
      apply cell_at_keyed; [exact Hk|]. now apply (proj2 Hwf column).
Qed.

(** C10.  [set_values] raises the 'Data incomplete' error exactly when the
    table or the column is missing, and then the dataset is as it was; when
    it returns, the table of the dataset has been replaced by the written
    one, which holds the given values, or with [delta] the former values
    plus the given ones. *)
Theorem set_values_contract (data : gmap string frame) (etype column : string)
    (values : new_values) (delta : bool) :
  (snd (set_values data etype column values delta) = Some DataIncomplete
   <-> incomplete data etype column) /\
  (snd (set_values data etype column values delta) = Some DataIncomplete ->
   fst (set_values data etype column values delta) = data) /\
  (snd (set_values data etype column values delta) = None ->
   exists f f',
     data !! etype = Some f /\
     fst (set_values data etype column values delta) = <[etype := f']> data /\
     (frame_wf f -> written column delta values f f')).
Proof.
  unfold set_values, incomplete.
  destruct (data !! etype) as [f|] eqn:Hf; simpl.
  2:{ split; [tauto|]. split; [reflexivity|discriminate]. }
  destruct (f_columns f !! column) as [cs|] eqn:Hcs; simpl.
  2:{ split; [tauto|]. split; [reflexivity|discriminate]. }
  pose proof (set_column_error column delta values f) as Herr.
  destruct (set_column column delta values f) as [f' err] eqn:Hset. simpl in *.
  split; [split; [contradiction|discriminate]|].
  split; [contradiction|].
  intros ->. exists f, f'. split; [reflexivity|]. split; [reflexivity|].
  intros Hwf. apply set_column_written; eauto.
Qed.

Lemma frame_wf_demo : frame_wf demo_frame.
Proof.
  split.
  - apply NoDup_ListNoDup. repeat constructor; simpl; intuition discriminate.
  - intros c cs. unfold demo_frame. simpl.
    rewrite lookup_insert. case_decide; [now intros [= <-]|].
    rewrite lookup_insert. case_decide; [now intros [= <-]|].
    rewrite lookup_empty. discriminate.
Qed.

Lemma set_values_contract_witness :
  exists f',
    fst (set_values demo_data "load" "p0" (ByIdentifier [("a", 5)]) true)
    = <["load" := f']> demo_data /\
    loc_cell f' "a" "p0" = Some (Num (1 + 5)).
Proof.
  destruct (proj2 (proj2 (set_values_contract demo_data "load" "p0"
                            (ByIdentifier [("a", 5)]) true)) eq_refl)
    as (f & f' & Hf & Hfst & Hw).
  exists f'. split; [exact Hfst|].
  assert (Hd : demo_data !! "load" = Some demo_frame) by reflexivity.
  assert (f = demo_frame) by congruence. subst f.
  assert (Hnd : NoDup (List.map fst [("a", 5)])).
  { apply NoDup_ListNoDup. repeat constructor; simpl; intuition discriminate. }
  exact (proj2 (Hw frame_wf_demo Hnd "a" 5 (or_introl eq_refl))).
Defined.

(** ** Opening lines at random *)

Lemma drop_length_le (i : ident) (l : list ident) :
  (List.length (drop i l) <= List.length l)%nat.
Proof. unfold drop. apply List.filter_length_le. Qed.

Lemma drop_length_lt (i : ident) (l : list ident) :
  In i l -> (List.length (drop i l) < List.length l)%nat.
Proof.
  unfold drop. induction l as [|x l IH]; simpl; intros H; [contradiction|].
  destruct (String.eqb x i) eqn:E; simpl.
  - pose proof (List.filter_length_le (fun j => negb (String.eqb j i)) l).
    unfold ident in *. lia.
  - destruct H as [->|H]; [now rewrite String.eqb_refl in E|].
    specialize (IH H). lia.
Qed.

Lemma drop_absent (i : ident) (l : list ident) : ~ In i l -> drop i l = l.
Proof.
  unfold drop. induction l as [|x l IH]; simpl; intros H; [reflexivity|].
  destruct (String.eqb x i) eqn:E; simpl.
  - apply eqb_eq_iff in E. exfalso. apply H. now left.
  - f_equal. apply IH. intros Hin. apply H. now right.
Qed.

Lemma drop_length_NoDup (i : ident) (l : list ident) :
  NoDup l -> In i l -> S (List.length (drop i l)) = List.length l.
Proof.
  induction l as [|x l IH]; simpl; intros Hnd H; [contradiction|].
  apply NoDup_cons in Hnd as [Hx Hnd].
  destruct (String.eqb x i) eqn:E; simpl.
  - apply eqb_eq_iff in E. subst x. f_equal.
    change (List.filter _ l) with (drop i l). rewrite drop_absent; [reflexivity|].
    intros Hin. apply Hx. now apply list_elem_of_In.
  - destruct H as [->|H]; [now rewrite String.eqb_refl in E|].
    f_equal. now apply IH.
Qed.

Lemma nth_mod_In (n : nat) (l : list ident) :
  l <> [] -> In (List.nth (n mod List.length l)%nat l EmptyString) l.
Proof.
  intros Hl. apply List.nth_In. apply Nat.mod_upper_bound.
  destruct l; [contradiction|discriminate].
Qed.

(** The loop ends: with more fuel than candidates it always has a result. *)
Lemma open_loop_total (fuel : nat) (rnd : nat -> nat) (keep_link : bool) :
  forall k aclines graph indices num ret,
    (List.length indices < fuel)%nat ->
    exists res, open_loop fuel rnd k keep_link aclines graph indices num ret = Some res.
Proof.
  induction fuel as [|fuel IH]; intros k aclines graph indices num ret Hlen; [lia|].
  simpl. destruct (0 <? num)%Z eqn:Hnum; simpl; [|eauto].
  destruct (Z.of_nat (List.length indices) <? num)%Z eqn:Hshort; [eauto|].
  assert (Hne : indices <> []).
  { intros ->. simpl in Hshort. apply Z.ltb_lt in Hnum. apply Z.ltb_ge in Hshort. lia. }
  pose proof (drop_length_lt _ _ (nth_mod_In (rnd k) indices Hne)) as Hdrop.
  destruct keep_link; [destruct (is_connected _ _ _ _)|]; apply IH; lia.
Qed.

Lemma random_open_acline_total (power : power_data) (num : Z) (keep_link : bool)
    (rnd : nat -> nat) :
  exists res, random_open_acline power num keep_link rnd = Some res.
Proof.
  unfold random_open_acline.
  destruct (open_loop_total (S (List.length (pool (acline power)))) rnd keep_link 0
              (acline power) (PowerGraph power) (pool (acline power)) num [])
    as [[aclines out] H]; [lia|].
  rewrite H. eauto.
Qed.

Lemma NoDup_map_filter {A B} (f : A -> B) (p : A -> bool) (l : list A) :
  NoDup (List.map f l) -> NoDup (List.map f (List.filter p l)).
Proof.
  induction l as [|x l IH]; simpl; intros Hnd; [constructor|].
  apply NoDup_cons in Hnd as [Hx Hnd].
  destruct (p x); simpl; auto.
  apply NoDup_cons. split; [|auto].
  intros Hin. apply Hx. apply list_elem_of_In. apply list_elem_of_In in Hin.
  apply List.in_map_iff in Hin as (y & Hy & Hin).
  apply List.filter_In in Hin as [Hin _].
  apply List.in_map_iff. eauto.
Qed.

Lemma open_loop_shortage (fuel : nat) (rnd : nat -> nat) (keep_link : bool)
    (k : nat) aclines graph indices (num : Z) ret :
  (Z.of_nat (List.length indices) < num)%Z ->
  open_loop (S fuel) rnd k keep_link aclines graph indices num ret
  = Some (aclines, inl NotPlenty).
Proof.
  intros H. simpl.
  assert (H0 : (0 <? num)%Z = true) by (apply Z.ltb_lt; lia).
  apply Z.ltb_lt in H. now rewrite H0, H.
Qed.

(** Without the connectivity test every draw is accepted, so a pool that
    holds [num] lines to begin with never runs short. *)
Lemma open_loop_no_link_returns (fuel : nat) (rnd : nat -> nat) :
  forall k aclines graph indices num ret res,
    NoDup indices -> (num <= Z.of_nat (List.length indices))%Z ->
    open_loop fuel rnd k false aclines graph indices num ret = Some res ->
    exists opened, snd res = inr opened.
Proof.
  induction fuel as [|fuel IH]; intros k aclines graph indices num ret res Hnd Hle H;
    simpl in H; destruct (0 <? num)%Z eqn:Hnum; simpl in H;
    try (injection H as <-; simpl; eauto); try discriminate.
  destruct (Z.of_nat (List.length indices) <? num)%Z eqn:Hshort.
  { apply Z.ltb_lt in Hshort. lia. }
  apply Z.ltb_lt in Hnum.
  assert (Hne : indices <> []) by (intros ->; simpl in Hle; lia).
  pose proof (drop_length_NoDup _ _ Hnd (nth_mod_In (rnd k) indices Hne)) as Hdrop.
  apply IH in H; [exact H| |lia].
  unfold drop. now apply NoDup_filter_labels.
Qed.

(** C6, as amended.  The call always returns or raises; when it raises it
    hands back no list, and the line table is as it was whenever
    [keep_link=false] or the pool was smaller than [num] to begin with. *)
Theorem random_open_acline_raise (power : power_data) (num : Z) (keep_link : bool)
    (rnd : nat -> nat) :
  NoDup (List.map bidx (acline power)) ->
  (keep_link = false \/ (Z.of_nat (List.length (pool (acline power))) < num)%Z) ->
  (exists res, random_open_acline power num keep_link rnd = Some res) /\
  (forall power' e,
     random_open_acline power num keep_link rnd = Some (power', inl e) ->
     e = NotPlenty /\ power' = power).
Proof.
  intros Hnd Hcase. split; [apply random_open_acline_total|].
  intros power' e. unfold random_open_acline.
  destruct (Z.of_nat (List.length (pool (acline power))) <? num)%Z eqn:Hshort.
  - apply Z.ltb_lt in Hshort. rewrite open_loop_shortage by exact Hshort.
    intros [= <- <-]. split; [reflexivity|]. now destruct power.
  - apply Z.ltb_ge in Hshort. destruct Hcase as [->|Hlt]; [|lia].
    destruct (open_loop _ _ _ _ _ _ _ _ _) as [[aclines out]|] eqn:H; [|discriminate].
    apply open_loop_no_link_returns in H as [opened Ho].
    + simpl in Ho. subst out. discriminate.
    + unfold pool. now apply NoDup_map_filter.
    + exact Hshort.
Qed.

Lemma random_open_acline_raise_witness :
  (exists res, random_open_acline one_line 2 false (fun _ => 0%nat) = Some res) /\
  (forall power' e,
     random_open_acline one_line 2 false (fun _ => 0%nat) = Some (power', inl e) ->
     e = NotPlenty /\ power' = one_line).
Proof.
  apply random_open_acline_raise.
  - apply NoDup_ListNoDup. repeat constructor; simpl; intuition discriminate.
  - left. reflexivity.
Defined.

(** C6, as stated, fails with [keep_link=true]: a draw that is set aside
    shrinks the pool without counting, so the pool can run short after lines
    have been opened.  Here line L1 is opened, the three lines of the
    triangle are set aside, and the call raises with L1 out of service. *)
Lemma raise_leaves_table_fails :
  random_open_acline spur_and_triangle 2 true (fun _ => 0%nat)
  = Some (mk_power [mk_branch "L1" 0 1%nat 2%nat; line "L2" 2%nat 3%nat;
                    line "L3" 3%nat 4%nat; line "L4" 4%nat 2%nat] [],
          inl NotPlenty) /\
  ~ raise_leaves_table spur_and_triangle 2 true (fun _ => 0%nat).
Proof.
  assert (H : random_open_acline spur_and_triangle 2 true (fun _ => 0%nat)
              = Some (mk_power [mk_branch "L1" 0 1%nat 2%nat; line "L2" 2%nat 3%nat;
                                line "L3" 3%nat 4%nat; line "L4" 4%nat 2%nat] [],
                      inl NotPlenty)) by (vm_compute; reflexivity).
  split; [exact H|].
  intros Hc. specialize (Hc _ _ H). discriminate.
Qed.

Lemma not_connected_no_edge (a b : bus) : a <> b -> ~ connected [] a b.
Proof.
  intros Hne H. inversion H as [|? ? ? ? [Hin|Hin] _]; subst; auto.
Qed.

(** One turn of the loop with [keep_link=true]: a line whose terminal buses
    stay joined without it is set aside, and a line whose removal separates
    its terminal buses is the one that is opened. *)
Lemma open_loop_turn (fuel : nat) (rnd : nat -> nat) (k : nat)
    (aclines : list branch) (graph : list edge) (indices : list ident)
    (num : Z) (ret : list ident) :
  (0 < num)%Z -> (num <= Z.of_nat (List.length indices))%Z ->
  let i := List.nth (rnd k mod List.length indices)%nat indices EmptyString in
  let b := loc_branch aclines i in
  open_loop (S fuel) rnd k true aclines graph indices num ret
  = if is_connected graph (ibus b) (jbus b) [edge_of b]
    then open_loop fuel rnd (S k) true aclines graph (drop i indices) num ret
    else open_loop fuel rnd (S k) true (open_branch i aclines)
           (remove_edge (edge_of b) graph) (drop i indices) (num - 1)%Z (ret ++ [i]).
Proof.
  intros Hpos Hle. simpl.
  apply Z.ltb_lt in Hpos. rewrite Hpos. simpl.
  assert (H : (Z.of_nat (List.length indices) <? num)%Z = false)
    by (apply Z.ltb_ge; lia).
  now rewrite H.
Qed.

(** For a network of one line between the buses 1 and 2, the call with
    [keep_link=true] and [num = 1] opens that line and returns it, whatever
    is drawn, and leaves the two buses without any path between them. *)
Lemma one_line_is_cut (rnd : nat -> nat) :
  random_open_acline one_line 1 true rnd
  = Some (mk_power [mk_branch "L1" 0 1%nat 2%nat] [], inr ["L1"]) /\
  PowerGraph (mk_power [mk_branch "L1" 0 1%nat 2%nat] []) = [] /\
  ~ connected (PowerGraph (mk_power [mk_branch "L1" 0 1%nat 2%nat] [])) 1%nat 2%nat /\
  ~ keeps_link one_line 1 rnd.
Proof.
  assert (H : random_open_acline one_line 1 true rnd
              = Some (mk_power [mk_branch "L1" 0 1%nat 2%nat] [], inr ["L1"])).
  { unfold random_open_acline. cbn [one_line acline pool List.filter List.map
      bmark ibus jbus line Z.eqb Nat.eqb negb andb bidx List.length transformer].
    rewrite open_loop_turn by (cbn; lia).
    cbn [List.length]. rewrite Nat.mod_1_r. reflexivity. }
  assert (Hcut : ~ connected (PowerGraph (mk_power [mk_branch "L1" 0 1%nat 2%nat] []))
                   1%nat 2%nat).
  { apply not_connected_no_edge. discriminate. }
  split; [exact H|]. split; [reflexivity|]. split; [exact Hcut|].
  intros Hk. apply Hcut. exact (Hk _ _ H "L1" (or_introl eq_refl)).
Qed.

(** ** Connectivity *)

Lemma has_bus_In (b : bus) (seen : list bus) : has_bus b seen = true <-> In b seen.
Proof.
  unfold has_bus. rewrite List.existsb_exists. split.
  - intros (x & Hx & He). apply Nat.eqb_eq in He. now subst.
  - intros H. exists b. split; [exact H|apply Nat.eqb_refl].
Qed.

Lemma has_bus_cons (b w : bus) (seen : list bus) :
  has_bus b seen = true -> has_bus b (w :: seen) = true.
Proof. rewrite !has_bus_In. simpl. auto. Qed.

Lemma connected_trans (g : list edge) (a b c : bus) :
  connected g a b -> connected g b c -> connected g a c.
Proof.
  induction 1 as [|a b b' k He _ IH]; intros H; [exact H|].
  eapply connected_step; [exact He|]. now apply IH.
Qed.

Lemma connected_edge (g : list edge) (a b : bus) (k : ident) :
  In (a, b, k) g \/ In (b, a, k) g -> connected g a b.
Proof. intros H. eapply connected_step; [exact H|apply connected_refl]. Qed.

Lemma connected_incl (g g' : list edge) (a b : bus) :
  (forall e, In e g -> In e g') -> connected g a b -> connected g' a b.
Proof.
  intros Hincl. induction 1 as [|a b c k He _ IH]; [apply connected_refl|].
  eapply connected_step; [|exact IH]. destruct He; [left|right]; eauto.
Qed.

Lemma pick_none (g : list edge) (seen : list bus) :
  pick g seen = None ->
  forall u v k, In (u, v, k) g -> has_bus u seen = has_bus v seen.
Proof.
  induction g as [|[[u0 v0] k0] g IH]; simpl; intros H u v k Hin; [contradiction|].
  destruct (has_bus u0 seen) eqn:Hu, (has_bus v0 seen) eqn:Hv; simpl in H;
    try discriminate;
    (destruct (pick g seen) as [[w rest]|] eqn:Hp; [discriminate|]);
    (destruct Hin as [[= <- <- <-]|Hin]; [congruence|now apply (IH eq_refl u v k)]).
Qed.

Lemma pick_some (g : list edge) (seen : list bus) (w : bus) (g' : list edge) :
  pick g seen = Some (w, g') ->
  List.length g = S (List.length g') /\
  (exists u k, has_bus u seen = true /\ (In (u, w, k) g \/ In (w, u, k) g)) /\
  (forall e, In e g' -> In e g) /\
  (forall u v k, In (u, v, k) g ->
     In (u, v, k) g' \/
     (has_bus u (w :: seen) = true /\ has_bus v (w :: seen) = true)).
Proof.
  revert g'. induction g as [|[[u0 v0] k0] g IH]; simpl; intros g' H; [discriminate|].
  destruct (has_bus u0 seen) eqn:Hu, (has_bus v0 seen) eqn:Hv; simpl in H.
  - destruct (pick g seen) as [[w' rest]|] eqn:Hp; [|discriminate].
    injection H as <- <-. destruct (IH rest eq_refl) as (Hl & (u & k & Hs & He) & Hi & Hc).
    split; [simpl; lia|]. split; [exists u, k; tauto|]. split.
    + intros e [<-|He']; [now left|right; auto].
    + intros u1 v1 k1 [[= <- <- <-]|Hin].
      * left. now left.
      * destruct (Hc u1 v1 k1 Hin) as [?|?]; [left; now right|now right].
  - injection H as <- <-. split; [reflexivity|].
    split; [exists u0, k0; split; [exact Hu|left; now left]|].
    split; [intros e He; now right|].
    intros u1 v1 k1 [[= <- <- <-]|Hin]; [right|now left].
    split; simpl; rewrite ?Nat.eqb_refl, ?Hu, ?orb_true_r; reflexivity.
  - injection H as <- <-. split; [reflexivity|].
    split; [exists v0, k0; split; [exact Hv|right; now left]|].
    split; [intros e He; now right|].
    intros u1 v1 k1 [[= <- <- <-]|Hin]; [right|now left].
    split; simpl; rewrite ?Nat.eqb_refl, ?Hv, ?orb_true_r; reflexivity.
  - destruct (pick g seen) as [[w' rest]|] eqn:Hp; [|discriminate].
    injection H as <- <-. destruct (IH rest eq_refl) as (Hl & (u & k & Hs & He) & Hi & Hc).
    split; [simpl; lia|]. split; [exists u, k; tauto|]. split.
    + intros e [<-|He']; [now left|right; auto].
    + intros u1 v1 k1 [[= <- <- <-]|Hin].
      * left. now left.
      * destruct (Hc u1 v1 k1 Hin) as [?|?]; [left; now right|now right].
Qed.

(** Every bus that [grow] reaches is joined to the start. *)
Lemma grow_sound (g0 : list edge) (a : bus) (fuel : nat) :
  forall g seen,
    (forall e, In e g -> In e g0) ->
    (forall x, In x seen -> connected g0 a x) ->
    forall x, In x (grow fuel g seen) -> connected g0 a x.
Proof.
  induction fuel as [|fuel IH]; intros g seen Hg Hseen x Hx; simpl in Hx; [auto|].
  destruct (pick g seen) as [[w g']|] eqn:Hp; [|auto].
  destruct (pick_some _ _ _ _ Hp) as (_ & (u & k & Hu & He) & Hi & _).
  apply (IH g' (w :: seen)); auto.
  intros y [<-|Hy]; [|auto].
  apply connected_trans with u; [apply Hseen; now apply has_bus_In|].
  apply (connected_edge g0 u w k). destruct He; [left|right]; auto.
Qed.

(** What [grow] ends with has no edge of the graph leading out of it. *)
Lemma grow_closed (g0 : list edge) (fuel : nat) :
  forall g seen,
    (List.length g <= fuel)%nat ->
    (forall u v k, In (u, v, k) g0 ->
       In (u, v, k) g \/ (has_bus u seen = true /\ has_bus v seen = true)) ->
    forall u v k, In (u, v, k) g0 ->
      has_bus u (grow fuel g seen) = has_bus v (grow fuel g seen).
Proof.
  induction fuel as [|fuel IH]; intros g seen Hlen Hinv u v k Hin; simpl.
  - destruct g; [|simpl in Hlen; lia].
    destruct (Hinv u v k Hin) as [[]|[-> ->]]. reflexivity.
  - destruct (pick g seen) as [[w g']|] eqn:Hp.
    + destruct (pick_some _ _ _ _ Hp) as (Hl & _ & _ & Hc).
      apply (IH g' (w :: seen)) with k; [unfold edge in *; lia| |exact Hin].
      intros u1 v1 k1 H1. destruct (Hinv u1 v1 k1 H1) as [Hg|[Hu Hv]].
      * exact (Hc u1 v1 k1 Hg).
      * right. split; now apply has_bus_cons.
    + destruct (Hinv u v k Hin) as [Hg|[-> ->]]; [|reflexivity].
      exact (pick_none _ _ Hp u v k Hg).
Qed.

Lemma grow_keeps (fuel : nat) :
  forall g seen x, In x seen -> In x (grow fuel g seen).
Proof.
  induction fuel as [|fuel IH]; intros g seen x Hx; simpl; [exact Hx|].
  destruct (pick g seen) as [[w g']|]; [|exact Hx].
  apply IH. now right.
Qed.

(** [is_connected] decides [connected] in the graph without the excluded
    edges. *)
Lemma is_connected_iff (g : list edge) (a b : bus) (excluded : list edge) :
  is_connected g a b excluded = true
  <-> connected (List.fold_right remove_edge g excluded) a b.
Proof.
  unfold is_connected. set (g1 := List.fold_right remove_edge g excluded).
  rewrite has_bus_In. split.
  - apply (grow_sound g1 a); [auto|].
    intros x [<-|[]]. apply connected_refl.
  - intros Hc.
    assert (Hclosed : forall u v k, In (u, v, k) g1 ->
              has_bus u (grow (List.length g1) g1 [a])
              = has_bus v (grow (List.length g1) g1 [a])).
    { apply grow_closed; [apply le_n|]. intros u v k H. now left. }
    assert (Ha : In a (grow (List.length g1) g1 [a]))
      by (apply grow_keeps; now left).
    set (S := grow (List.length g1) g1 [a]) in *. clearbody S.
    revert Ha. induction Hc as [|x y z k He _ IH]; intros Hx; [exact Hx|].
    apply IH. apply has_bus_In. apply has_bus_In in Hx.
    destruct He as [He|He]; [rewrite <- (Hclosed _ _ _ He)|rewrite (Hclosed _ _ _ He)];
      exact Hx.
Qed.

(** *** What [keep_link] does *)

Lemma bidx_loc_branch (aclines : list branch) (i : ident) :
  bidx (loc_branch aclines i) = i.
Proof.
  unfold loc_branch. destruct (List.find _ aclines) as [b|] eqn:H; [|reflexivity].
  apply List.find_some in H as [_ H]. now apply eqb_eq_iff in H.
Qed.

Lemma loc_branch_open_branch (i j : ident) (aclines : list branch) :
  ibus (loc_branch (open_branch i aclines) j) = ibus (loc_branch aclines j) /\
  jbus (loc_branch (open_branch i aclines) j) = jbus (loc_branch aclines j).
Proof.
  unfold loc_branch, open_branch.
  induction aclines as [|b aclines IH]; simpl; [split; reflexivity|].
  destruct (String.eqb (bidx b) i); simpl;
    destruct (String.eqb (bidx b) j); simpl; auto.
Qed.

Lemma in_pool (aclines : list branch) (i : ident) :
  In i (pool aclines) -> In i (List.map bidx aclines).
Proof.
  unfold pool. intros H. apply List.in_map_iff in H as (b & Hb & Hin).
  apply List.filter_In in Hin as [Hin _]. apply List.in_map_iff. eauto.
Qed.

Lemma in_drop (i j : ident) (indices : list ident) :
  In j (drop i indices) -> In j indices.
Proof. unfold drop. intros H. now apply List.filter_In in H. Qed.

Lemma in_remove_edge (e e' : edge) (g : list edge) :
  In e' (remove_edge e g) <-> In e' g /\ edge_eqb e' e = false.
Proof.
  unfold remove_edge. rewrite List.filter_In, negb_true_iff. reflexivity.
Qed.

Lemma edge_eqb_other_key (e e' : edge) :
  snd e <> snd e' -> edge_eqb e e' = false.
Proof.
  destruct e as [[u v] k], e' as [[u' v'] k']. simpl. intros H.
  now rewrite (eqb_neq k k' H).
Qed.

(** The edges of the branches in service once line [i] is opened are
    edges of the graph without the edge of line [i]. *)
Lemma PowerGraph_open_branch (aclines trs : list branch) (graph : list edge)
    (i : ident) :
  NoDup (List.map bidx (aclines ++ trs)) -> In i (List.map bidx aclines) ->
  (forall e, In e (PowerGraph (mk_power aclines trs)) -> In e graph) ->
  forall e, In e (PowerGraph (mk_power (open_branch i aclines) trs)) ->
    In e (remove_edge (edge_of (loc_branch aclines i)) graph).
Proof.
  intros Hnd Hi Hg e He. unfold PowerGraph in *. simpl in *.
  apply List.in_map_iff in He as (b & <- & Hb).
  apply List.filter_In in Hb as [Hb Hm].
  assert (Hkeep : In b (aclines ++ trs) /\ bidx b <> i).
  { apply List.in_app_or in Hb as [Hb|Hb].
    - unfold open_branch in Hb. apply List.in_map_iff in Hb as (b0 & Hb0 & Hin).
      destruct (String.eqb (bidx b0) i) eqn:E.
      + subst b. simpl in Hm. discriminate.
      + subst b0. split; [apply List.in_or_app; now left|].
        now apply String.eqb_neq.
    - split; [apply List.in_or_app; now right|].
      intros <-. rewrite List.map_app in Hnd. apply NoDup_app in Hnd as (_ & Hd & _).
      apply (Hd (bidx b)); apply list_elem_of_In; [exact Hi|now apply List.in_map]. }
  destruct Hkeep as [Hin Hne]. apply in_remove_edge. split.
  - apply Hg. apply List.in_map. apply List.filter_In. auto.
  - apply edge_eqb_other_key. simpl. now rewrite bidx_loc_branch.
Qed.

(** With [keep_link=true], every line the loop opens is one whose terminal
    buses have no other path, and they stay apart until the end. *)
Lemma open_loop_cuts (trs a0 : list branch) (rnd : nat -> nat) (fuel : nat) :
  forall k aclines graph indices num ret aclines' opened,
    NoDup (List.map bidx (aclines ++ trs)) ->
    (forall i, In i indices -> In i (List.map bidx aclines)) ->
    (forall e, In e (PowerGraph (mk_power aclines trs)) -> In e graph) ->
    (forall j, ibus (loc_branch aclines j) = ibus (loc_branch a0 j) /\
               jbus (loc_branch aclines j) = jbus (loc_branch a0 j)) ->
    (forall i, In i ret ->
       ~ connected graph (ibus (loc_branch a0 i)) (jbus (loc_branch a0 i))) ->
    open_loop fuel rnd k true aclines graph indices num ret
      = Some (aclines', inr opened) ->
    forall i, In i opened ->
      ~ connected (PowerGraph (mk_power aclines' trs))
          (ibus (loc_branch a0 i)) (jbus (loc_branch a0 i)).
Proof.
  induction fuel as [|fuel IH];
    intros k aclines graph indices num ret aclines' opened Hnd Hidx Hg Hloc Hret H;
    simpl in H; destruct (0 <? num)%Z eqn:Hnum; simpl in H; try discriminate;
    try (injection H as <- <-; intros i Hi Hc; apply (Hret i Hi);
         now apply (connected_incl _ _ _ _ Hg)).
  destruct (Z.of_nat (List.length indices) <? num)%Z eqn:Hshort; [discriminate|].
  assert (Hne : indices <> []).
  { intros ->. simpl in Hshort. apply Z.ltb_lt in Hnum. apply Z.ltb_ge in Hshort. lia. }
  pose proof (nth_mod_In (rnd k) indices Hne) as Hi.
  set (i := List.nth (rnd k mod List.length indices)%nat indices EmptyString) in *.
  destruct (is_connected graph _ _ _) eqn:Hconn.
  - eapply IH; [exact Hnd| |exact Hg|exact Hloc|exact Hret|exact H].
    intros j Hj. apply Hidx. now apply in_drop in Hj.
  - eapply IH; [| | | | |exact H].
    + now rewrite List.map_app, labels_open_branch, <- List.map_app.
    + intros j Hj. rewrite labels_open_branch. apply Hidx. now apply in_drop in Hj.
    + apply PowerGraph_open_branch; auto.
    + intros j. destruct (loc_branch_open_branch i j aclines) as [-> ->]. apply Hloc.
    + intros j Hj Hc. apply List.in_app_or in Hj as [Hj|[<-|[]]].
      * apply (Hret j Hj). apply (connected_incl _ graph) in Hc; [exact Hc|].
        intros e He. now apply in_remove_edge in He.
      * destruct (Hloc i) as [Hu Hv]. rewrite <- Hu, <- Hv in Hc.
        assert (Ht : is_connected graph (ibus (loc_branch aclines i))
                       (jbus (loc_branch aclines i))
                       [edge_of (loc_branch aclines i)] = true)
          by (apply is_connected_iff; exact Hc).
        congruence.
Qed.

(** C1.  With [keep_link=true] the test is the wrong way round: whenever
    the call returns, the terminal buses of every line of the returned list
    have no path between them in the graph of the branches still in service,
    since a line is opened only when no other path joins its terminal
    buses. *)
Theorem random_open_acline_cuts_link (power : power_data) (num : Z)
    (rnd : nat -> nat) (power' : power_data) (opened : list ident) (i : ident) :
  NoDup (List.map bidx (acline power ++ transformer power)) ->
  random_open_acline power num true rnd = Some (power', inr opened) ->
  In i opened ->
  ~ connected (PowerGraph power')
      (ibus (loc_branch (acline power) i)) (jbus (loc_branch (acline power) i)).
Proof.
  intros Hnd H Hi. unfold random_open_acline in H.
  destruct (open_loop _ _ _ _ _ _ _ _ _) as [[aclines' out]|] eqn:Hloop; [|discriminate].
  injection H as <- ->.
  simpl. revert i Hi.
  eapply (open_loop_cuts (transformer power) (acline power));
    [exact Hnd| | | | |exact Hloop].
  - apply in_pool.
  - intros e He. now destruct power.
  - intros j. split; reflexivity.
  - intros j [].
Qed.

Lemma random_open_acline_cuts_link_witness :
  random_open_acline one_line 1 true (fun _ => 0%nat)
  = Some (mk_power [mk_branch "L1" 0 1%nat 2%nat] [], inr ["L1"]) /\
  ~ connected (PowerGraph (mk_power [mk_branch "L1" 0 1%nat 2%nat] [])) 1%nat 2%nat.
Proof.
  assert (H : random_open_acline one_line 1 true (fun _ => 0%nat)
              = Some (mk_power [mk_branch "L1" 0 1%nat 2%nat] [], inr ["L1"]))
    by reflexivity.
  split; [exact H|].
  apply (random_open_acline_cuts_link one_line 1 (fun _ => 0%nat) _ ["L1"] "L1").
  - apply NoDup_ListNoDup. repeat constructor; simpl; intuition discriminate.
  - exact H.
  - left. reflexivity.
Defined.

(** *** Loads without samples *)

(** With [p_sigma=None] nothing is multiplied in place, and the share is
    added to the [p0] the load had. *)
Lemma share_loads_p_adds_to_base (loads : table) (delta : Q)
    (indices : option (list ident)) (noise_p : nat -> Q) :
  NoDup (index loads) -> adds_share_to_base loads delta indices None noise_p.
Proof.
  intros Hnd k r Hk. apply List.nth_error_In in Hk.
  unfold p0_of. rewrite share_loads_p_plain_row by assumption.
  eexists. split; [reflexivity|]. unfold plain_share, weight_of. simpl.
  rewrite values_column.
  assert (He : imap (fun (_ : nat) (r0 : equip) => p0 r0)
                 (participants loads indices)
               = List.map p0 (participants loads indices)).
  { generalize (participants loads indices). intros l.
    induction l as [|x l IH]; simpl; [reflexivity|]. f_equal. exact IH. }
  rewrite He. reflexivity.
Qed.

(** * Further properties *)

(** ** Row-wise rewriting *)

Lemma Forall2_map_self {A B} (R : A -> B -> Prop) (F : A -> B) (l : list A) :
  (forall x, In x l -> R x (F x)) -> Forall2 R l (List.map F l).
Proof.
  induction l as [|x l IH]; simpl; intros H; constructor.
  - apply H. now left.
  - apply IH. intros y Hy. apply H. now right.
Qed.

Lemma Forall2_trans_rows {A B C} (R1 : A -> B -> Prop) (R2 : B -> C -> Prop)
    (R : A -> C -> Prop) (l1 : list A) (l2 : list B) (l3 : list C) :
  (forall x y z, R1 x y -> R2 y z -> R x z) ->
  Forall2 R1 l1 l2 -> Forall2 R2 l2 l3 -> Forall2 R l1 l3.
Proof.
  intros HR H1. revert l3. induction H1 as [|x y l1 l2 Hxy _ IH]; intros l3 H2.
  - inversion H2. constructor.
  - inversion H2 as [|? z ? l3' Hyz H2']; subst. constructor; eauto.
Qed.

Lemma clip_bounds (x lo hi : Q) : lo <= hi -> lo <= clip x lo hi /\ clip x lo hi <= hi.
Proof.
  intros H. unfold clip. split.
  - apply Q.min_glb; [apply Q.le_max_r|exact H].
  - apply Q.le_min_r.
Qed.

Lemma clip_p0_rows (t : table) :
  Forall2 (fun r r' => only_p0_differs r r' /\
                       (p_limits_ordered r -> pmin r' <= p0 r' /\ p0 r' <= pmax r'))
          t (clip_p0 t).
Proof.
  unfold clip_p0. apply Forall2_map_self. intros r _. split.
  - unfold only_p0_differs. now destruct r.
  - intros H. simpl. now apply clip_bounds.
Qed.

Lemma clip_q0_rows (t : table) :
  Forall2 (fun r r' => only_q0_differs r r' /\
                       (q_limits_ordered r -> qmin r' <= q0 r' /\ q0 r' <= qmax r'))
          t (clip_q0 t).
Proof.
  unfold clip_q0. apply Forall2_map_self. intros r _. split.
  - unfold only_q0_differs. now destruct r.
  - intros H. simpl. now apply clip_bounds.
Qed.

Lemma loc_assign_p0_rows (s : series) (t : table) :
  Forall2 (fun r r' => only_p0_differs r r' /\
                       (series_get s (idx r) = None -> r' = r)) t (loc_assign set_p0 s t).
Proof.
  unfold loc_assign. apply Forall2_map_self. intros r _.
  destruct (series_get s (idx r)); split;
    solve [unfold only_p0_differs; now destruct r | discriminate | reflexivity].
Qed.

Lemma loc_assign_q0_rows (s : series) (t : table) :
  Forall2 (fun r r' => only_q0_differs r r' /\
                       (series_get s (idx r) = None -> r' = r)) t (loc_assign set_q0 s t).
Proof.
  unfold loc_assign. apply Forall2_map_self. intros r _.
  destruct (series_get s (idx r)); split;
    solve [unfold only_q0_differs; now destruct r | discriminate | reflexivity].
Qed.

Lemma series_get_none (s : series) (i : ident) :
  ~ In i (List.map fst s) -> series_get s i = None.
Proof.
  induction s as [|[k v] s IH]; simpl; intros H; [reflexivity|].
  destruct (String.eqb k i) eqn:E.
  - apply eqb_eq_iff in E. exfalso. apply H. now left.
  - apply IH. intros Hin. apply H. now right.
Qed.

Lemma only_p0_differs_trans (r r' r'' : equip) :
  only_p0_differs r r' -> only_p0_differs r' r'' -> only_p0_differs r r''.
Proof.
  unfold only_p0_differs. intros <- <-. now destruct r''.
Qed.

Lemma only_q0_differs_trans (r r' r'' : equip) :
  only_q0_differs r r' -> only_q0_differs r' r'' -> only_q0_differs r r''.
Proof.
  unfold only_q0_differs. intros <- <-. now destruct r''.
Qed.

Lemma keys_scaled_share (F : equip -> Q -> Q) (h : equip -> Q) (noise : nat -> Q)
    (sub : table) :
  forall k,
    List.map fst (List.map (fun '(r, (i, m)) => (i, F r m))
                    (List.combine sub (scale_from noise k (column h sub))))
    = index sub.
Proof.
  induction sub as [|x sub IH]; intros k; simpl; [reflexivity|].
  f_equal. apply IH.
Qed.

Lemma keys_plain_share (F : equip -> Q -> Q) (h : equip -> Q) (sub : table) :
  List.map fst (List.map (fun '(r, (i, m)) => (i, F r m))
                  (List.combine sub (column h sub)))
  = index sub.
Proof.
  induction sub as [|x sub IH]; simpl; [reflexivity|]. f_equal. apply IH.
Qed.

Lemma keys_column (h : equip -> Q) (sub : table) :
  List.map fst (column h sub) = index sub.
Proof. unfold column, index. rewrite List.map_map. reflexivity. Qed.

(** The rows of a table after [t.loc[sub.index, 'p0'] = s], when the labels
    of [s] are those of [sub]. *)
Lemma loc_assign_p0_frame (s : series) (sub t : table) :
  List.map fst s = index sub ->
  Forall2 (fun r r' => only_p0_differs r r' /\
                       (~ In (idx r) (index sub) -> r' = r))
          t (loc_assign set_p0 s t).
Proof.
  intros Hk. eapply Forall2_impl; [apply loc_assign_p0_rows|].
  intros r r' [H1 H2]. split; [exact H1|].
  intros Hn. apply H2. apply series_get_none. now rewrite Hk.
Qed.

(** ** Generators: what a call leaves alone *)

(** X1.  [distribute_generators_p] changes no column but [p0]; with [clip] off it
    leaves every generator that is not a participant (for [delta > 0] those
    with room below [pmax], otherwise those with room above [pmin]) as it
    was. *)
Theorem distribute_generators_p_frame (generators : table) (delta : Q)
    (indices : option (list ident)) (sigma : option Q) (clip_flag : bool)
    (noise : nat -> Q) :
  Forall2 (fun r r' =>
             only_p0_differs r r' /\
             (clip_flag = false ->
              ~ In (idx r) (index (if Qltb 0 delta
                                   then candidates_up generators indices
                                   else candidates_down generators indices)) ->
              r' = r))
          generators
          (fst (distribute_generators_p generators delta indices sigma clip_flag noise)).
Proof.
  assert (Hclip : forall sub s,
            List.map fst s = index sub ->
            Forall2 (fun r r' => only_p0_differs r r' /\
                       (clip_flag = false -> ~ In (idx r) (index sub) -> r' = r))
              generators
              (if clip_flag then clip_p0 (loc_assign set_p0 s generators)
               else loc_assign set_p0 s generators)).
  { intros sub s Hk. destruct clip_flag.
    - eapply Forall2_trans_rows;
        [|apply (loc_assign_p0_frame s sub generators Hk)|apply clip_p0_rows].
      intros x y z [Hxy _] [Hyz _]. split; [|discriminate].
      now apply only_p0_differs_trans with y.
    - eapply Forall2_impl; [apply (loc_assign_p0_frame s sub generators Hk)|].
      intros r r' [H1 H2]. auto. }
  assert (Hsat : forall sub s,
            List.map fst s = index sub ->
            Forall2 (fun r r' => only_p0_differs r r' /\
                       (clip_flag = false -> ~ In (idx r) (index sub) -> r' = r))
              generators (loc_assign set_p0 s generators)).
  { intros sub s Hk.
    eapply Forall2_impl; [apply (loc_assign_p0_frame s sub generators Hk)|].
    intros r r' [H1 H2]. auto. }
  unfold distribute_generators_p.
  destruct (Qltb 0 delta); destruct (Qle_bool _ _); simpl;
    try (apply Hsat; apply keys_column);
    destruct (truthy sigma); apply Hclip;
    solve [apply keys_plain_share | apply keys_scaled_share].
Qed.

Lemma distribute_generators_p_clipped (generators : table) (delta : Q)
    (indices : option (list ident)) (sigma : option Q) (noise : nat -> Q) :
  enough_headroom generators delta indices ->
  distribute_generators_p generators delta indices sigma true noise
  = (clip_p0 (fst (distribute_generators_p generators delta indices sigma false noise)),
     Scalar 0).
Proof.
  unfold enough_headroom, headroom_up, headroom_down, distribute_generators_p.
  intros [[Hpos Hlt]|[Hneg Hlt]].
  - apply Qltb_true in Hpos. apply Qle_bool_false in Hlt. now rewrite Hpos, Hlt.
  - apply Qltb_false in Hneg. apply Qle_bool_false in Hlt. now rewrite Hneg, Hlt.
Qed.

(** X2.  With [clip=True] and enough headroom, every generator whose limits are
    in order ends with [pmin <= p0 <= pmax], participant or not, whatever
    the samples. *)
Theorem distribute_generators_p_clip_limits (generators : table) (delta : Q)
    (indices : option (list ident)) (sigma : option Q) (noise : nat -> Q)
    (r' : equip) :
  enough_headroom generators delta indices ->
  In r' (fst (distribute_generators_p generators delta indices sigma true noise)) ->
  p_limits_ordered r' ->
  pmin r' <= p0 r' /\ p0 r' <= pmax r'.
Proof.
  intros Hroom Hin Hord. rewrite distribute_generators_p_clipped in Hin by exact Hroom.
  simpl in Hin. unfold clip_p0 in Hin. apply List.in_map_iff in Hin as (x & <- & _).
  simpl. now apply clip_bounds.
Qed.

Lemma distribute_generators_p_clip_limits_witness :
  let r' := List.hd (gen "" 0 0 0)
              (fst (distribute_generators_p two_generators 20 None (Some (1 # 2))
                      true (fun _ => 3))) in
  pmin r' <= p0 r' /\ p0 r' <= pmax r'.
Proof.
  intros r'.
  apply (distribute_generators_p_clip_limits two_generators 20 None (Some (1 # 2))
           (fun _ => 3) r').
  - left. split; [reflexivity|]. vm_compute. reflexivity.
  - vm_compute. left. reflexivity.
  - vm_compute. discriminate.
Defined.

(** ** Generators: the share in both directions *)

Lemma share_within0 (h total d : Q) :
  0 <= h -> 0 <= d -> d < total ->
  0 <= h / total * d /\ h / total * d <= h.
Proof.
  intros Hh Hd Ht.
  assert (Hq : h / total * d == h * (d / total)) by (field; lra).
  assert (H0 : 0 <= d / total) by (apply Qle_shift_div_l; lra).
  assert (H1 : d / total <= 1) by (apply Qle_shift_div_r; lra).
  rewrite Hq. split.
  - apply Qmult_le_0_compat; assumption.
  - rewrite <- (Qmult_1_r h) at 2.
    destruct (Qlt_le_dec 0 h) as [Hpos|Hz].
    + apply Qmult_le_l; assumption.
    + assert (Hh0 : h == 0) by lra. rewrite Hh0. lra.
Qed.

Lemma share_strict (h total d : Q) :
  0 < h -> 0 < d -> d < total ->
  0 < h / total * d /\ h / total * d < h.
Proof.
  intros Hh Hd Ht.
  assert (Hq : h / total * d == h * (d / total)) by (field; lra).
  assert (H0 : 0 < d / total) by (apply Qlt_shift_div_l; lra).
  assert (H1 : d / total < 1) by (apply Qlt_shift_div_r; lra).
  rewrite Hq. split.
  - apply Qmult_lt_0_compat; assumption.
  - rewrite <- (Qmult_1_r h) at 2. apply Qmult_lt_l; assumption.
Qed.

Lemma share_row_down (generators : table) (delta : Q) indices (noise : nat -> Q)
    (r : equip) :
  NoDup (index generators) -> delta <= 0 ->
  - delta < headroom_down generators indices ->
  In r (candidates_down generators indices) ->
  row_of (fst (distribute_generators_p generators delta indices None false noise)) (idx r)
  = Some (set_p0 (p0 r + (p0 r - pmin r) / headroom_down generators indices * delta) r).
Proof.
  intros Hnd Hneg Hlt Hr. unfold distribute_generators_p, headroom_down in *.
  apply Qltb_false in Hneg. rewrite Hneg.
  apply Qle_bool_false in Hlt. rewrite Hlt. simpl.
  unfold column at 2. rewrite combine_column, List.map_map. simpl.
  apply (p0_of_loc_assign
           (fun x => p0 x + (p0 x - pmin x) /
              np_sum (values (column (fun r0 => p0 r0 - pmin r0)
                                     (candidates_down generators indices))) * delta)); auto.
  intros x Hx. now apply in_candidates_down in Hx.
Qed.

Lemma share_p0_down (generators : table) (delta : Q) indices (clip_flag : bool)
    (noise : nat -> Q) (r : equip) :
  NoDup (index generators) -> delta <= 0 ->
  - delta < headroom_down generators indices ->
  (clip_flag = false \/
   forall x, In x (candidates_down generators indices) -> p0 x <= pmax x) ->
  In r (candidates_down generators indices) ->
  exists v,
    p0_of (fst (distribute_generators_p generators delta indices None clip_flag noise))
          (idx r) = Some v /\
    v == p0 r + (p0 r - pmin r) / headroom_down generators indices * delta.
Proof.
  intros Hnd Hneg Hlt Hclip Hr.
  pose proof (share_row_down generators delta indices noise r Hnd Hneg Hlt Hr) as Hrow.
  destruct clip_flag.
  - destruct Hclip as [Hc|Hmax]; [discriminate|].
    rewrite distribute_generators_p_clipped by (right; split; assumption). simpl.
    unfold p0_of, clip_p0. rewrite row_of_map by reflexivity.
    rewrite Hrow. simpl. eexists. split; [reflexivity|].
    destruct (in_candidates_down _ _ _ Hr) as (_ & _ & Hroom).
    destruct (share_within0 (p0 r - pmin r) (headroom_down generators indices) (- delta))
      as [Hlo Hhi]; try lra.
    specialize (Hmax r Hr).
    assert (He : (p0 r - pmin r) / headroom_down generators indices * delta
                 == - ((p0 r - pmin r) / headroom_down generators indices * - delta))
      by (unfold Qdiv; ring).
    rewrite clip_inside; [reflexivity| |]; rewrite He; lra.
  - unfold p0_of. rewrite Hrow. simpl. eexists. split; reflexivity.
Qed.

(** X3.  With [delta <= 0], [sigma=None] and a total downward headroom above
    [-delta], and when [clip] is off or no participant runs above its
    [pmax], the call returns [0.], every participant's [p0] changes by
    [(p0 - pmin) / headroom * delta], and the changes add up to [delta]. *)
Theorem distribute_generators_p_shares_down
    (generators : table) (delta : Q) (indices : option (list ident))
    (clip_flag : bool) (noise : nat -> Q) :
  NoDup (index generators) -> indices_ok indices ->
  delta <= 0 -> - delta < headroom_down generators indices ->
  (clip_flag = false \/
   forall r, In r (candidates_down generators indices) -> p0 r <= pmax r) ->
  snd (distribute_generators_p generators delta indices None clip_flag noise) = Scalar 0 /\
  (forall r, In r (candidates_down generators indices) ->
     exists v,
       p0_of (fst (distribute_generators_p generators delta indices None clip_flag noise))
             (idx r) = Some v /\
       v - p0 r == (p0 r - pmin r) / headroom_down generators indices * delta) /\
  np_sum (List.map
            (increase (fst (distribute_generators_p generators delta indices None
                              clip_flag noise)))
            (candidates_down generators indices)) == delta.
Proof.
  intros Hnd _ Hneg Hlt Hclip. split; [|split].
  - destruct clip_flag.
    + now rewrite distribute_generators_p_clipped by (right; split; assumption).
    + unfold distribute_generators_p, headroom_down in *.
      apply Qltb_false in Hneg. apply Qle_bool_false in Hlt.
      now rewrite Hneg, Hlt.
  - intros r Hr.
    destruct (share_p0_down generators delta indices clip_flag noise r)
      as (v & Hv & He); auto.
    exists v. split; [exact Hv|]. rewrite He. ring.
  - rewrite (np_sum_ext _
               (fun r => (p0 r - pmin r) / headroom_down generators indices * delta)).
    + rewrite np_sum_scaled. unfold headroom_down in *.
      rewrite values_column in *. field. lra.
    + intros r Hr. unfold increase.
      destruct (share_p0_down generators delta indices clip_flag noise r)
        as (v & Hv & He); auto.
      rewrite Hv, He. ring.
Qed.

Lemma distribute_generators_p_shares_down_witness :
  snd (distribute_generators_p two_low_generators (-(15)) None None true (fun _ => 1))
    = Scalar 0 /\
  np_sum (List.map
            (increase (fst (distribute_generators_p two_low_generators (-(15)) None None
                              true (fun _ => 1))))
            (candidates_down two_low_generators None)) == -(15).
Proof.
  assert (Hnd : NoDup (index two_low_generators)).
  { apply NoDup_ListNoDup. repeat constructor; simpl; intuition discriminate. }
  assert (Hneg : -(15) <= 0) by discriminate.
  assert (Hlt : - -(15) < headroom_down two_low_generators None)
    by (vm_compute; reflexivity).
  assert (Hmax : forall r, In r (candidates_down two_low_generators None) ->
                           p0 r <= pmax r)
    by (intros r [<-|[<-|[]]]; vm_compute; discriminate).
  destruct (distribute_generators_p_shares_down two_low_generators (-(15)) None true
              (fun _ => 1) Hnd I Hneg Hlt (or_intror Hmax)) as (H1 & _ & H3).
  split; [exact H1|exact H3].
Defined.

(** X4.  With [sigma=None], [clip] off and enough headroom, a participant moves
    toward its limit and stops short of it: for [delta > 0] its new [p0] lies
    strictly between its old [p0] and [pmax], for [delta < 0] strictly
    between [pmin] and its old [p0]. *)
Theorem distribute_generators_p_stops_short
    (generators : table) (delta : Q) (indices : option (list ident))
    (noise : nat -> Q) (r : equip) :
  NoDup (index generators) -> indices_ok indices ->
  (0 < delta /\ delta < headroom_up generators indices /\
   In r (candidates_up generators indices) \/
   delta < 0 /\ - delta < headroom_down generators indices /\
   In r (candidates_down generators indices)) ->
  exists v,
    p0_of (fst (distribute_generators_p generators delta indices None false noise))
          (idx r) = Some v /\
    (0 < delta -> p0 r < v /\ v < pmax r) /\
    (delta < 0 -> pmin r < v /\ v < p0 r).
Proof.
  intros Hnd _ [(Hpos & Hlt & Hr)|(Hneg & Hlt & Hr)]; unfold p0_of.
  - rewrite (share_row generators delta indices noise r Hnd Hpos Hlt Hr). simpl.
    eexists. split; [reflexivity|].
    destruct (in_candidates_up _ _ _ Hr) as (_ & _ & Hroom).
    assert (Hs : 0 < (pmax r - p0 r) / headroom_up generators indices * delta /\
                 (pmax r - p0 r) / headroom_up generators indices * delta
                 < pmax r - p0 r) by (apply share_strict; lra).
    destruct Hs as [Hlo Hhi]. split; [intros _; lra|intros H; lra].
  - rewrite (share_row_down generators delta indices noise r Hnd) by (assumption || lra).
    simpl. eexists. split; [reflexivity|].
    destruct (in_candidates_down _ _ _ Hr) as (_ & _ & Hroom).
    assert (Hs : 0 < (p0 r - pmin r) / headroom_down generators indices * - delta /\
                 (p0 r - pmin r) / headroom_down generators indices * - delta
                 < p0 r - pmin r) by (apply share_strict; lra).
    destruct Hs as [Hlo Hhi].
    assert (He : (p0 r - pmin r) / headroom_down generators indices * delta
                 == - ((p0 r - pmin r) / headroom_down generators indices * - delta))
      by (unfold Qdiv; ring).
    split; [intros H; lra|intros _; rewrite He; lra].
Qed.

Lemma distribute_generators_p_stops_short_witness :
  exists v,
    p0_of (fst (distribute_generators_p two_generators 20 None None false (fun _ => 1)))
          "g1" = Some v /\
    (0 < 20 -> 80 < v /\ v < 100) /\ (20 < 0 -> 0 < v /\ v < 80).
Proof.
  apply (distribute_generators_p_stops_short two_generators 20 None (fun _ => 1)
           (gen "g1" 80 0 100)).
  - apply NoDup_ListNoDup. repeat constructor; simpl; intuition discriminate.
  - exact I.
  - left. split; [reflexivity|]. split; [vm_compute; reflexivity|].
    left. reflexivity.
Defined.

(** ** Generators: the share with samples *)

Lemma combine_scaled (F : equip -> Q -> Q) (h : equip -> Q) (noise : nat -> Q)
    (sub : table) :
  forall k0,
    List.map (fun '(r, (i, m)) => (i, F r m))
             (List.combine sub (scale_from noise k0 (column h sub)))
    = imap (fun k r => (idx r, F r (h r * noise (k0 + k)%nat))) sub.
Proof.
  induction sub as [|x sub IH]; intros k0; simpl; [reflexivity|].
  rewrite Nat.add_0_r. f_equal. rewrite (IH (S k0)).
  apply imap_ext. intros k y _. simpl. now rewrite Nat.add_succ_r.
Qed.

Lemma values_scale_from (h : equip -> Q) (noise : nat -> Q) (sub : table) :
  forall k0,
    List.map snd (scale_from noise k0 (List.map (fun r => (idx r, h r)) sub))
    = imap (fun k r => h r * noise (k0 + k)%nat) sub.
Proof.
  induction sub as [|x sub IH]; intros k0; simpl; [reflexivity|].
  rewrite Nat.add_0_r. f_equal. rewrite (IH (S k0)).
  apply imap_ext. intros k y _. simpl. now rewrite Nat.add_succ_r.
Qed.

Lemma series_get_imap (sub : table) :
  forall (G : nat -> equip -> Q) k r,
    NoDup (index sub) -> List.nth_error sub k = Some r ->
    series_get (imap (fun k r => (idx r, G k r)) sub) (idx r) = Some (G k r).
Proof.
  induction sub as [|x sub IH]; intros G k r Hnd Hk; [now destruct k|].
  simpl in Hnd. apply NoDup_cons in Hnd as [Hx Hnd].
  destruct k as [|k]; simpl in *.
  - injection Hk as ->. now rewrite String.eqb_refl.
  - destruct (String.eqb (idx x) (idx r)) eqn:E.
    + apply eqb_eq_iff in E. exfalso. apply Hx. rewrite E.
      apply list_elem_of_In. apply List.in_map. now apply List.nth_error_In in Hk.
    + apply (IH (fun k r => G (S k) r) k r Hnd Hk).
Qed.

Lemma np_sum_imap_ext {A} (f : A -> Q) (l : list A) :
  forall (g : nat -> A -> Q),
    (forall k x, List.nth_error l k = Some x -> f x == g k x) ->
    np_sum (List.map f l) == np_sum (imap g l).
Proof.
  induction l as [|x l IH]; intros g H; simpl; [reflexivity|].
  rewrite (H 0%nat x eq_refl). rewrite (IH (fun k => g (S k))); [reflexivity|].
  intros k y Hk. apply (H (S k) y Hk).
Qed.

Lemma np_sum_imap_scaled {A} (c d : Q) (l : list A) :
  forall (w : nat -> A -> Q),
    np_sum (imap (fun k x => w k x / c * d) l) == np_sum (imap w l) / c * d.
Proof.
  induction l as [|x l IH]; intros w; simpl.
  - unfold Qdiv. ring.
  - pose proof (IH (fun k => w (S k))) as IH'. unfold compose. cbv beta.
    rewrite IH'. unfold Qdiv. ring.
Qed.

Lemma NoDup_index_candidates_up (generators : table) indices :
  NoDup (index generators) -> indices_ok indices ->
  NoDup (index (candidates_up generators indices)).
Proof.
  intros Hnd Hok. unfold candidates_up, in_service.
  apply NoDup_index_filter. apply NoDup_index_restrict; [exact Hok|].
  now apply NoDup_index_filter.
Qed.

(** X5.  With [sigma] given, [clip] off and [0 < delta < headroom] (the headroom
    before any sample is drawn), the k-th participant gains its sampled
    headroom [(pmax - p0) * sample_k] over the sum of the sampled headrooms
    times [delta]; when that sum is not zero the gains add up to [delta], and
    the call returns [0.]. *)
Theorem distribute_generators_p_sampled_total
    (generators : table) (delta : Q) (indices : option (list ident))
    (sigma : option Q) (noise : nat -> Q) :
  NoDup (index generators) -> indices_ok indices -> truthy sigma = true ->
  0 < delta -> delta < headroom_up generators indices ->
  ~ np_sum (imap (fun k r => (pmax r - p0 r) * noise k)
                 (candidates_up generators indices)) == 0 ->
  snd (distribute_generators_p generators delta indices sigma false noise) = Scalar 0 /\
  (forall k r, List.nth_error (candidates_up generators indices) k = Some r ->
     p0_of (fst (distribute_generators_p generators delta indices sigma false noise))
           (idx r)
     = Some (p0 r + (pmax r - p0 r) * noise k
                    / np_sum (imap (fun k r => (pmax r - p0 r) * noise k)
                                   (candidates_up generators indices))
                    * delta)) /\
  np_sum (List.map
            (increase (fst (distribute_generators_p generators delta indices sigma
                              false noise)))
            (candidates_up generators indices)) == delta.
Proof.
  intros Hnd Hok Hs Hpos Hlt Hsum.
  set (sub := candidates_up generators indices) in *.
  set (S := np_sum (imap (fun k r => (pmax r - p0 r) * noise k) sub)) in *.
  assert (Hout : distribute_generators_p generators delta indices sigma false noise
                 = (loc_assign set_p0
                      (imap (fun k r => (idx r,
                               p0 r + (pmax r - p0 r) * noise k / S * delta)) sub)
                      generators, Scalar 0)).
  { unfold distribute_generators_p, headroom_up in *. fold sub in Hlt |- *.
    apply Qltb_true in Hpos. apply Qle_bool_false in Hlt. rewrite Hpos, Hlt, Hs.
    unfold scale. rewrite combine_scaled. unfold values, column.
    rewrite values_scale_from. reflexivity. }
  assert (Hrow : forall k r, List.nth_error sub k = Some r ->
            p0_of (fst (distribute_generators_p generators delta indices sigma false
                          noise)) (idx r)
            = Some (p0 r + (pmax r - p0 r) * noise k / S * delta)).
  { intros k r Hk. rewrite Hout. simpl. unfold p0_of.
    rewrite row_of_loc_assign by reflexivity.
    assert (Hin : In r generators).
    { apply List.nth_error_In in Hk. now apply in_candidates_up in Hk. }
    rewrite (row_of_in generators r Hnd Hin). simpl.
    rewrite (series_get_imap sub
               (fun k r => p0 r + (pmax r - p0 r) * noise k / S * delta) k r);
      [reflexivity| |exact Hk].
    now apply NoDup_index_candidates_up. }
  split; [now rewrite Hout|]. split; [exact Hrow|].
  rewrite (np_sum_imap_ext _ sub
             (fun k r => (pmax r - p0 r) * noise k / S * delta)).
  - rewrite np_sum_imap_scaled. fold S. field. exact Hsum.
  - intros k r Hk. unfold increase. rewrite (Hrow k r Hk). ring.
Qed.

Lemma distribute_generators_p_sampled_total_witness :
  np_sum (List.map
            (increase (fst (distribute_generators_p two_generators 20 None
                              (Some (1 # 2)) false (fun k => 1 + inject_Z (Z.of_nat k)))))
            (candidates_up two_generators None)) == 20.
Proof.
  apply (distribute_generators_p_sampled_total two_generators 20 None (Some (1 # 2))
           (fun k => 1 + inject_Z (Z.of_nat k))).
  - apply NoDup_ListNoDup. repeat constructor; simpl; intuition discriminate.
  - exact I.
  - reflexivity.
  - reflexivity.
  - vm_compute. reflexivity.
  - vm_compute. discriminate.
Defined.

(** ** Loads: what a call leaves alone *)

Lemma only_power_of_p0 (r r' : equip) : only_p0_differs r r' -> only_power_differs r r'.
Proof. unfold only_p0_differs, only_power_differs. intros <-. now destruct r'. Qed.

Lemma only_power_of_q0 (r r' : equip) : only_q0_differs r r' -> only_power_differs r r'.
Proof. unfold only_q0_differs, only_power_differs. intros <-. now destruct r'. Qed.

Lemma only_power_differs_trans (r r' r'' : equip) :
  only_power_differs r r' -> only_power_differs r' r'' -> only_power_differs r r''.
Proof. unfold only_power_differs. intros <- <-. now destruct r''. Qed.

Lemma keys_combine_subset {A} (F : A -> Q -> Q) (l : list A) (s : series) (i : ident) :
  In i (List.map fst (List.map (fun '(r, (i, f)) => (i, F r f)) (List.combine l s))) ->
  In i (List.map fst s).
Proof.
  revert s. induction l as [|x l IH]; intros [|[k v] s]; simpl; try tauto.
  intros [<-|H]; [now left|right; now apply IH].
Qed.

Lemma keys_scale_from (noise : nat -> Q) (s : series) :
  forall k, List.map fst (scale_from noise k s) = List.map fst s.
Proof.
  induction s as [|[i v] s IH]; intros k; simpl; [reflexivity|]. f_equal. apply IH.
Qed.

Lemma share_loads_p_rows (loads : table) (delta : Q) (indices : option (list ident))
    (p_sigma : option Q) (noise_p : nat -> Q) :
  Forall2 (fun r r' => only_p0_differs r r' /\
                       (~ In (idx r) (index (participants loads indices)) -> r' = r))
          loads (share_loads_p loads delta indices p_sigma noise_p).
Proof.
  unfold share_loads_p. eapply Forall2_impl; [apply loc_assign_p0_rows|].
  intros r r' [H1 H2]. split; [exact H1|]. intros Hn. apply H2.
  apply series_get_none. intros Hin. apply Hn.
  apply keys_combine_subset in Hin. rewrite keys_column in Hin.
  destruct (truthy p_sigma); [|exact Hin].
  unfold scale_p0 in Hin. now rewrite index_scale_p0_from in Hin.
Qed.

(** X6.  [distribute_loads_p] changes no column but [p0] and [q0], and with
    [keep_factor=False] no column but [p0], clipping or not; with [clip] off
    it leaves every load that is not a participant (out of service, with
    [p0 <= 0], or outside [indices]) as it was. *)
Theorem distribute_loads_p_frame (loads : table) (delta : Q)
    (indices : option (list ident)) (p_sigma : option Q) (keep_factor : bool)
    (factor_sigma : option Q) (clip_flag : bool) (noise_factor noise_p : nat -> Q) :
  Forall2 (fun r r' =>
             only_power_differs r r' /\
             (keep_factor = false -> only_p0_differs r r') /\
             (clip_flag = false ->
              ~ In (idx r) (index (participants loads indices)) -> r' = r))
          loads
          (distribute_loads_p loads delta indices p_sigma keep_factor factor_sigma
             clip_flag noise_factor noise_p).
Proof.
  unfold distribute_loads_p.
  set (sub := participants loads indices).
  set (T1 := share_loads_p loads delta indices p_sigma noise_p).
  set (factor := if truthy factor_sigma then _ else _).
  assert (H1 : Forall2 (fun r r' => only_p0_differs r r' /\
                          (~ In (idx r) (index sub) -> r' = r)) loads T1)
    by apply share_loads_p_rows.
  assert (Hq : forall T s,
            (forall i, In i (List.map fst s) -> In i (index sub)) ->
            Forall2 (fun r r' => only_p0_differs r r' /\
                       (~ In (idx r) (index sub) -> r' = r)) loads T ->
            Forall2 (fun r r' => only_power_differs r r' /\
                       (~ In (idx r) (index sub) -> r' = r))
                    loads (loc_assign set_q0 s T)).
  { intros T s Hs HT. eapply Forall2_trans_rows; [|exact HT|apply loc_assign_q0_rows].
    intros x y z [Hxy Hx] [Hyz Hy]. split.
    - eapply only_power_differs_trans;
        [apply only_power_of_p0; exact Hxy|apply only_power_of_q0; exact Hyz].
    - intros Hn. rewrite <- (Hx Hn). apply Hy. apply series_get_none.
      intros Hin. apply Hn. apply Hs. unfold only_p0_differs in Hxy.
      now rewrite <- Hxy. }
  assert (Hkeys : forall T i,
            In i (List.map fst (List.map (fun '(r, (i, f)) => (i, p0 r * f))
                                  (List.combine (loc_rows (index sub) T) factor))) ->
            In i (index sub)).
  { intros T i Hin. apply keys_combine_subset in Hin. unfold factor in Hin.
    destruct (truthy factor_sigma).
    - unfold scale in Hin. rewrite keys_scale_from in Hin.
      now rewrite List.map_map in Hin.
    - now rewrite List.map_map in Hin. }
  assert (Hq0 : forall T s,
            Forall2 only_p0_differs loads T ->
            Forall2 only_power_differs loads (loc_assign set_q0 s T)).
  { intros T s HT. eapply Forall2_trans_rows; [|exact HT|apply loc_assign_q0_rows].
    intros x y z Hxy [Hyz _].
    eapply only_power_differs_trans;
      [apply only_power_of_p0; exact Hxy|apply only_power_of_q0; exact Hyz]. }
  destruct keep_factor, clip_flag.
  - eapply Forall2_trans_rows; [| |apply clip_q0_rows].
    2:{ apply Hq0.
        eapply Forall2_trans_rows; [|exact H1|apply clip_p0_rows].
        intros x y z [Hxy _] [Hyz _]. eapply only_p0_differs_trans; eauto. }
    intros x y z Hxy [Hyz _]. split; [|split; discriminate].
    eapply only_power_differs_trans; [exact Hxy|now apply only_power_of_q0].
  - eapply Forall2_impl; [apply Hq; [apply Hkeys|exact H1]|].
    intros r r' [Ha Hb]. split; [exact Ha|]. split; [discriminate|auto].
  - eapply Forall2_trans_rows; [|exact H1|apply clip_p0_rows].
    intros x y z [Hxy _] [Hyz _].
    assert (H : only_p0_differs x z) by (eapply only_p0_differs_trans; eauto).
    split; [now apply only_power_of_p0|]. split; [auto|discriminate].
  - eapply Forall2_impl; [exact H1|].
    intros r r' [Ha Hb]. split; [now apply only_power_of_p0|]. auto.
Qed.

(** ** Loads: the whole of [delta] is taken up *)

Lemma np_sum_pos {A} (h : A -> Q) (l : list A) :
  l <> [] -> (forall x, In x l -> 0 < h x) -> 0 < np_sum (List.map h l).
Proof.
  destruct l as [|x l]; [contradiction|]. intros _ H. simpl.
  assert (0 < h x) by (apply H; now left).
  assert (0 <= np_sum (List.map h l)).
  { apply np_sum_nonneg. intros y Hy. apply Qlt_le_weak. apply H. now right. }
  lra.
Qed.

Lemma p0_of_distribute_loads_p_unclipped (loads : table) (delta : Q)
    (indices : option (list ident)) (p_sigma : option Q) (keep_factor : bool)
    (factor_sigma : option Q) (noise_factor noise_p : nat -> Q) (i : ident) :
  p0_of (distribute_loads_p loads delta indices p_sigma keep_factor factor_sigma false
           noise_factor noise_p) i
  = p0_of (share_loads_p loads delta indices p_sigma noise_p) i.
Proof.
  unfold distribute_loads_p, p0_of. destruct keep_factor; [|reflexivity].
  rewrite row_of_loc_assign by reflexivity.
  destruct (row_of (share_loads_p loads delta indices p_sigma noise_p) i); simpl;
    [|reflexivity].
  now destruct (series_get _ i).
Qed.

(** X7.  With [p_sigma=None] and [clip] off, every participant's [p0] grows by
    its share [p0 / total * delta] of the participants' total [p0], and the
    increases add up to [delta]: no headroom is looked at. *)
Theorem distribute_loads_p_total (loads : table) (delta : Q)
    (indices : option (list ident)) (keep_factor : bool) (factor_sigma : option Q)
    (noise_factor noise_p : nat -> Q) :
  NoDup (index loads) -> indices_ok indices -> participants loads indices <> [] ->
  (forall r, In r (participants loads indices) ->
     p0_of (distribute_loads_p loads delta indices None keep_factor factor_sigma false
              noise_factor noise_p) (idx r)
     = Some (p0 r + p0 r / np_sum (List.map p0 (participants loads indices)) * delta)) /\
  np_sum (List.map
            (increase (distribute_loads_p loads delta indices None keep_factor
                         factor_sigma false noise_factor noise_p))
            (participants loads indices)) == delta.
Proof.
  intros Hnd _ Hne.
  assert (Hrow : forall r, In r (participants loads indices) ->
            p0_of (distribute_loads_p loads delta indices None keep_factor factor_sigma
                     false noise_factor noise_p) (idx r)
            = Some (p0 r + p0 r / np_sum (List.map p0 (participants loads indices))
                           * delta)).
  { intros r Hr. rewrite p0_of_distribute_loads_p_unclipped. unfold p0_of.
    rewrite share_loads_p_plain_row by assumption. unfold plain_share. simpl.
    now rewrite values_column. }
  split; [exact Hrow|].
  rewrite (np_sum_ext _
             (fun r => p0 r / np_sum (List.map p0 (participants loads indices)) * delta)).
  - rewrite np_sum_scaled. field.
    assert (0 < np_sum (List.map p0 (participants loads indices))); [|lra].
    apply np_sum_pos; [exact Hne|]. intros x Hx. now apply in_participants in Hx.
  - intros r Hr. unfold increase. rewrite (Hrow r Hr). ring.
Qed.

Lemma distribute_loads_p_total_witness :
  np_sum (List.map
            (increase (distribute_loads_p one_load 6 None None true None false
                         (fun _ => 1) (fun _ => 1)))
            (participants one_load None)) == 6.
Proof.
  apply (distribute_loads_p_total one_load 6 None true None (fun _ => 1) (fun _ => 1)).
  - apply NoDup_ListNoDup. repeat constructor; simpl; intuition discriminate.
  - exact I.
  - discriminate.
Defined.

(** X8.  With [clip=True] every load whose limits on [p0] are in order ends with
    [pmin <= p0 <= pmax]; its [q0] is brought within [qmin, qmax] only with
    [keep_factor=True], the clipping of [q0] being part of that branch. *)
Theorem distribute_loads_p_clip_limits (loads : table) (delta : Q)
    (indices : option (list ident)) (p_sigma : option Q) (keep_factor : bool)
    (factor_sigma : option Q) (noise_factor noise_p : nat -> Q) (r' : equip) :
  In r' (distribute_loads_p loads delta indices p_sigma keep_factor factor_sigma true
           noise_factor noise_p) ->
  (p_limits_ordered r' -> pmin r' <= p0 r' /\ p0 r' <= pmax r') /\
  (keep_factor = true -> q_limits_ordered r' -> qmin r' <= q0 r' /\ q0 r' <= qmax r').
Proof.
  unfold distribute_loads_p, clip_q0, clip_p0, loc_assign.
  destruct keep_factor; intros Hin.
  - apply List.in_map_iff in Hin as (x & <- & Hin).
    apply List.in_map_iff in Hin as (y & <- & Hin).
    apply List.in_map_iff in Hin as (z & <- & _).
    split.
    + intros Hord. destruct (series_get _ _); simpl in *; now apply clip_bounds.
    + intros _ Hord. simpl. apply clip_bounds. exact Hord.
  - apply List.in_map_iff in Hin as (z & <- & _).
    split; [|discriminate]. intros Hord. simpl. now apply clip_bounds.
Qed.

Lemma distribute_loads_p_clip_limits_witness :
  let r' := List.hd (load "" 0 0)
              (distribute_loads_p one_load 200 None None true None true
                 (fun _ => 1) (fun _ => 1)) in
  (pmin r' <= p0 r' /\ p0 r' <= pmax r') /\ (qmin r' <= q0 r' /\ q0 r' <= qmax r').
Proof.
  intros r'.
  destruct (distribute_loads_p_clip_limits one_load 200 None None true None
              (fun _ => 1) (fun _ => 1) r') as [Hp Hq].
  - vm_compute. left. reflexivity.
  - split; [apply Hp|apply Hq; [reflexivity|]]; vm_compute; discriminate.
Defined.

(** ** Reactive power at random *)

Lemma random_q0_from_rows (sigma : option Q) (noise : nat -> Q) (loads : table) :
  forall k,
    Forall2 (fun r r' =>
               exists j, r' = set_q0 (match sigma with
                                      | Some _ => q0 r * noise j
                                      | None => qmin r + noise j * (qmax r - qmin r)
                                      end) r)
            loads (random_q0_from sigma noise k loads).
Proof.
  induction loads as [|r loads IH]; intros k; simpl; constructor; eauto.
Qed.

Lemma uniform_within (lo hi n : Q) :
  lo <= hi -> 0 <= n -> n <= 1 -> lo <= lo + n * (hi - lo) /\ lo + n * (hi - lo) <= hi.
Proof.
  intros Hord H0 H1.
  assert (Ha : 0 <= n * (hi - lo)) by (apply Qmult_le_0_compat; lra).
  assert (Hb : n * (hi - lo) <= 1 * (hi - lo)) by (apply Qmult_le_compat_r; lra).
  lra.
Qed.

(** X9.  [random_load_q0] changes no column but [q0]; with [clip=True] every load
    whose limits on [q0] are in order ends with [qmin <= q0 <= qmax]. *)
Theorem random_load_q0_frame (loads : table) (sigma : option Q) (clip_flag : bool)
    (noise : nat -> Q) :
  Forall2 (fun r r' =>
             only_q0_differs r r' /\
             (clip_flag = true -> q_limits_ordered r ->
              qmin r' <= q0 r' /\ q0 r' <= qmax r'))
          loads (random_load_q0 loads sigma clip_flag noise).
Proof.
  unfold random_load_q0.
  assert (H : Forall2 only_q0_differs loads (random_q0_from sigma noise 0 loads)).
  { eapply Forall2_impl; [apply random_q0_from_rows|].
    intros r r' [j ->]. unfold only_q0_differs. now destruct r. }
  destruct clip_flag.
  - eapply Forall2_trans_rows; [|exact H|apply clip_q0_rows].
    intros x y z Hxy [Hyz Hlim]. split.
    + eapply only_q0_differs_trans; eauto.
    + intros _ Hord. apply Hlim. unfold only_q0_differs in Hxy.
      unfold q_limits_ordered in *. now rewrite <- Hxy in Hord.
  - eapply Forall2_impl; [exact H|]. intros r r' Hr. split; [exact Hr|discriminate].
Qed.

(** X10.  In the resampling branch ([sigma=None]), with samples in [[0, 1]] and
    limits in order, every [q0] lands within [qmin, qmax] by itself, and
    [clip=True] changes nothing. *)
Theorem random_load_q0_uniform (loads : table) (noise : nat -> Q) :
  (forall k, 0 <= noise k /\ noise k <= 1) ->
  (forall r, In r loads -> q_limits_ordered r) ->
  Forall2 (fun r r' => qmin r <= q0 r' /\ q0 r' <= qmax r)
          loads (random_load_q0 loads None false noise) /\
  random_load_q0 loads None true noise = random_load_q0 loads None false noise.
Proof.
  intros Hn Hord.
  assert (H : Forall2 (fun r r' => In r loads ->
                         only_q0_differs r r' /\ qmin r <= q0 r' /\ q0 r' <= qmax r)
                loads (random_load_q0 loads None false noise)).
  { unfold random_load_q0. eapply Forall2_impl; [apply random_q0_from_rows|].
    intros r r' [j ->] Hr. split; [unfold only_q0_differs; now destruct r|].
    simpl. destruct (Hn j). apply uniform_within; auto. now apply Hord. }
  assert (H' : Forall2 (fun r r' => only_q0_differs r r' /\
                          qmin r <= q0 r' /\ q0 r' <= qmax r)
                 loads (random_load_q0 loads None false noise)).
  { clear Hord. revert H. generalize (random_load_q0 loads None false noise).
    induction loads as [|x loads IH]; intros t H; inversion H; subst; constructor.
    - match goal with Hx : In x (x :: loads) -> _ |- _ => apply Hx end. now left.
    - apply IH. eapply Forall2_impl; [eassumption|].
      intros r r' Hr Hin. apply Hr. now right. }
  split.
  - eapply Forall2_impl; [exact H'|]. intros r r' (_ & Hq). exact Hq.
  - unfold random_load_q0 at 1. fold (random_load_q0 loads None false noise).
    apply clip_q0_within. intros r' Hr'.
    apply list_elem_of_In in Hr'. apply list_elem_of_lookup in Hr' as [i Hi].
    destruct (Forall2_lookup_r _ _ _ i r' H' Hi) as (r & _ & Hd & Hq).
    unfold only_q0_differs in Hd. rewrite <- Hd in Hq. simpl in Hq. exact Hq.
Qed.

Lemma random_load_q0_uniform_witness :
  Forall2 (fun r r' => qmin r <= q0 r' /\ q0 r' <= qmax r)
          one_load (random_load_q0 one_load None false (fun _ => 1 # 2)) /\
  random_load_q0 one_load None true (fun _ => 1 # 2)
  = random_load_q0 one_load None false (fun _ => 1 # 2).
Proof.
  apply random_load_q0_uniform.
  - intros k. split; discriminate.
  - intros r [<-|[]]. discriminate.
Defined.

Lemma random_load_q0_frame_witness :
  Forall2 (fun r r' =>
             only_q0_differs r r' /\
             (true = true -> q_limits_ordered r ->
              qmin r' <= q0 r' /\ q0 r' <= qmax r'))
          one_load (random_load_q0 one_load (Some (1 # 2)) true (fun _ => 300)).
Proof.
  exact (random_load_q0_frame one_load (Some (1 # 2)) true (fun _ => 300)).
Defined.

(** ** Bulk set points: lengths, limits, repetition *)

Lemma clip_idempotent (x lo hi : Q) : clip (clip x lo hi) lo hi = clip x lo hi.
Proof.
  destruct (Qlt_le_dec hi lo) as [Hlt|Hle].
  - unfold clip, Qmax, Qmin, GenericMinMax.gmax, GenericMinMax.gmin.
    destruct (x ?= lo) eqn:E1.
    + destruct (x ?= hi) eqn:E2.
      * apply Qeq_alt in E1, E2. lra.
      * apply Qeq_alt in E1. apply Qlt_alt in E2. lra.
      * destruct (hi ?= lo) eqn:E3.
        -- apply Qeq_alt in E3. lra.
        -- destruct (lo ?= hi) eqn:E4; try reflexivity.
           ++ apply Qeq_alt in E4. lra.
           ++ apply Qlt_alt in E4. lra.
        -- apply Qgt_alt in E3. lra.
    + destruct (lo ?= hi) eqn:E2.
      * apply Qeq_alt in E2. lra.
      * apply Qlt_alt in E2. lra.
      * destruct (hi ?= lo) eqn:E3.
        -- apply Qeq_alt in E3. lra.
        -- rewrite E2. reflexivity.
        -- apply Qgt_alt in E3. lra.
    + destruct (x ?= hi) eqn:E2.
      * apply Qeq_alt in E2. apply Qgt_alt in E1. lra.
      * apply Qlt_alt in E2. apply Qgt_alt in E1. lra.
      * destruct (hi ?= lo) eqn:E3.
        -- apply Qeq_alt in E3. lra.
        -- destruct (lo ?= hi) eqn:E4; try reflexivity.
           ++ apply Qeq_alt in E4. lra.
           ++ apply Qlt_alt in E4. lra.
        -- apply Qgt_alt in E3. lra.
  - destruct (clip_bounds x lo hi Hle). now apply clip_inside.
Qed.

Lemma combine_map_combine {A B C D} (F : A * B -> C) (g : A -> D) (l : list A) :
  forall vs, List.length vs = List.length l ->
    List.combine (List.map F (List.combine l vs)) (List.map g l)
    = List.map (fun p => (F p, g (fst p))) (List.combine l vs).
Proof.
  induction l as [|x l IH]; intros [|v vs] H; simpl in *; try discriminate;
    [reflexivity|]. f_equal. apply IH. lia.
Qed.

Lemma combine_map_combine_r {A B C} (F : A * B -> C) (l : list A) :
  forall vs, List.length vs = List.length l ->
    List.combine (List.map F (List.combine l vs)) vs
    = List.map (fun p => (F p, snd p)) (List.combine l vs).
Proof.
  induction l as [|x l IH]; intros [|v vs] H; simpl in *; try discriminate;
    [reflexivity|]. f_equal. apply IH. lia.
Qed.

(** The row that [set_gl_p0] makes of a row and its new value. *)
Lemma set_gl_p0_rows (data : table) (value : list Q) (keep_factor clip_flag : bool) :
  List.length value = List.length data ->
  set_gl_p0 data value keep_factor clip_flag
  = (List.map
       (fun p =>
          let r1 := set_p0 (snd p) (fst p) in
          let r2 := if keep_factor
                    then set_q0 (snd p * (q0 (fst p) / (p0 (fst p) + EPS))) r1
                    else r1 in
          if clip_flag
          then set_q0 (clip (q0 r2) (qmin r2) (qmax r2))
                 (set_p0 (clip (p0 r2) (pmin r2) (pmax r2)) r2)
          else r2)
       (List.combine data value), None).
Proof.
  intros Hlen. unfold set_gl_p0.
  rewrite (creates_rows_same_length data value Hlen), Hlen, Nat.eqb_refl. simpl. f_equal.
  rewrite (combine_map_combine (fun '(r, v) => set_p0 v r)
             (fun r => q0 r / (p0 r + EPS)) data value Hlen).
  unfold clip_q0, clip_p0.
  destruct keep_factor, clip_flag; rewrite ?List.map_map;
    apply List.map_ext; intros [r v]; reflexivity.
Qed.

(** X11.  On a table that has rows, [set_gl_p0] raises exactly when [value]
    does not have one entry per row, and then the table is as it was.  With
    one entry per row it returns, no column but [p0] and [q0] has changed,
    with [clip] off the column [p0] is [value], and with [keep_factor] on top
    every [q0] is the new [p0] times the old [q0 / (p0 + EPS)]. *)
Theorem set_gl_p0_lengths (data : table) (value : list Q)
    (keep_factor clip_flag : bool) :
  (data <> [] -> List.length value <> List.length data ->
   set_gl_p0 data value keep_factor clip_flag = (data, Some LengthMismatch)) /\
  (List.length value = List.length data ->
   snd (set_gl_p0 data value keep_factor clip_flag) = None /\
   Forall2 only_power_differs data (fst (set_gl_p0 data value keep_factor clip_flag)) /\
   (clip_flag = false ->
    List.map p0 (fst (set_gl_p0 data value keep_factor clip_flag)) = value /\
    Forall2 (fun r r' => q0 r' = if keep_factor
                                 then p0 r' * (q0 r / (p0 r + EPS))
                                 else q0 r)
            data (fst (set_gl_p0 data value keep_factor clip_flag)))).
Proof.
  split.
  - intros Hrows Hne. unfold set_gl_p0. apply Nat.eqb_neq in Hne. rewrite Hne.
    destruct data; [contradiction|reflexivity].
  - intros Hlen. rewrite (set_gl_p0_rows data value keep_factor clip_flag Hlen). simpl.
    split; [reflexivity|]. split.
    + revert value Hlen. induction data as [|r data IH]; intros [|v value] Hlen;
        simpl in *; try discriminate; constructor; [|apply IH; lia].
      unfold only_power_differs. destruct keep_factor, clip_flag; now destruct r.
    + intros ->. split.
      * revert value Hlen. induction data as [|r data IH]; intros [|v value] Hlen;
          simpl in *; try discriminate; [reflexivity|].
        f_equal; [now destruct keep_factor|apply IH; lia].
      * revert value Hlen. induction data as [|r data IH]; intros [|v value] Hlen;
          simpl in *; try discriminate; constructor; [|apply IH; lia].
        now destruct keep_factor.
Qed.

Lemma set_gl_p0_lengths_witness :
  set_gl_p0 one_load [1; 2] true true = (one_load, Some LengthMismatch) /\
  List.map p0 (fst (set_gl_p0 one_load [20] true false)) = [20].
Proof.
  destruct (set_gl_p0_lengths one_load [1; 2] true true) as [H1 _].
  destruct (set_gl_p0_lengths one_load [20] true false) as [_ H2].
  split.
  - apply H1; discriminate.
  - exact (proj1 (proj2 (proj2 (H2 eq_refl)) eq_refl)).
Defined.

(** X12.  With [clip=True] every row whose limits are in order ends with
    [pmin <= p0 <= pmax] and [qmin <= q0 <= qmax], whatever [value] asks for. *)
Theorem set_gl_p0_clip_limits (data : table) (value : list Q) (keep_factor : bool)
    (r' : equip) :
  List.length value = List.length data ->
  In r' (fst (set_gl_p0 data value keep_factor true)) ->
  (p_limits_ordered r' -> pmin r' <= p0 r' /\ p0 r' <= pmax r') /\
  (q_limits_ordered r' -> qmin r' <= q0 r' /\ q0 r' <= qmax r').
Proof.
  intros Hlen Hin. rewrite (set_gl_p0_rows data value keep_factor true Hlen) in Hin.
  simpl in Hin. apply List.in_map_iff in Hin as ([r v] & <- & _).
  destruct keep_factor; simpl; split; intros Hord; now apply clip_bounds.
Qed.

Lemma set_gl_p0_clip_limits_witness :
  let r' := List.hd (load "" 0 0) (fst (set_gl_p0 one_load [500] true true)) in
  (pmin r' <= p0 r' /\ p0 r' <= pmax r') /\ (qmin r' <= q0 r' /\ q0 r' <= qmax r').
Proof.
  intros r'.
  destruct (set_gl_p0_clip_limits one_load [500] true r' eq_refl) as [Hp Hq].
  - vm_compute. left. reflexivity.
  - split; [apply Hp|apply Hq]; vm_compute; discriminate.
Defined.

(** X13.  With [keep_factor=False], setting the same values twice is the same as
    setting them once. *)
Theorem set_gl_p0_idempotent (data : table) (value : list Q) (clip_flag : bool) :
  set_gl_p0 (fst (set_gl_p0 data value false clip_flag)) value false clip_flag
  = set_gl_p0 data value false clip_flag.
Proof.
  destruct (Nat.eq_dec (List.length value) (List.length data)) as [Hlen|Hne].
  - rewrite (set_gl_p0_rows data value false clip_flag Hlen). simpl.
    rewrite set_gl_p0_rows.
    + f_equal. rewrite (combine_map_combine_r _ data value Hlen), List.map_map.
      apply List.map_ext. intros [r v]. simpl.
      destruct clip_flag; simpl; [|reflexivity].
      now rewrite clip_idempotent.
    + rewrite List.length_map, List.length_combine. lia.
  - assert (H : fst (set_gl_p0 data value false clip_flag) = data).
    { unfold set_gl_p0. destruct (creates_rows data value); [reflexivity|].
      apply Nat.eqb_neq in Hne. now rewrite Hne. }
    now rewrite H.
Qed.

(** ** Switching generators on *)

Lemma in_index_In (i : ident) (t : table) : in_index i t = true <-> In i (index t).
Proof. unfold in_index. apply (mem_In i (index t)). Qed.

Lemma forallb_in_index (indices : list ident) (t : table) :
  List.forallb (fun i => in_index i t) indices = true
  <-> forall i, In i indices -> In i (index t).
Proof.
  rewrite List.forallb_forall. split; intros H i Hi; apply in_index_In; auto.
Qed.

Lemma loc_rows_length (labels : list ident) (t t' : table) :
  index t = index t' ->
  List.length (loc_rows labels t) = List.length (loc_rows labels t').
Proof.
  intros Hidx. unfold loc_rows. rewrite !List.flat_map_concat_map.
  rewrite !List.length_concat. f_equal. rewrite !List.map_map.
  apply List.map_ext. intros i.
  assert (H : forall u : table,
            List.length (List.filter (fun r => String.eqb (idx r) i) u)
            = List.length (List.filter (fun j => String.eqb j i) (index u))).
  { induction u as [|x u IH]; simpl; [reflexivity|].
    destruct (String.eqb (idx x) i); simpl; now rewrite IH. }
  now rewrite !H, Hidx.
Qed.

Lemma loc_update_v0_rows (v : v0_arg) (indices : list ident) (i : ident) (x : Q)
    (g t : table) :
  In i indices ->
  Forall2 (fun r r' => if mem (idx r) indices then switched_on (V0List []) r r'
                       else r' = r) g t ->
  Forall2 (fun r r' => if mem (idx r) indices then switched_on (V0List []) r r'
                       else r' = r) g (loc_update [i] (set_v0 x) t).
Proof.
  intros Hi H. unfold loc_update.
  induction H as [|r r' g t Hr _ IH]; simpl; constructor; [|exact IH].
  destruct (mem (idx r) indices) eqn:Hm.
  - destruct Hr as [Hr _]. destruct (String.eqb (idx r') i); simpl; [|now split].
    split; [|exact I]. rewrite Hr. simpl. reflexivity.
  - subst r'. destruct (String.eqb (idx r) i) eqn:E; simpl; [|reflexivity].
    apply eqb_eq_iff in E. subst i. apply mem_In in Hi. congruence.
Qed.

(** X14.  [full_open_generators] raises [KeyError] when a label of [indices]
    is not in the table, which is then as it was.  Otherwise every named
    generator is in service and at its [pmax], with the given [v0] if a
    float is given, and every other generator is as it was, also when a list
    of [v0] makes the call raise afterwards; and the call raises only for a
    list of [v0] that does not have one value per named row. *)
Theorem full_open_generators_opens (generators : table) (indices : list ident)
    (v : v0_arg) :
  (~ (forall i, In i indices -> In i (index generators)) ->
   full_open_generators generators indices v = (generators, Some KeyError)) /\
  ((forall i, In i indices -> In i (index generators)) ->
   Forall2 (fun r r' => if mem (idx r) indices then switched_on v r r' else r' = r)
           generators (fst (full_open_generators generators indices v)) /\
   (match v with
    | V0List vs => List.length vs = List.length (loc_rows indices generators)
    | _ => True
    end ->
    snd (full_open_generators generators indices v) = None)).
Proof.
  unfold full_open_generators. split.
  - intros Hn. destruct (List.forallb _ indices) eqn:Hall; [|reflexivity].
    exfalso. apply Hn. exact (proj1 (forallb_in_index indices generators) Hall).
  - intros Hall. rewrite (proj2 (forallb_in_index indices generators) Hall). simpl.
    set (g1 := loc_update indices (fun r => set_p0 (pmax r) r)
                 (loc_update indices (set_mark 1) generators)).
    assert (H1 : Forall2 (fun r r' => if mem (idx r) indices
                                      then r' = set_p0 (pmax r) (set_mark 1 r)
                                      else r' = r) generators g1).
    { unfold g1, loc_update. rewrite List.map_map. apply Forall2_map_self.
      intros r _. destruct (mem (idx r) indices) eqn:Hm; simpl; now rewrite Hm. }
    assert (H2 : forall w, match w with V0List _ => True | V0None => True
                           | V0Float _ => False end ->
              Forall2 (fun r r' => if mem (idx r) indices then switched_on w r r'
                                   else r' = r) generators g1).
    { intros w Hw. eapply Forall2_impl; [exact H1|]. intros r r' Hr.
      cbv beta in Hr. destruct (mem (idx r) indices); [|exact Hr]. subst r'.
      split; [now destruct r|]. destruct w; simpl; auto; contradiction. }
    assert (H3 : forall x,
              Forall2 (fun r r' => if mem (idx r) indices
                                   then switched_on (V0Float x) r r' else r' = r)
                      generators (loc_update indices (set_v0 x) g1)).
    { intros x. unfold loc_update at 1. clear H2 Hall. clearbody g1.
      induction H1 as [|r r1 l l1 Hr _ IH]; simpl; [constructor|].
      constructor; [|exact IH].
      destruct (mem (idx r) indices) eqn:Hm; subst r1; simpl; rewrite Hm;
        [split; reflexivity|reflexivity]. }
    assert (Hlen : List.length (loc_rows indices g1)
                   = List.length (loc_rows indices generators)).
    { unfold g1. apply loc_rows_length. now rewrite !index_loc_update. }
    destruct v as [|x|vs]; simpl.
    + split; [now apply H2|reflexivity].
    + split; [apply H3|reflexivity].
    + rewrite Hlen.
      assert (Hg : Forall2 (fun r r' => if mem (idx r) indices
                             then switched_on (V0List []) r r' else r' = r)
                     generators g1) by (now apply H2).
      assert (Hg' : Forall2 (fun r r' => if mem (idx r) indices
                              then switched_on (V0List vs) r r' else r' = r)
                      generators g1) by (now apply H2).
      destruct (Nat.eqb (List.length vs) (List.length (loc_rows indices generators)))
        eqn:E; simpl.
      * split; [|reflexivity].
        assert (Hsub : forall p, In p (List.combine indices vs) -> In (fst p) indices).
        { intros [i x] Hp. now apply List.in_combine_l in Hp. }
        revert Hsub Hg. generalize g1.
        induction (List.combine indices vs) as [|[i x] l IH]; intros g0 Hsub Hg; simpl.
        -- eapply Forall2_impl; [exact Hg|]. intros r r'. cbv beta.
           destruct (mem (idx r) indices); [|auto]. intros [Ha _]. now split.
        -- apply IH; [intros p Hp; apply Hsub; now right|].
           apply (loc_update_v0_rows (V0List []) indices i x); [|exact Hg].
           apply (Hsub (i, x)). now left.
      * apply Nat.eqb_neq in E.
        destruct (Nat.eqb (List.length (loc_rows indices generators)) 0); simpl;
          [split; [exact Hg'|reflexivity]|].
        destruct vs as [|x [|y vs]]; simpl.
        -- split; [exact Hg'|]. intros Heq. now apply E in Heq.
        -- split; [|reflexivity].
           eapply Forall2_impl; [apply (H3 x)|]. intros r r'. cbv beta.
           destruct (mem (idx r) indices); [|auto]. intros [Ha _]. now split.
        -- split; [exact Hg'|]. intros Heq. now apply E in Heq.
Qed.

Lemma full_open_generators_opens_witness :
  Forall2 (fun r r' => if mem (idx r) ["g2"] then switched_on (V0Float 1) r r'
                       else r' = r)
          two_generators (fst (full_open_generators two_generators ["g2"] (V0Float 1))) /\
  full_open_generators two_generators ["g9"] V0None = (two_generators, Some KeyError).
Proof.
  destruct (full_open_generators_opens two_generators ["g2"] (V0Float 1)) as [_ H].
  destruct (full_open_generators_opens two_generators ["g9"] V0None) as [H' _].
  split.
  - apply H. intros i [<-|[]]. right. left. reflexivity.
  - apply H'. intros Hc. specialize (Hc "g9" (or_introl eq_refl)).
    destruct Hc as [Hc|[Hc|[]]]; discriminate.
Defined.

Lemma forallb_in_index_same (indices : list ident) (t t' : table) :
  index t = index t' ->
  List.forallb (fun i => in_index i t) indices
  = List.forallb (fun i => in_index i t') indices.
Proof. intros H. unfold in_index. now rewrite H. Qed.

Lemma loc_update_twice (labels : list ident) (F G : equip -> equip) (t : table) :
  (forall r, idx (F r) = idx r) ->
  loc_update labels G (loc_update labels F t)
  = loc_update labels (fun r => G (F r)) t.
Proof.
  intros HF. unfold loc_update. rewrite List.map_map. apply List.map_ext.
  intros r. destruct (mem (idx r) labels) eqn:Hm.
  - now rewrite HF, Hm.
  - now rewrite Hm.
Qed.

Lemma loc_update_ext (labels : list ident) (F G : equip -> equip) (t : table) :
  (forall r, F r = G r) -> loc_update labels F t = loc_update labels G t.
Proof.
  intros H. unfold loc_update. apply List.map_ext. intros r.
  destruct (mem (idx r) labels); [apply H|reflexivity].
Qed.

(** X15.  Switching the same generators on twice, with no [v0] or with a float,
    is the same as switching them on once. *)
Theorem full_open_generators_idempotent (generators : table) (indices : list ident)
    (v : v0_arg) :
  match v with V0List _ => False | _ => True end ->
  full_open_generators (fst (full_open_generators generators indices v)) indices v
  = full_open_generators generators indices v.
Proof.
  intros Hv.
  unfold full_open_generators at 1.
  rewrite (forallb_in_index_same indices _ generators (index_full_open_generators _ _ _)).
  unfold full_open_generators.
  destruct (List.forallb _ indices); cbn [negb fst]; [|reflexivity].
  destruct v as [|x|vs]; [| |contradiction]; cbn [fst]; f_equal.
  - rewrite !loc_update_twice by reflexivity.
    apply loc_update_ext. intros r. now destruct r.
  - rewrite !loc_update_twice by reflexivity.
    apply loc_update_ext. intros r. now destruct r.
Qed.

Lemma full_open_generators_idempotent_witness :
  full_open_generators (fst (full_open_generators two_generators ["g1"] (V0Float 1)))
    ["g1"] (V0Float 1)
  = full_open_generators two_generators ["g1"] (V0Float 1).
Proof. exact (full_open_generators_idempotent two_generators ["g1"] (V0Float 1) I). Defined.

(** ** Lines: what a call opens *)

Lemma marks_off_nil (aclines : list branch) : marks_off [] aclines = aclines.
Proof. unfold marks_off. simpl. apply List.map_id. Qed.

Lemma marks_off_open_branch (i : ident) (new : list ident) (aclines : list branch) :
  marks_off new (open_branch i aclines) = marks_off (i :: new) aclines.
Proof.
  unfold marks_off, open_branch. rewrite List.map_map. apply List.map_ext. intros b.
  change (mem (bidx b) (i :: new)) with (String.eqb (bidx b) i || mem (bidx b) new)%bool.
  destruct (String.eqb (bidx b) i); simpl; [|reflexivity].
  now destruct (mem (bidx b) new).
Qed.

(** What the loop has done when it ends normally: it has appended to [ret]
    as many distinct candidates as [num] asked for, and put exactly those
    lines out of service. *)
Lemma open_loop_result (rnd : nat -> nat) (keep_link : bool) (fuel : nat) :
  forall k aclines graph indices num ret aclines' opened,
    open_loop fuel rnd k keep_link aclines graph indices num ret
      = Some (aclines', inr opened) ->
    exists new,
      opened = ret ++ new /\ NoDup new /\ (forall i, In i new -> In i indices) /\
      Z.of_nat (List.length new) = Z.max 0 num /\
      aclines' = marks_off new aclines.
Proof.
  induction fuel as [|fuel IH]; intros k aclines graph indices num ret aclines' opened H;
    simpl in H; destruct (0 <? num)%Z eqn:Hnum; simpl in H; try discriminate;
    try solve [injection H as <- <-; exists []; apply Z.ltb_ge in Hnum;
               rewrite List.app_nil_r, marks_off_nil;
               split; [reflexivity|]; split; [apply NoDup_nil_2|];
               split; [intros i []|]; split; [simpl; lia|reflexivity]].
  destruct (Z.of_nat (List.length indices) <? num)%Z eqn:Hshort; [discriminate|].
  apply Z.ltb_lt in Hnum. apply Z.ltb_ge in Hshort.
  assert (Hne : indices <> []) by (intros ->; simpl in Hshort; lia).
  pose proof (nth_mod_In (rnd k) indices Hne) as Hi.
  set (i := List.nth (rnd k mod List.length indices)%nat indices EmptyString) in *.
  assert (Hopen : forall graph',
            open_loop fuel rnd (S k) keep_link (open_branch i aclines) graph'
              (drop i indices) (num - 1)%Z (ret ++ [i]) = Some (aclines', inr opened) ->
            exists new,
              opened = ret ++ new /\ NoDup new /\ (forall j, In j new -> In j indices) /\
              Z.of_nat (List.length new) = Z.max 0 num /\
              aclines' = marks_off new aclines).
  { intros graph' H'. apply IH in H' as (new & He & Hnd & Hin & Hlen & Ha).
    exists (i :: new). split; [now rewrite He, <- List.app_assoc|].
    split.
    { apply NoDup_cons. split; [|exact Hnd]. intros Hc. apply list_elem_of_In in Hc.
      apply Hin in Hc. unfold drop in Hc. apply List.filter_In in Hc as [_ Hc].
      now rewrite String.eqb_refl in Hc. }
    split; [intros j [<-|Hj]; [exact Hi|eapply in_drop; apply Hin; exact Hj]|].
    split; [simpl List.length; lia|].
    rewrite Ha. apply marks_off_open_branch. }
  assert (Hskip : open_loop fuel rnd (S k) keep_link aclines graph
                    (drop i indices) num ret = Some (aclines', inr opened) ->
            exists new,
              opened = ret ++ new /\ NoDup new /\ (forall j, In j new -> In j indices) /\
              Z.of_nat (List.length new) = Z.max 0 num /\
              aclines' = marks_off new aclines).
  { intros H'. apply IH in H' as (new & He & Hnd & Hin & Hlen & Ha).
    exists new. split; [exact He|]. split; [exact Hnd|].
    split; [intros j Hj; eapply in_drop; apply Hin; exact Hj|]. now split. }
  destruct keep_link; [destruct (is_connected _ _ _ _)|]; eauto.
Qed.

Lemma random_open_acline_returned (power : power_data) (num : Z) (keep_link : bool)
    (rnd : nat -> nat) (power' : power_data) (opened : list ident) :
  random_open_acline power num keep_link rnd = Some (power', inr opened) ->
  Z.of_nat (List.length opened) = Z.max 0 num /\
  NoDup opened /\
  (forall i, In i opened -> In i (pool (acline power))) /\
  power' = mk_power (marks_off opened (acline power)) (transformer power).
Proof.
  unfold random_open_acline.
  destruct (open_loop _ _ _ _ _ _ _ _ _) as [[aclines' out]|] eqn:H; [|discriminate].
  intros [= <- ->]. apply open_loop_result in H as (new & He & Hnd & Hin & Hlen & Ha).
  simpl in He. subst opened aclines'. auto.
Qed.

(** X16.  When [random_open_acline] returns, with or without [keep_link], the
    list it returns holds [num] lines (none for [num <= 0]), all distinct,
    all of them in service and not self-loops before the call; the call has
    put exactly these lines out of service and changed nothing else. *)
Theorem random_open_acline_opens (power : power_data) (num : Z) (keep_link : bool)
    (rnd : nat -> nat) (power' : power_data) (opened : list ident) :
  random_open_acline power num keep_link rnd = Some (power', inr opened) ->
  Z.of_nat (List.length opened) = Z.max 0 num /\
  NoDup opened /\
  (forall i, In i opened -> In i (pool (acline power))) /\
  power' = mk_power (marks_off opened (acline power)) (transformer power).
Proof. apply random_open_acline_returned. Qed.

Lemma random_open_acline_opens_witness :
  random_open_acline spur_and_triangle 2 false (fun _ => 0%nat)
  = Some (mk_power (marks_off ["L1"; "L2"] (acline spur_and_triangle)) [],
          inr ["L1"; "L2"]) /\
  Z.of_nat (List.length ["L1"; "L2"]) = Z.max 0 2 /\
  NoDup ["L1"; "L2"].
Proof.
  assert (H : random_open_acline spur_and_triangle 2 false (fun _ => 0%nat)
              = Some (mk_power (marks_off ["L1"; "L2"] (acline spur_and_triangle)) [],
                      inr ["L1"; "L2"])) by reflexivity.
  split; [exact H|].
  destruct (random_open_acline_opens _ _ _ _ _ _ H) as (H1 & H2 & _).
  split; [exact H1|exact H2].
Defined.

(** X17.  Without [keep_link], and with [num] no larger than the number of lines
    that are in service and not self-loops, the call never raises: it returns
    [num] lines and puts them out of service. *)
Theorem random_open_acline_no_link_succeeds (power : power_data) (num : Z)
    (rnd : nat -> nat) :
  NoDup (List.map bidx (acline power)) ->
  (num <= Z.of_nat (List.length (pool (acline power))))%Z ->
  exists opened,
    random_open_acline power num false rnd
    = Some (mk_power (marks_off opened (acline power)) (transformer power),
            inr opened) /\
    Z.of_nat (List.length opened) = Z.max 0 num.
Proof.
  intros Hnd Hle.
  destruct (random_open_acline_total power num false rnd) as [[power' out] H].
  assert (Hout : exists opened, out = inr opened).
  { unfold random_open_acline in H.
    destruct (open_loop _ _ _ _ _ _ _ _ _) as [[aclines' o]|] eqn:Hloop; [|discriminate].
    injection H as _ <-.
    apply open_loop_no_link_returns in Hloop; [exact Hloop| |exact Hle].
    unfold pool. now apply NoDup_map_filter. }
  destruct Hout as [opened ->]. exists opened.
  destruct (random_open_acline_returned _ _ _ _ _ _ H) as (Hlen & _ & _ & ->).
  split; [exact H|exact Hlen].
Qed.

Lemma random_open_acline_no_link_succeeds_witness :
  exists opened,
    random_open_acline ring 3 false (fun k => k)
    = Some (mk_power (marks_off opened (acline ring)) [], inr opened) /\
    Z.of_nat (List.length opened) = Z.max 0 3.
Proof.
  apply (random_open_acline_no_link_succeeds ring 3 (fun k => k)).
  - apply NoDup_ListNoDup. repeat constructor; simpl; intuition discriminate.
  - vm_compute. discriminate.
Defined.

Lemma open_loop_all_set_aside (rnd : nat -> nat) (fuel : nat) :
  forall k aclines graph indices num ret,
    (List.length indices < fuel)%nat -> (0 < num)%Z ->
    (forall i, In i indices ->
       is_connected graph (ibus (loc_branch aclines i)) (jbus (loc_branch aclines i))
                    [edge_of (loc_branch aclines i)] = true) ->
    open_loop fuel rnd k true aclines graph indices num ret
    = Some (aclines, inl NotPlenty).
Proof.
  induction fuel as [|fuel IH]; intros k aclines graph indices num ret Hlen Hnum Hall;
    [lia|].
  simpl. assert (H0 : (0 <? num)%Z = true) by now apply Z.ltb_lt.
  rewrite H0. simpl.
  destruct (Z.of_nat (List.length indices) <? num)%Z eqn:Hshort; [reflexivity|].
  apply Z.ltb_ge in Hshort.
  assert (Hne : indices <> []) by (intros ->; simpl in Hshort; lia).
  pose proof (nth_mod_In (rnd k) indices Hne) as Hi.
  pose proof (drop_length_lt _ _ Hi) as Hdrop.
  rewrite (Hall _ Hi). apply IH; [lia|exact Hnum|].
  intros j Hj. apply Hall. now apply in_drop in Hj.
Qed.

(** X18.  With [keep_link=True] and [num > 0], on a network where the terminal
    buses of every candidate line stay joined without that line, every draw
    is set aside: the call opens nothing and raises 'Not plenty of aclines to
    be off', whatever is drawn. *)
Theorem random_open_acline_meshed_raises (power : power_data) (num : Z)
    (rnd : nat -> nat) :
  (0 < num)%Z ->
  (forall i, In i (pool (acline power)) ->
     connected (remove_edge (edge_of (loc_branch (acline power) i)) (PowerGraph power))
               (ibus (loc_branch (acline power) i))
               (jbus (loc_branch (acline power) i))) ->
  random_open_acline power num true rnd = Some (power, inl NotPlenty).
Proof.
  intros Hnum Hall. unfold random_open_acline.
  rewrite open_loop_all_set_aside; [now destruct power|apply Nat.lt_succ_diag_r|exact Hnum|].
  intros i Hi. apply is_connected_iff. simpl. now apply Hall.
Qed.

Lemma random_open_acline_meshed_raises_witness :
  random_open_acline ring 1 true (fun _ => 0%nat) = Some (ring, inl NotPlenty).
Proof.
  apply (random_open_acline_meshed_raises ring 1 (fun _ => 0%nat)); [reflexivity|].
  intros i Hi.
  apply (proj1 (is_connected_iff (PowerGraph ring) _ _
                  [edge_of (loc_branch (acline ring) i)])).
  destruct Hi as [<-|[<-|[<-|[]]]]; reflexivity.
Defined.

(** ** Closing every branch *)

(** X19.  After [close_all_branches] every line that is not a self-loop is a
    candidate of [random_open_acline], every branch is an edge of the graph
    of the branches in service, and a second call changes nothing. *)
Theorem close_all_branches_candidates (data : power_data) :
  pool (acline (close_all_branches data))
  = List.map bidx
      (List.filter (fun b => negb (Nat.eqb (ibus b) (jbus b))) (acline data)) /\
  PowerGraph (close_all_branches data)
  = List.map edge_of (acline data ++ transformer data) /\
  close_all_branches (close_all_branches data) = close_all_branches data.
Proof.
  unfold close_all_branches, pool, PowerGraph. simpl. split; [|split].
  - induction (acline data) as [|b l IH]; simpl; [reflexivity|].
    destruct (Nat.eqb (ibus b) (jbus b)); simpl; [exact IH|]. now rewrite IH.
  - rewrite <- List.map_app.
    induction (acline data ++ transformer data) as [|b l IH]; simpl; [reflexivity|].
    now rewrite IH.
  - now rewrite !List.map_map.
Qed.

(** ** Field editor: what a call leaves alone *)

Lemma pad_nothing (x : option (list cell)) :
  (fun cs => cs ++ replicate (List.length (@nil ident)) NaN) <$> x = x.
Proof. destruct x as [cs|]; simpl; [|reflexivity]. now rewrite List.app_nil_r. Qed.

(** After the loop over a mapping, the columns other than the written one
    are the former ones, with a [NaN] for every row that was appended. *)
Lemma set_by_identifier_other_columns (column : string) (delta : bool)
    (m : list (ident * Q)) :
  forall f, exists extra,
    f_index (fst (set_by_identifier column delta m f)) = f_index f ++ extra /\
    forall c, c <> column ->
      f_columns (fst (set_by_identifier column delta m f)) !! c
      = (fun cs => cs ++ replicate (List.length extra) NaN) <$> f_columns f !! c.
Proof.
  induction m as [|[k v] m IH]; intros f; simpl.
  - exists []. split; [now rewrite List.app_nil_r|]. intros c _. now rewrite pad_nothing.
  - destruct (mem k (f_index f)).
    + destruct (IH (loc_modify k column
                      (if delta then cell_add v else fun _ => Num v) f))
        as (extra & He & Hc).
      exists extra. split; [exact He|]. intros c Hne. rewrite (Hc c Hne). simpl.
      now rewrite lookup_alter_ne by congruence.
    + destruct delta.
      * exists []. split; [now rewrite List.app_nil_r|]. intros c _.
        now rewrite pad_nothing.
      * destruct (IH (loc_enlarge k column v f)) as (extra & He & Hc).
        exists (k :: extra). split; [simpl in He; now rewrite He, <- List.app_assoc|].
        intros c Hne. rewrite (Hc c Hne). simpl.
        rewrite lookup_alter_ne by congruence. rewrite lookup_fmap.
        destruct (f_columns f !! c) as [cs|]; simpl; [|reflexivity].
        now rewrite <- List.app_assoc.
Qed.

Lemma set_column_other_columns (column : string) (delta : bool) (values : new_values)
    (f : frame) :
  exists extra,
    f_index (fst (set_column column delta values f)) = f_index f ++ extra /\
    forall c, c <> column ->
      f_columns (fst (set_column column delta values f)) !! c
      = (fun cs => cs ++ replicate (List.length extra) NaN) <$> f_columns f !! c.
Proof.
  destruct values as [m|a|s]; simpl.
  - apply set_by_identifier_other_columns.
  - destruct (negb delta && no_rows f && negb (is_empty a)); simpl.
    + eexists. split; [reflexivity|]. intros c Hne.
      rewrite lookup_alter_ne by congruence. now rewrite lookup_fmap.
    + exists []. destruct (Nat.eqb (List.length a) (List.length (f_index f))); simpl;
        (split; [now rewrite List.app_nil_r|]); intros c Hne; rewrite pad_nothing;
        [|reflexivity]. now rewrite lookup_alter_ne by congruence.
  - destruct (negb delta && no_rows f && negb (is_empty s)); simpl.
    + eexists. split; [reflexivity|]. intros c Hne.
      rewrite lookup_alter_ne by congruence. now rewrite lookup_fmap.
    + exists []. split; [now rewrite List.app_nil_r|]. intros c Hne.
      rewrite pad_nothing. now rewrite lookup_alter_ne by congruence.
Qed.

(** X20.  [set_values] touches one column of one table: every other table is as
    it was, and every other column of the edited table holds its former
    cells, followed by a [NaN] for every row the call has appended (by a
    mapping with [delta=False] that names identifiers the table does not
    have, or by an array or a series with [delta=False] on a table with no
    rows). *)
Theorem set_values_frame (data : gmap string frame) (etype column : string)
    (values : new_values) (delta : bool) :
  (forall e, e <> etype ->
     fst (set_values data etype column values delta) !! e = data !! e) /\
  (forall f, data !! etype = Some f ->
     exists f' extra,
       fst (set_values data etype column values delta) !! etype = Some f' /\
       f_index f' = f_index f ++ extra /\
       forall c, c <> column ->
         f_columns f' !! c
         = (fun cs => cs ++ replicate (List.length extra) NaN) <$> f_columns f !! c).
Proof.
  unfold set_values. split.
  - intros e Hne. destruct (data !! etype) as [g|]; [|reflexivity].
    destruct (f_columns g !! column); [|reflexivity].
    destruct (set_column column delta values g) as [g' err]. simpl.
    now rewrite lookup_insert_ne by congruence.
  - intros f Hf. rewrite Hf.
    assert (Hsame : exists f' extra,
              data !! etype = Some f' /\ f_index f' = f_index f ++ extra /\
              forall c, c <> column ->
                f_columns f' !! c
                = (fun cs => cs ++ replicate (List.length extra) NaN)
                    <$> f_columns f !! c).
    { exists f, []. split; [exact Hf|]. split; [now rewrite List.app_nil_r|].
      intros c _. now rewrite pad_nothing. }
    destruct (f_columns f !! column); [|exact Hsame].
    destruct (set_column_other_columns column delta values f) as (extra & Hi & Hc).
    destruct (set_column column delta values f) as [f' err]. simpl in *.
    exists f', extra. rewrite lookup_insert_eq. auto.
Qed.

Lemma set_values_frame_witness :
  exists f' extra,
    fst (set_values demo_data "load" "p0" (ByIdentifier [("z", 7)]) false) !! "load"
    = Some f' /\
    f_index f' = ["a"; "b"] ++ extra /\
    f_columns f' !! "mark" = Some ([Num 1; Num 1] ++ replicate (List.length extra) NaN).
Proof.
  destruct (proj2 (set_values_frame demo_data "load" "p0" (ByIdentifier [("z", 7)]) false)
              demo_frame eq_refl) as (f' & extra & Hf & Hi & Hc).
  exists f', extra. split; [exact Hf|]. split; [exact Hi|].
  rewrite (Hc "mark") by discriminate. reflexivity.
Defined.

(** ** Field editor: the errors of a mapping *)

Lemma set_by_identifier_raises (column : string) (delta : bool)
    (m : list (ident * Q)) :
  forall f,
    snd (set_by_identifier column delta m f)
    = if delta && negb (List.forallb (fun k => mem k (f_index f)) (List.map fst m))
      then Some KeyError else None.
Proof.
  induction m as [|[k v] m IH]; intros f; simpl.
  - now rewrite andb_false_r.
  - destruct (mem k (f_index f)); simpl.
    + now rewrite IH.
    + destruct delta; simpl; [reflexivity|]. now rewrite IH.
Qed.

(** X21.  With a mapping, and the table and the column present, [set_values]
    raises only with [delta=True], and then exactly when the mapping names
    an identifier that is not in the table ([KeyError]); with [delta=False]
    it never raises. *)
Theorem set_values_mapping_errors (data : gmap string frame) (etype column : string)
    (m : list (ident * Q)) (delta : bool) (f : frame) :
  data !! etype = Some f -> is_Some (f_columns f !! column) ->
  snd (set_values data etype column (ByIdentifier m) delta)
  = if delta && negb (List.forallb (fun k => mem k (f_index f)) (List.map fst m))
    then Some KeyError else None.
Proof.
  intros Hf [cs Hcs]. unfold set_values. rewrite Hf, Hcs. simpl.
  pose proof (set_by_identifier_raises column delta m f) as H.
  destruct (set_by_identifier column delta m f) as [f' err]. exact H.
Qed.

Lemma set_values_mapping_errors_witness :
  snd (set_values demo_data "load" "p0" (ByIdentifier [("a", 5); ("z", 7)]) true)
  = Some KeyError /\
  snd (set_values demo_data "load" "p0" (ByIdentifier [("a", 5); ("z", 7)]) false)
  = None.
Proof.
  split.
  - rewrite (set_values_mapping_errors demo_data "load" "p0" [("a", 5); ("z", 7)] true
               demo_frame eq_refl); [reflexivity|]. exists [Num 1; Num 2]. reflexivity.
  - rewrite (set_values_mapping_errors demo_data "load" "p0" [("a", 5); ("z", 7)] false
               demo_frame eq_refl); [reflexivity|]. exists [Num 1; Num 2]. reflexivity.
Defined.

Lemma set_by_identifier_stops (column : string) (k : ident) (v : Q)
    (m2 : list (ident * Q)) (m1 : list (ident * Q)) :
  forall f,
    (forall k', In k' (List.map fst m1) -> In k' (f_index f)) ->
    ~ In k (f_index f) ->
    set_by_identifier column true (m1 ++ (k, v) :: m2) f
    = (fst (set_by_identifier column true m1 f), Some KeyError) /\
    snd (set_by_identifier column true m1 f) = None.
Proof.
  induction m1 as [|[k1 v1] m1 IH]; intros f Hin Hk; simpl.
  - assert (Hm : mem k (f_index f) = false).
    { destruct (mem k (f_index f)) eqn:E; [|reflexivity]. apply mem_In in E. tauto. }
    now rewrite Hm.
  - assert (Hm : mem k1 (f_index f) = true) by (apply mem_In, Hin; now left).
    rewrite Hm. apply IH; simpl; [|exact Hk].
    intros k' Hk'. apply Hin. now right.
Qed.

(** X22.  With [delta=True] and a mapping, nothing is rolled back when an
    identifier is not in the table: the entries before it have been added to
    their rows, the entries after it have not, and the call raises
    [KeyError]. *)
Theorem set_values_key_error_partial (data : gmap string frame)
    (etype column : string) (m1 m2 : list (ident * Q)) (k : ident) (v : Q)
    (f : frame) :
  data !! etype = Some f -> is_Some (f_columns f !! column) ->
  (forall k', In k' (List.map fst m1) -> In k' (f_index f)) ->
  ~ In k (f_index f) ->
  set_values data etype column (ByIdentifier (m1 ++ (k, v) :: m2)) true
  = (fst (set_values data etype column (ByIdentifier m1) true), Some KeyError) /\
  snd (set_values data etype column (ByIdentifier m1) true) = None.
Proof.
  intros Hf [cs Hcs] Hin Hk. unfold set_values. rewrite Hf, Hcs. simpl.
  destruct (set_by_identifier_stops column k v m2 m1 f Hin Hk) as [H1 H2].
  rewrite H1. destruct (set_by_identifier column true m1 f) as [f' err].
  simpl in *. now subst err.
Qed.

Lemma set_values_key_error_partial_witness :
  set_values demo_data "load" "p0" (ByIdentifier [("a", 5); ("z", 7); ("b", 1)]) true
  = (fst (set_values demo_data "load" "p0" (ByIdentifier [("a", 5)]) true),
     Some KeyError).
Proof.
  apply (set_values_key_error_partial demo_data "load" "p0" [("a", 5)] [("b", 1)]
           "z" 7 demo_frame eq_refl).
  - exists [Num 1; Num 2]. reflexivity.
  - intros k' [<-|[]]. left. reflexivity.
  - intros [H|[H|[]]]; discriminate.
Defined.

(** ** Action files *)

Lemma incomplete_dec (data : gmap string frame) (etype column : string) :
  {incomplete data etype column} + {~ incomplete data etype column}.
Proof.
  unfold incomplete. destruct (data !! etype) as [f|]; [|now left].
  destruct (f_columns f !! column); [right; discriminate|now left].
Qed.

Lemma set_by_identifier_columns (column : string) (delta : bool)
    (m : list (ident * Q)) :
  forall f c,
    f_columns (fst (set_by_identifier column delta m f)) !! c = None
    <-> f_columns f !! c = None.
Proof.
  induction m as [|[k v] m IH]; intros f c; simpl; [reflexivity|].
  destruct (mem k (f_index f)).
  - rewrite IH. simpl. apply lookup_alter_None.
  - destruct delta; [reflexivity|]. rewrite IH. simpl.
    rewrite lookup_alter_None, lookup_fmap, fmap_None. reflexivity.
Qed.

Lemma set_column_columns (column : string) (delta : bool) (values : new_values)
    (f : frame) (c : string) :
  f_columns (fst (set_column column delta values f)) !! c = None
  <-> f_columns f !! c = None.
Proof.
  destruct values as [m|a|s]; simpl.
  - apply set_by_identifier_columns.
  - destruct (negb delta && no_rows f && negb (is_empty a)); simpl.
    + now rewrite lookup_alter_None, lookup_fmap, fmap_None.
    + destruct (Nat.eqb (List.length a) (List.length (f_index f))); simpl;
        [apply lookup_alter_None|reflexivity].
  - destruct (negb delta && no_rows f && negb (is_empty s)); simpl.
    + now rewrite lookup_alter_None, lookup_fmap, fmap_None.
    + apply lookup_alter_None.
Qed.

(** A call of [set_values] neither adds nor removes a table or a column. *)
Lemma set_values_incomplete (data : gmap string frame) (etype column : string)
    (values : new_values) (delta : bool) (e c : string) :
  incomplete (fst (set_values data etype column values delta)) e c
  <-> incomplete data e c.
Proof.
  unfold set_values.
  destruct (data !! etype) as [f|] eqn:Hf; [|reflexivity].
  destruct (f_columns f !! column); [|reflexivity].
  pose proof (set_column_columns column delta values f c) as Hc.
  destruct (set_column column delta values f) as [f' err]. simpl in *.
  unfold incomplete. destruct (decide (etype = e)) as [<-|Hne].
  - now rewrite lookup_insert_eq, Hf.
  - now rewrite lookup_insert_ne by exact Hne.
Qed.

Lemma set_values_action (data : gmap string frame) (a : action) :
  (incomplete data (a_etype a) (a_dtype a) ->
   set_values data (a_etype a) (a_dtype a) (ByIdentifier [(a_idx a, a_value a)]) false
   = (data, Some DataIncomplete)) /\
  (~ incomplete data (a_etype a) (a_dtype a) ->
   snd (set_values data (a_etype a) (a_dtype a)
          (ByIdentifier [(a_idx a, a_value a)]) false) = None).
Proof.
  unfold incomplete, set_values.
  destruct (data !! a_etype a) as [f|]; [|split; [reflexivity|tauto]].
  destruct (f_columns f !! a_dtype a) as [cs|]; [|split; [reflexivity|tauto]].
  split; [discriminate|]. intros _.
  pose proof (set_by_identifier_raises (a_dtype a) false [(a_idx a, a_value a)] f) as H.
  unfold set_column.
  destruct (set_by_identifier (a_dtype a) false [(a_idx a, a_value a)] f) as [f' err].
  exact H.
Qed.

Lemma apply_actions_outcome (actions : list action) :
  forall data,
    (Forall (fun a => ~ incomplete data (a_etype a) (a_dtype a)) actions ->
     snd (apply_actions data actions) = None /\
     forall e c, incomplete (fst (apply_actions data actions)) e c
                 <-> incomplete data e c) /\
    (Exists (fun a => incomplete data (a_etype a) (a_dtype a)) actions ->
     snd (apply_actions data actions) = Some DataIncomplete).
Proof.
  induction actions as [|a actions IH]; intros data; simpl.
  - split; [intros _; split; [reflexivity|tauto]|]. intros H. inversion H.
  - destruct (set_values_action data a) as [Hbad Hgood].
    pose proof (set_values_incomplete data (a_etype a) (a_dtype a)
                  (ByIdentifier [(a_idx a, a_value a)]) false) as Hkeep.
    destruct (incomplete_dec data (a_etype a) (a_dtype a)) as [Hi|Hc].
    + rewrite (Hbad Hi). split; [|reflexivity].
      intros H. apply Forall_cons in H as [H _]. contradiction.
    + specialize (Hgood Hc).
      destruct (set_values data (a_etype a) (a_dtype a)
                  (ByIdentifier [(a_idx a, a_value a)]) false) as [data' err].
      simpl in *. subst err. destruct (IH data') as [IH1 IH2]. split.
      * intros H. apply Forall_cons in H as [_ H].
        destruct IH1 as [Hs Hk].
        { eapply Forall_impl; [exact H|]. intros x Hx Hx'. apply Hx. now apply Hkeep. }
        split; [exact Hs|]. intros e c. now rewrite Hk, Hkeep.
      * intros H. apply Exists_cons in H as [H|H]; [contradiction|].
        apply IH2. eapply Exists_impl; [exact H|]. intros x Hx. now apply Hkeep.
Qed.

Lemma load_actions_outcome (files : list (list action)) :
  forall data,
    (Forall (Forall (fun a => ~ incomplete data (a_etype a) (a_dtype a))) files ->
     snd (load_actions data files) = None) /\
    (Exists (Exists (fun a => incomplete data (a_etype a) (a_dtype a))) files ->
     snd (load_actions data files) = Some DataIncomplete).
Proof.
  induction files as [|actions files IH]; intros data; simpl.
  - split; [reflexivity|]. intros H. inversion H.
  - destruct (apply_actions_outcome actions data) as [Hgood Hbad].
    assert (Hdec : Forall (fun a => ~ incomplete data (a_etype a) (a_dtype a)) actions \/
                   Exists (fun a => incomplete data (a_etype a) (a_dtype a)) actions).
    { clear. induction actions as [|a actions IHa]; [left; constructor|].
      destruct (incomplete_dec data (a_etype a) (a_dtype a)) as [Hi|Hc].
      - right. now apply Exists_cons_hd.
      - destruct IHa as [H|H]; [left; now constructor|right; now apply Exists_cons_tl]. }
    destruct Hdec as [Hall|Hex].
    + destruct (Hgood Hall) as [Hs Hk].
      destruct (apply_actions data actions) as [data' err]. simpl in *. subst err.
      destruct (IH data') as [IH1 IH2].
      destruct (load_actions data' files) as [saved err] eqn:Hload. simpl in *. split.
      * intros H. apply Forall_cons in H as [_ H]. apply IH1.
        eapply Forall_impl; [exact H|]. intros l Hl.
        eapply Forall_impl; [exact Hl|]. intros x Hx Hx'. apply Hx. now apply Hk.
      * intros H. apply Exists_cons in H as [H|H].
        -- exfalso. apply Exists_exists in H as (x & Hx & Hi).
           rewrite Forall_forall in Hall. exact (Hall x Hx Hi).
        -- apply IH2. eapply Exists_impl; [exact H|]. intros l Hl.
           eapply Exists_impl; [exact Hl|]. intros x Hx. now apply Hk.
    + specialize (Hbad Hex).
      destruct (apply_actions data actions) as [data' err]. simpl in *. subst err.
      split; [|reflexivity].
      intros H. apply Forall_cons in H as [H _]. exfalso.
      apply Exists_exists in Hex as (x & Hx & Hi).
      rewrite Forall_forall in H. exact (H x Hx Hi).
Qed.

(** X23.  The edits of [load_actions] raise exactly when an action of one of the
    files names a table or a column that the data do not have at the start,
    and the error is then the 'Data incomplete' one of [set_values]: an
    action that names an identifier the table does not have appends a row
    and raises nothing. *)
Theorem load_actions_errors (data : gmap string frame) (files : list (list action)) :
  (snd (load_actions data files) = None
   <-> forall actions a, In actions files -> In a actions ->
         ~ incomplete data (a_etype a) (a_dtype a)) /\
  (snd (load_actions data files) <> None ->
   snd (load_actions data files) = Some DataIncomplete).
Proof.
  destruct (load_actions_outcome files data) as [Hgood Hbad].
  assert (Hdec : Forall (Forall (fun a => ~ incomplete data (a_etype a) (a_dtype a)))
                   files \/
                 Exists (Exists (fun a => incomplete data (a_etype a) (a_dtype a)))
                   files).
  { clear. induction files as [|l files IHf]; [left; constructor|].
    assert (Hl : Forall (fun a => ~ incomplete data (a_etype a) (a_dtype a)) l \/
                 Exists (fun a => incomplete data (a_etype a) (a_dtype a)) l).
    { induction l as [|a l IHa]; [left; constructor|].
      destruct (incomplete_dec data (a_etype a) (a_dtype a)) as [Hi|Hc].
      - right. now apply Exists_cons_hd.
      - destruct IHa as [H|H]; [left; now constructor|right; now apply Exists_cons_tl]. }
    destruct Hl as [Hl|Hl]; [|right; now apply Exists_cons_hd].
    destruct IHf as [H|H]; [left; now constructor|right; now apply Exists_cons_tl]. }
  split; [split|].
  - intros Hs actions a Hl Ha Hi. destruct Hdec as [Hall|Hex].
    + rewrite List.Forall_forall in Hall. specialize (Hall actions Hl).
      rewrite List.Forall_forall in Hall. exact (Hall a Ha Hi).
    + rewrite (Hbad Hex) in Hs. discriminate.
  - intros H. apply Hgood. apply List.Forall_forall. intros l Hl.
    apply List.Forall_forall. intros a Ha. exact (H l a Hl Ha).
  - intros Hne. destruct Hdec as [Hall|Hex]; [|now apply Hbad].
    exfalso. apply Hne. now apply Hgood.
Qed.

Lemma load_actions_errors_witness :
  snd (load_actions demo_data [[mk_action "load" "z" "p0" 7]; [mk_action "load" "a" "q0" 1]])
  = Some DataIncomplete.
Proof.
  apply (proj2 (load_actions_errors demo_data
                  [[mk_action "load" "z" "p0" 7]; [mk_action "load" "a" "q0" 1]])).
  vm_compute. discriminate.
Defined.

Lemma apply_actions_app (a1 a2 : list action) :
  forall data,
    snd (apply_actions data a1) = None ->
    apply_actions data (a1 ++ a2) = apply_actions (fst (apply_actions data a1)) a2.
Proof.
  induction a1 as [|a a1 IH]; intros data; simpl; [reflexivity|].
  destruct (set_values data (a_etype a) (a_dtype a)
              (ByIdentifier [(a_idx a, a_value a)]) false) as [data' [e|]];
    [discriminate|]. apply IH.
Qed.

(** X24.  The files of [load_actions] are not independent scenarios: [power] is
    edited in place and never reset, so what is saved for a file holds the
    edits of that file on top of those of every file before it. *)
Theorem load_actions_cumulative (data : gmap string frame)
    (files : list (list action)) :
  snd (load_actions data files) = None ->
  fst (load_actions data files)
  = List.map (fun k => fst (apply_actions data (List.concat (List.firstn (S k) files))))
             (List.seq 0 (List.length files)).
Proof.
  revert data. induction files as [|actions files IH]; intros data; [reflexivity|].
  cbn [load_actions].
  destruct (apply_actions data actions) as [data' [e|]] eqn:Ha; [discriminate|].
  specialize (IH data').
  destruct (load_actions data' files) as [saved err]. cbn [fst snd] in *.
  intros ->. rewrite (IH eq_refl). cbn [List.length List.seq List.map].
  f_equal.
  - cbn [List.firstn List.concat]. now rewrite List.app_nil_r, Ha.
  - rewrite <- List.seq_shift, List.map_map. apply List.map_ext. intros k.
    cbn [List.firstn List.concat].
    rewrite apply_actions_app by now rewrite Ha. now rewrite Ha.
Qed.

Lemma load_actions_cumulative_witness :
  fst (load_actions demo_data [[mk_action "load" "a" "p0" 7]; [mk_action "load" "b" "p0" 9]])
  = [fst (apply_actions demo_data [mk_action "load" "a" "p0" 7]);
     fst (apply_actions demo_data [mk_action "load" "a" "p0" 7; mk_action "load" "b" "p0" 9])].
Proof.
  exact (load_actions_cumulative demo_data
           [[mk_action "load" "a" "p0" 7]; [mk_action "load" "b" "p0" 9]] eq_refl).
Defined.

(** ** Switching generators on, then asking them for more *)

Lemma filter_none {A} (p : A -> bool) (l : list A) :
  (forall x, In x l -> p x = false) -> List.filter p l = [].
Proof.
  induction l as [|x l IH]; simpl; intros H; [reflexivity|].
  rewrite (H x) by now left. apply IH. intros y Hy. apply H. now right.
Qed.

Lemma loc_update_v0_at_pmax (indices l : list ident) (x : Q) (t : table) :
  (forall r, In r t -> In (idx r) indices -> p0 r = pmax r) ->
  forall r, In r (loc_update l (set_v0 x) t) -> In (idx r) indices -> p0 r = pmax r.
Proof.
  intros Ht r Hr Hi. unfold loc_update in Hr.
  apply List.in_map_iff in Hr as (y & <- & Hy).
  destruct (mem (idx y) l); simpl in *; now apply Ht.
Qed.

(** After a call of [full_open_generators] that returns, every generator
    it names runs at its [pmax]. *)
Lemma full_open_generators_at_pmax (generators : table) (indices : list ident)
    (v : v0_arg) (r' : equip) :
  snd (full_open_generators generators indices v) = None ->
  In r' (fst (full_open_generators generators indices v)) ->
  In (idx r') indices -> p0 r' = pmax r'.
Proof.
  unfold full_open_generators.
  destruct (negb (List.forallb _ indices)); [discriminate|].
  set (g1 := loc_update indices (fun r => set_p0 (pmax r) r)
               (loc_update indices (set_mark 1) generators)).
  assert (H1 : forall r, In r g1 -> In (idx r) indices -> p0 r = pmax r).
  { unfold g1. rewrite loc_update_twice by reflexivity. unfold loc_update.
    intros r Hr Hi. apply List.in_map_iff in Hr as (x & <- & _).
    destruct (mem (idx x) indices) eqn:Hm; [reflexivity|].
    apply mem_In in Hi. congruence. }
  destruct v as [|x|vs]; simpl.
  - intros _. apply H1.
  - intros _. now apply loc_update_v0_at_pmax.
  - destruct (Nat.eqb (List.length vs) _); simpl.
    + intros _. revert r'. generalize H1. generalize g1.
      induction (List.combine indices vs) as [|[i x] l IH]; intros g0 Hg0; simpl;
        [exact Hg0|].
      apply IH. now apply loc_update_v0_at_pmax.
    + destruct (Nat.eqb _ 0); simpl; [intros _; apply H1|].
      destruct vs as [|x [|y vs]]; simpl; try discriminate.
      intros _. now apply loc_update_v0_at_pmax.
Qed.

(** X25.  Generators that have just been switched on at full output have no room
    left: asked, among themselves, for an increase [delta > 0],
    [distribute_generators_p] changes nothing and hands the whole of [delta]
    back as unmet. *)
Theorem full_open_generators_leaves_no_headroom (generators : table)
    (indices : list ident) (v : v0_arg) (delta : Q) (sigma : option Q)
    (clip_flag : bool) (noise : nat -> Q) :
  indices <> [] ->
  snd (full_open_generators generators indices v) = None ->
  0 < delta ->
  distribute_generators_p (fst (full_open_generators generators indices v)) delta
    (Some indices) sigma clip_flag noise
  = (fst (full_open_generators generators indices v), Scalar (delta - 0)).
Proof.
  intros Hne Hok Hpos.
  set (opened := fst (full_open_generators generators indices v)).
  assert (Hc : candidates_up opened (Some indices) = []).
  { unfold candidates_up. apply filter_none. intros r Hr.
    destruct indices as [|i rest]; [contradiction|]. cbn [restrict] in Hr.
    apply in_loc_rows in Hr as [Hl Hr].
    apply List.filter_In in Hl as [Hl _]. apply List.filter_In in Hr as [Hr _].
    apply Qltb_false.
    rewrite (full_open_generators_at_pmax generators (i :: rest) v r Hok Hr Hl).
    apply Qle_refl. }
  unfold distribute_generators_p.
  rewrite (proj2 (Qltb_true 0 delta) Hpos), Hc.
  cbn [column values List.map np_sum fold_right].
  assert (Hle : Qle_bool 0 delta = true) by (apply Qle_bool_iff; lra).
  rewrite Hle. f_equal. unfold loc_assign. cbn [series_get]. apply List.map_id.
Qed.

Lemma full_open_generators_leaves_no_headroom_witness :
  distribute_generators_p (fst (full_open_generators two_generators ["g2"] V0None)) 5
    (Some ["g2"]) None true (fun _ => 1)
  = (fst (full_open_generators two_generators ["g2"] V0None), Scalar (5 - 0)).
Proof.
  apply (full_open_generators_leaves_no_headroom two_generators ["g2"] V0None 5 None
           true (fun _ => 1)).
  - discriminate.
  - reflexivity.
  - reflexivity.
Defined.

(** ** Instances of the row-wise statements *)

Lemma distribute_generators_p_frame_witness :
  Forall2 (fun r r' =>
             only_p0_differs r r' /\
             (false = false ->
              ~ In (idx r) (index (if Qltb 0 20
                                   then candidates_up two_generators (Some ["g1"])
                                   else candidates_down two_generators (Some ["g1"]))) ->
              r' = r))
          two_generators
          (fst (distribute_generators_p two_generators 20 (Some ["g1"]) None false
                  (fun _ => 1))).
Proof.
  exact (distribute_generators_p_frame two_generators 20 (Some ["g1"]) None false
           (fun _ => 1)).
Defined.

Lemma distribute_loads_p_frame_witness :
  Forall2 (fun r r' =>
             only_power_differs r r' /\
             (true = false -> only_p0_differs r r') /\
             (false = false ->
              ~ In (idx r) (index (participants one_load None)) -> r' = r))
          one_load
          (distribute_loads_p one_load 6 None None true None false
             (fun _ => 1) (fun _ => 1)).
Proof.
  exact (distribute_loads_p_frame one_load 6 None None true None false
           (fun _ => 1) (fun _ => 1)).
Defined.
